(** * Event reconciliation and document mapping (event.utils.ts)

    A shallow embedding of the venue filter, the CRM/CMS reconciler and the
    Umbraco document mapper of [src/utils/event.utils.ts], with the
    properties the specification states about them.

    Conventions of the embedding.
    - A JavaScript string is a [string]: the bytes of its UTF-8 encoding.
      Operations that look at characters ([trim], the regular expression
      of [normalizeDateString]) recognise the multi-byte encodings of the
      characters they single out.
    - The CRM [eventId] is an integer ([Z]); [Number_toString] is its decimal
      numeral, the text of the number for integers of magnitude below 2^53.
    - Fields the code defends against being missing at run time
      ([eventVenues], [socialMedia] and its five links) and fields declared
      [string | null] are [option]s; [None] is [null] / [undefined].
    - Object graphs that the code only builds are JSON trees ([json]);
      the update path, which clones and then mutates, runs on an explicit
      heap of objects. *)

From Stdlib Require Import ZArith Lia Ascii String List Permutation.
From stdpp Require Import base list strings gmap pretty.

Local Open Scope string_scope.

(** ** JavaScript strings *)

Module JsString.

Definition dquote : ascii := "034"%char.
Definition hyphen : ascii := "-"%char.

Definition code (c : ascii) : N := N_of_ascii c.

(** [s || d] on strings: the empty string is falsy. *)
Definition or_else (s d : string) : string :=
  match s with EmptyString => d | _ => s end.

(** [String.prototype.toLowerCase]. Letters A-Z are mapped to a-z. Bytes
    of multi-byte characters are left alone: no character outside ASCII
    lower-cases to an ASCII letter other than k (U+212A), so equality of
    the result with an ASCII word without k is decided on ASCII alone. *)
Definition lower_ascii (c : ascii) : ascii :=
  if ((65 <=? code c) && (code c <=? 90))%N
  then ascii_of_N (code c + 32) else c.

Fixpoint toLowerCase (s : string) : string :=
  match s with
  | EmptyString => EmptyString
  | String c r => String (lower_ascii c) (toLowerCase r)
  end.

(** White space and line terminators of ECMAScript, in UTF-8:
    one byte (TAB, LF, VT, FF, CR, SP), two bytes (U+00A0), three bytes
    (U+1680, U+2000..U+200A, U+2028, U+2029, U+202F, U+205F, U+3000,
    U+FEFF). *)
Definition ws1 (a : N) : bool :=
  ((9 <=? a) && (a <=? 13) || (a =? 32))%N.

Definition ws2 (a b : N) : bool := ((a =? 194) && (b =? 160))%N.

Definition ws3 (a b c : N) : bool :=
  ((a =? 225) && (b =? 154) && (c =? 128)
   || (a =? 226) && (b =? 128)
      && ((128 <=? c) && (c <=? 138) || (c =? 168) || (c =? 169) || (c =? 175))
   || (a =? 226) && (b =? 129) && (c =? 159)
   || (a =? 227) && (b =? 128) && (c =? 128)
   || (a =? 239) && (b =? 187) && (c =? 191))%N.

(** Drop leading white space; [fwd] tells in which direction the bytes
    of a character are met (the text is scanned reversed for the end). *)
Fixpoint drop_ws (fwd : bool) (s : string) : string :=
  match s with
  | EmptyString => s
  | String c1 r1 =>
    if ws1 (code c1) then drop_ws fwd r1 else
    match r1 with
    | EmptyString => s
    | String c2 r2 =>
      if (if fwd then ws2 (code c1) (code c2) else ws2 (code c2) (code c1))
      then drop_ws fwd r2 else
      match r2 with
      | EmptyString => s
      | String c3 r3 =>
        if (if fwd then ws3 (code c1) (code c2) (code c3)
            else ws3 (code c3) (code c2) (code c1))
        then drop_ws fwd r3 else s
      end
    end
  end.

Definition rev (s : string) : string :=
  string_of_list_ascii (List.rev (list_ascii_of_string s)).

(** [String.prototype.trim]. *)
Definition trim (s : string) : string :=
  rev (drop_ws false (rev (drop_ws true s))).

(** Does the text contain a line terminator (LF, CR, U+2028, U+2029)?
    These are the characters that [.] of a regular expression without the
    [s] flag refuses. *)
Fixpoint has_line_terminator (s : string) : bool :=
  match s with
  | EmptyString => false
  | String c1 r1 =>
    if ((code c1 =? 10) || (code c1 =? 13))%N then true else
    match r1 with
    | String c2 (String c3 _) =>
      if ((code c1 =? 226) && (code c2 =? 128)
          && ((code c3 =? 168) || (code c3 =? 169)))%N
      then true else has_line_terminator r1
    | _ => has_line_terminator r1
    end
  end.

(** [s] without its last character when that character is [c]. *)
Fixpoint strip_last (c : ascii) (s : string) : option string :=
  match s with
  | EmptyString => None
  | String a EmptyString => if Ascii.eqb a c then Some EmptyString else None
  | String a r => String a <$> strip_last c r
  end.

(** [s.replace(/-/g, "")]. *)
Fixpoint remove_hyphens (s : string) : string :=
  match s with
  | EmptyString => EmptyString
  | String c r =>
    if Ascii.eqb c hyphen then remove_hyphens r else String c (remove_hyphens r)
  end.

(** [xs.includes(x)] on an array of strings. *)
Definition includes (xs : list string) (x : string) : bool :=
  existsb (String.eqb x) xs.

(** The UTF-16 code units of a text, each as the text that the unit is on
    its own: what indexing a primitive text counts and returns. A character
    of one, two or three bytes is one unit; a character of four bytes is
    two units, a surrogate pair, each half written as the three bytes of
    its generalized encoding. *)
Definition surrogate (u : N) : string :=
  String (ascii_of_N (224 + u / 4096))
    (String (ascii_of_N (128 + (u / 64) mod 64))
       (String (ascii_of_N (128 + u mod 64)) EmptyString)).

Definition surrogates (a b c d : N) : list string :=
  let cp := ((a mod 8) * 262144 + (b mod 64) * 4096 + (c mod 64) * 64
             + d mod 64)%N in
  let v := (cp - 65536)%N in
  [surrogate (55296 + v / 1024); surrogate (56320 + v mod 1024)].

Fixpoint units (s : string) : list string :=
  match s with
  | EmptyString => []
  | String c1 r1 =>
    if (code c1 <? 192)%N then String c1 EmptyString :: units r1 else
    match r1 with
    | EmptyString => [s]
    | String c2 r2 =>
      if (code c1 <? 224)%N
      then String c1 (String c2 EmptyString) :: units r2 else
      match r2 with
      | EmptyString => [s]
      | String c3 r3 =>
        if (code c1 <? 240)%N
        then String c1 (String c2 (String c3 EmptyString)) :: units r3 else
        match r3 with
        | EmptyString => [s]
        | String c4 r4 =>
          (surrogates (code c1) (code c2) (code c3) (code c4) ++ units r4)%list
        end
      end
    end
  end.

(** The text wrapped in quote characters, as the template literal of the
    mapper writes the freshness marker. *)
Definition quoted (s : string) : string :=
  String dquote (s ++ String dquote EmptyString).

End JsString.

Import JsString.

(** ** Data model (types/events.types.ts) *)

Record UmbracoEvent := mkUmbracoEvent {
  u_id : string;
  u_eventId : string;
  u_lastUpdatedDate : string;
  u_name : string
}.

Record SocialMedia := mkSocialMedia {
  facebook : option string;
  linkedIn : option string;
  instagram : option string;
  youtube : option string;
  tiktok : option string
}.

Record CrmEvent := mkCrmEvent {
  title : string;
  featuredImage : string;
  pageContent : string;
  imagesCarousel : string;
  startDate : string;
  endDate : string;
  location : option string;
  eventAudiences : option string;
  eventSectors : list string;
  eventId : Z;
  eventType : string;
  eventVenues : option (list string);
  eventOrganiser : string;
  websiteURL : option string;
  dWTCEvent : bool;
  eventLogo : option string;
  socialMedia : option SocialMedia;
  lastUpdatedDate : string;
  WebsiteStatus : string
}.

#[global] Instance UmbracoEvent_eq_dec : EqDecision UmbracoEvent.
Proof. solve_decision. Defined.

#[global] Instance SocialMedia_eq_dec : EqDecision SocialMedia.
Proof. solve_decision. Defined.

#[global] Instance CrmEvent_eq_dec : EqDecision CrmEvent.
Proof. solve_decision. Defined.

(** [crmEvent.eventId.toString()]: the decimal numeral of the integer,
    which is the text of a number that holds an integer of magnitude below
    2^53; a number that holds a larger integer has another text (the
    shortest digits that give the number back, or exponent form), and the
    statements about the text of an identity are made for identities below
    that bound or do not depend on the text. *)
Definition Number_toString (n : Z) : string := pretty n.

(** Remove surrounding quotes from a date string if present. The source
    replaces the match of an anchored pattern (start of text, a quote, a
    greedy run of any characters but line terminators as group 1, a quote,
    end of text) by group 1; the pattern matches the whole text or nothing. *)
Definition normalizeDateString (dateString : string) : string :=
  match dateString with
  | String c rest =>
    if Ascii.eqb c dquote then
      match strip_last dquote rest with
      | Some inner => if has_line_terminator inner then dateString else inner
      | None => dateString
      end
    else dateString
  | EmptyString => dateString
  end.

(** ** Venue filter *)

Definition venue_pred (venue : string) (event : CrmEvent) : bool :=
  match eventVenues event with
  | Some venues =>
    includes venues venue
    && String.eqb (toLowerCase (WebsiteStatus event)) "online"
  | None => false
  end.

Definition filterEventsByVenue (events : list CrmEvent) (venue : string)
  : list CrmEvent :=
  List.filter (venue_pred venue) events.

(** ** Reconciler *)

Record SyncResult := mkSyncResult {
  toUpdate : list (UmbracoEvent * CrmEvent);
  toCreate : list CrmEvent
}.

(** [umbracoEvents.forEach(event => umbracoMap.set(event.eventId, event))] *)
Definition build_umbracoMap (umbracoEvents : list UmbracoEvent)
  : gmap string UmbracoEvent :=
  foldl (fun m event => <[u_eventId event := event]> m) ∅ umbracoEvents.

(** The body of the loop over the CRM events. *)
Definition compare_step (umbracoMap : gmap string UmbracoEvent)
    (acc : SyncResult) (crmEvent : CrmEvent) : SyncResult :=
  let crmEventId := Number_toString (eventId crmEvent) in
  match umbracoMap !! crmEventId with
  | Some umbracoEvent =>
    let normalizedCrmDate := normalizeDateString (lastUpdatedDate crmEvent) in
    let normalizedUmbracoDate :=
      normalizeDateString (u_lastUpdatedDate umbracoEvent) in
    if negb (String.eqb normalizedCrmDate normalizedUmbracoDate)
    then mkSyncResult (toUpdate acc ++ [(umbracoEvent, crmEvent)])%list
                      (toCreate acc)
    else acc
  | None => mkSyncResult (toUpdate acc) (toCreate acc ++ [crmEvent])%list
  end.

Definition compareEvents (crmEvents : list CrmEvent)
    (umbracoEvents : list UmbracoEvent) : SyncResult :=
  foldl (compare_step (build_umbracoMap umbracoEvents))
        (mkSyncResult [] []) crmEvents.

(** ** JSON trees

    The values the mapper builds from literals, and the serialised form of
    the documents it reads. Object fields are kept in property order. *)

Unset Elimination Schemes.
Inductive json :=
| JNull
| JBool (b : bool)
| JNum (n : Z)
| JStr (s : string)
| JArr (items : list json)
| JObj (fields : list (string * json)).
Set Elimination Schemes.

Module Json.

(** First field named [k] of an association list. *)
Fixpoint assoc {A} (k : string) (fields : list (string * A)) : option A :=
  match fields with
  | [] => None
  | (k', v) :: rest => if String.eqb k k' then Some v else assoc k rest
  end.

Definition field (k : string) (t : json) : option json :=
  match t with JObj fields => assoc k fields | _ => None end.

Definition items_of (t : json) : list json :=
  match t with JArr items => items | _ => [] end.

Definition of_strings (xs : list string) : json := JArr (JStr <$> xs).

(** The link object that every outbound link of a document is. *)
Definition link (icon : string) (name nodeName target udi : json)
    (url : string) : json :=
  JObj [("icon", JStr icon); ("name", name); ("nodeName", nodeName);
        ("published", JBool true); ("queryString", JNull);
        ("target", target); ("trashed", JBool false); ("udi", udi);
        ("url", JStr url)].

(** A rich-text value: markup with an empty nested block list. *)
Definition rich_text (markup : string) : json :=
  JObj [("markup", JStr markup);
        ("blocks", JObj [("layout", JNull); ("contentData", JArr []);
                         ("settingsData", JArr [])])].

(** A two-locale field with the same text in both locales. *)
Definition localized (s : string) : json :=
  JObj [("en-US", JStr s); ("ar", JStr s)].

Definition invariant (t : json) : json := JObj [("$invariant", t)].

End Json.

Import Json.

(** ** The random source

    [Math.random()] returns a fraction that is at least zero and less than
    one: here [numer / (numer + excess)] with a positive [excess], which
    is every such fraction and no other. A source is the sequence of the
    outcomes of its calls together with the number of calls made so far. *)

Record unit_interval := mkUnitInterval {
  numer : N;
  excess : positive
}.

Record Rng := mkRng {
  outcomes : nat -> unit_interval;
  drawn : nat
}.

(** Code that draws random numbers: a state monad over the source. *)
Definition Rand (A : Type) : Type := Rng -> A * Rng.

Definition rret {A} (a : A) : Rand A := fun g => (a, g).

Definition rbind {A B} (m : Rand A) (k : A -> Rand B) : Rand B :=
  fun g => let '(a, g') := m g in k a g'.

Notation "'draw' x := m 'in' k" := (rbind m (fun x => k))
  (at level 10, x name, m at level 200, k at level 200).

Definition Math_random : Rand unit_interval :=
  fun g => (outcomes g (drawn g), mkRng (outcomes g) (S (drawn g))).

(** [(u * 16) | 0]: the product truncated to an integer. *)
Definition times16_trunc (u : unit_interval) : Z :=
  Z.of_N (16 * numer u / (numer u + N.pos (excess u))).

(** [xs.forEach] with a body that draws: a left-to-right monadic fold. *)
Fixpoint rfold {A B} (f : B -> A -> Rand B) (xs : list A) (acc : B) : Rand B :=
  match xs with
  | [] => rret acc
  | x :: rest => draw acc' := f acc x in rfold f rest acc'
  end.

(** ** Identifier generation *)

Definition hex_digit (d : N) : ascii :=
  nth (N.to_nat d) (list_ascii_of_string "0123456789abcdef") "0"%char.

Fixpoint hex_digits (fuel : nat) (n : N) (acc : string) : string :=
  match fuel with
  | O => acc
  | S fuel' =>
    let acc' := String (hex_digit (n mod 16)) acc in
    if (n / 16 =? 0)%N then acc' else hex_digits fuel' (n / 16) acc'
  end.

(** [v.toString(16)] *)
Definition Number_toString16 (v : Z) : string :=
  let digits n := hex_digits (S (N.to_nat (N.log2 n))) n EmptyString in
  if (v <? 0)%Z then String hyphen (digits (Z.to_N (- v))) else digits (Z.to_N v).

(** The replacement callback of [generateGuid], for the template character
    [c] (an x or a y). *)
Definition guid_digit (c : ascii) : Rand string :=
  draw u := Math_random in
  let r := times16_trunc u in
  let v := if Ascii.eqb c "x"%char then r else Z.lor (Z.land r 3) 8 in
  rret (Number_toString16 v).

(** [template.replace(/[xy]/g, callback)] *)
Fixpoint replace_xy (template : string) : Rand string :=
  match template with
  | EmptyString => rret EmptyString
  | String c rest =>
    if Ascii.eqb c "x"%char || Ascii.eqb c "y"%char then
      draw d := guid_digit c in
      draw s := replace_xy rest in
      rret (d ++ s)
    else
      draw s := replace_xy rest in
      rret (String c s)
  end.

Definition guid_template : string := "xxxxxxxx-xxxx-4xxx-yxxx-xxxxxxxxxxxx".

Definition generateGuid : Rand string := replace_xy guid_template.

(** The URI form of an identifier. *)
Definition element_udi (guidWithoutHyphens : string) : string :=
  "umb://element/" ++ guidWithoutHyphens.

(** ** Social-networks block list *)

(** A present, non-empty text: what JavaScript takes as true. *)
Definition truthy_text (o : option string) : option string :=
  match o with
  | Some (String c r) => Some (String c r)
  | _ => None
  end.

Record Network := mkNetwork {
  net_key : string;
  net_name : string;
  net_url : option string
}.

(** The fixed channel list, each with [socialMedia?.channel]. *)
Definition socialNetworks_of (socialMedia : option SocialMedia) : list Network :=
  [ mkNetwork "facebook" "Facebook" (socialMedia ≫= facebook);
    mkNetwork "linkedIn" "LinkedIn" (socialMedia ≫= linkedIn);
    mkNetwork "instagram" "Instagram" (socialMedia ≫= instagram);
    mkNetwork "youtube" "Youtube" (socialMedia ≫= youtube);
    mkNetwork "tiktok" "TikTok" (socialMedia ≫= tiktok) ].

(** [network.url && network.url.trim() !== ""] *)
Definition has_link (network : Network) : option string :=
  match truthy_text (net_url network) with
  | Some url => if String.eqb (trim url) "" then None else Some url
  | None => None
  end.

Definition layout_entry (udi : string) : json :=
  JObj [("contentUdi", JStr udi)].

Definition social_block (udi name url : string) : json :=
  JObj [("contentTypeKey", JStr "93f63d80-3828-4be7-9043-143bd100ca14");
        ("udi", JStr udi);
        ("socialNetwork", JArr [JStr name]);
        ("link", JArr [link "icon-link" JNull JNull (JStr "_blank") JNull url])].

(** The body of the loop over the channels; the accumulator is the pair of
    the [layout] and [contentData] arrays. *)
Definition social_step (acc : list json * list json) (network : Network)
  : Rand (list json * list json) :=
  match has_link network with
  | Some url =>
    draw guid := generateGuid in
    let guidWithoutHyphens := remove_hyphens guid in
    let udi := element_udi guidWithoutHyphens in
    rret ((fst acc ++ [layout_entry udi])%list,
          (snd acc ++ [social_block udi (net_name network) url])%list)
  | None => rret acc
  end.

Definition block_list (layout contentData : list json) : json :=
  JObj [("layout", JObj [("Umbraco.BlockList", JArr layout)]);
        ("contentData", JArr contentData);
        ("settingsData", JArr [])].

Definition buildSocialNetworksBlockList (socialMedia : option SocialMedia)
  : Rand json :=
  draw acc := rfold social_step (socialNetworks_of socialMedia) ([], []) in
  rret (block_list (fst acc) (snd acc)).

(** ** Page blocks, create path *)

Definition hero_image_block (udi : string) : json :=
  JObj [("contentTypeKey", JStr "fd8b22e5-6560-40ea-8f24-4da5ca390b91");
        ("udi", JStr udi);
        ("image", JArr [])].

(** The organiser-website link of an Event-Description block; [target] is
    [null] in English and [_blank] in Arabic. *)
Definition organiser_link (target : json) (url : string) : json :=
  JArr [link "icon-link" JNull JNull target JNull url].

Definition description_of (crmEvent : CrmEvent) : json :=
  rich_text ("<p>" ++ or_else (pageContent crmEvent) "" ++ "</p>").

(** The spread [...(crmEvent.websiteURL && { organiserWebsite: ... })]. *)
Definition organiser_website_field (target : json) (crmEvent : CrmEvent)
  : list (string * json) :=
  match truthy_text (websiteURL crmEvent) with
  | Some url => [("organiserWebsite", organiser_link target url)]
  | None => []
  end.

Definition event_description_block (udi : string) (target : json)
    (crmEvent : CrmEvent) (socialNetworks : json) : json :=
  JObj ([("contentTypeKey", JStr "163c1761-234c-41f4-92e5-9d3d26186b79");
         ("udi", JStr udi);
         ("description", description_of crmEvent);
         ("organiserLogo", JArr []);
         ("organiserName", JStr (or_else (eventOrganiser crmEvent) ""))]
        ++ organiser_website_field target crmEvent
        ++ [("socialNetworks", socialNetworks)])%list.

Definition image_gallery_block (udi : string) : json :=
  JObj [("contentTypeKey", JStr "a56add81-856e-4004-8e61-30cc04962297");
        ("udi", JStr udi);
        ("images", JArr [])].

Definition media_item (key mediaKey : string) : json :=
  JObj [("key", JStr key); ("mediaKey", JStr mediaKey);
        ("crops", JArr []); ("focalPoint", JNull)].

(** The static card block (Getting Here, Destination Dubai). *)
Definition card_block (udi title subtitle description : string)
    (linkName linkNodeName linkUdi linkUrl : string)
    (imageKey imageMediaKey leftImage : string) : json :=
  JObj [("contentTypeKey", JStr "c12716ad-f907-4621-b2e4-1b242d63974e");
        ("udi", JStr udi);
        ("logo", JArr []);
        ("title", JStr title);
        ("subtitle", rich_text subtitle);
        ("description", rich_text description);
        ("link", JArr [link "icon-article color-deep-purple" (JStr linkName)
                            (JStr linkNodeName) JNull (JStr linkUdi) linkUrl]);
        ("image", JArr [media_item imageKey imageMediaKey]);
        ("video", JStr "");
        ("leftImage", JStr leftImage);
        ("locationTitle", JStr "");
        ("locationItems", JStr "")].

(** The static list block (Destination Dubai). *)
Definition list_block (udi title subtitle : string) (items : json) : json :=
  JObj [("contentTypeKey", JStr "f4965fd3-b550-41c3-997e-1fd7059fe015");
        ("udi", JStr udi);
        ("title", JStr title);
        ("subtitle", JStr subtitle);
        ("description", JStr "");
        ("displayNotch", JStr "0");
        ("items", items)].

(** [generateGuid().replace(/-/g, "")] *)
Definition fresh_guid : Rand string :=
  draw guid := generateGuid in rret (remove_hyphens guid).

(** Build page blocks structure for both English and Arabic: the first two
    blocks contain event-specific data, the remaining blocks are static. *)
Definition englishBlocks (crmEvent : CrmEvent) (socialNetworks : json)
    (enHeroImageGuid enEventDescGuid enGettingHereGuid
     enDestinationDubaiListGuid enDestinationDubaiCardGuid : string) : json :=
  block_list
    [ layout_entry (element_udi enHeroImageGuid);
      layout_entry (element_udi enEventDescGuid);
      layout_entry (element_udi enGettingHereGuid);
      layout_entry (element_udi enDestinationDubaiListGuid);
      layout_entry (element_udi enDestinationDubaiCardGuid) ]
    [ hero_image_block (element_udi enHeroImageGuid);
      event_description_block (element_udi enEventDescGuid) JNull
        crmEvent socialNetworks;
      card_block (element_udi enGettingHereGuid) "Getting Here"
        "<p>Fastest, easiest route to the venue</p>"
        "<p>Benefiting from Dubai South's world-class infrastructure, getting to Dubai Exhibition Centre is easy.</p>"
        "Plan your visit" "Getting Here"
        "umb://document/e079f2d2051b43259dbebe3c82bef8cf" "/dec/getting-here/"
        "d092581b-7712-4dd5-8bb0-ecf82ec05332"
        "c4651b2c-4ca5-4c99-9dbb-816542f6d793" "1";
      list_block (element_udi enDestinationDubaiListGuid) "Destination Dubai"
        "Explore what's happening around Dubai this month" (JStr "");
      card_block (element_udi enDestinationDubaiCardGuid) "Destination Dubai"
        "<p>Make the most of your time in Dubai<br><br></p>"
        "<p>Experience the best of Dubai, with top attractions, world-class dining, shopping, and entertainment within reach of Dubai Exhibition Centre.</p>"
        "Find out more" "Destination Dubai"
        "umb://document/58a786fbf4ec4f9397dca699d4c74f01"
        "/dec/destination-dubai/"
        "1d345bd4-ee7f-4a79-b3d0-1246a37e39dc"
        "aa57deab-5ea6-4a7e-a6ea-1afbc034cd2d" "0" ].

Definition arabicBlocks (crmEvent : CrmEvent) (socialNetworks : json)
    (arHeroImageGuid arEventDescGuid arImageGalleryGuid arGettingHereGuid
     arDestinationDubaiListGuid arDestinationDubaiCardGuid : string) : json :=
  block_list
    [ layout_entry (element_udi arHeroImageGuid);
      layout_entry (element_udi arEventDescGuid);
      layout_entry (element_udi arImageGalleryGuid);
      layout_entry (element_udi arGettingHereGuid);
      layout_entry (element_udi arDestinationDubaiListGuid);
      layout_entry (element_udi arDestinationDubaiCardGuid) ]
    [ hero_image_block (element_udi arHeroImageGuid);
      event_description_block (element_udi arEventDescGuid) (JStr "_blank")
        crmEvent socialNetworks;
      image_gallery_block (element_udi arImageGalleryGuid);
      card_block (element_udi arGettingHereGuid) "كيفية الوصول"
        ("<p class=" ++ quoted "p1" ++ ">أسهل وأسرع الطرق للوصول إلى المركز</p>")
        "<p>يمكن الوصول إلى مركز دبي للمعارض بمنتهى السهولة وذلك بفضل البنية التحتية المتطورة في دبي الجنوب.</p>"
        "خططوا لزيارتكم" "Getting Here"
        "umb://document/e079f2d2051b43259dbebe3c82bef8cf" "/dec/getting-here/"
        "a04adc53-cc3f-4924-b8b7-31174b403b46"
        "810c9d1c-cbaa-4e23-aa2c-e04d3c081a2f" "1";
      list_block (element_udi arDestinationDubaiListGuid) "معالم دبي"
        "تعرفوا على أبرز الفعاليات في دبي" (block_list [] []);
      card_block (element_udi arDestinationDubaiCardGuid) "معالم دبي"
        "<p>استمتعوا بكل لحظة من تجربة إقامتكم في دبي</p>"
        "<p>توفر دبي لضيوفها أرقى التجارب والفعاليات، وتحتضن مجموعة من أبرز المعالم السياحية ووجهات تناول الطعام العالمية ومراكز التسوق والترفيه، جميعها على مقربة من مركز دبي للمعارض.</p>"
        "استكشفوا المزيد" "Destination Dubai"
        "umb://document/58a786fbf4ec4f9397dca699d4c74f01"
        "/dec/destination-dubai/"
        "1d345bd4-ee7f-4a79-b3d0-1246a37e39dc"
        "aa57deab-5ea6-4a7e-a6ea-1afbc034cd2d" "0" ].

Definition buildPageBlocks (crmEvent : CrmEvent) : Rand json :=
  draw enHeroImageGuid := fresh_guid in
  draw enEventDescGuid := fresh_guid in
  draw enGettingHereGuid := fresh_guid in
  draw enDestinationDubaiListGuid := fresh_guid in
  draw enDestinationDubaiCardGuid := fresh_guid in
  draw arHeroImageGuid := fresh_guid in
  draw arEventDescGuid := fresh_guid in
  draw arImageGalleryGuid := fresh_guid in
  draw arGettingHereGuid := fresh_guid in
  draw arDestinationDubaiListGuid := fresh_guid in
  draw arDestinationDubaiCardGuid := fresh_guid in
  draw socialNetworks := buildSocialNetworksBlockList (socialMedia crmEvent) in
  rret (JObj
    [ ("en-US", englishBlocks crmEvent socialNetworks enHeroImageGuid
                  enEventDescGuid enGettingHereGuid
                  enDestinationDubaiListGuid enDestinationDubaiCardGuid);
      ("ar", arabicBlocks crmEvent socialNetworks arHeroImageGuid
               arEventDescGuid arImageGalleryGuid arGettingHereGuid
               arDestinationDubaiListGuid arDestinationDubaiCardGuid) ]).

(** ** Document mapper, create path *)

(** [x ? [x] : []] on a possibly missing text. *)
Definition singleton_or_empty (o : option string) : json :=
  match truthy_text o with
  | Some x => JArr [JStr x]
  | None => JArr []
  end.

(** [x || null] on a possibly missing text. *)
Definition text_or_null (o : option string) : json :=
  match truthy_text o with
  | Some x => JStr x
  | None => JNull
  end.

(** [xs || []] on a possibly missing array. *)
Definition strings_or_empty (o : option (list string)) : json :=
  of_strings (default [] o).

(** The organiser-website field of the document (not of a block): the link
    carries the URL as its name. *)
Definition document_website_field (crmEvent : CrmEvent) : list (string * json) :=
  match truthy_text (websiteURL crmEvent) with
  | Some url =>
    [("organiserWebsite",
      invariant (JArr [link "icon-link" (JStr url) JNull JNull JNull url]))]
  | None => []
  end.

(** The fields that create and update payloads share, from [date] to
    [industry], in the order of the object literal. *)
Definition invariant_fields (crmEvent : CrmEvent) (organiserSocialNetworks : json)
  : list (string * json) :=
  ([("date", invariant (JStr (startDate crmEvent)));
    ("category", invariant (singleton_or_empty (Some (eventType crmEvent))));
    ("endDate", invariant (JStr (endDate crmEvent)));
    ("organiserName", invariant (JStr (or_else (eventOrganiser crmEvent) "")))]
   ++ document_website_field crmEvent
   ++ [("organiserSocialNetworks", invariant organiserSocialNetworks);
       ("eventId", invariant (JStr (Number_toString (eventId crmEvent))));
       ("lastUpdatedDate", invariant (JStr (quoted (lastUpdatedDate crmEvent))));
       ("location", invariant (text_or_null (location crmEvent)));
       ("eventVenue", invariant (strings_or_empty (eventVenues crmEvent)));
       ("newEventVenue", invariant (JArr []));
       ("audience", invariant (singleton_or_empty (eventAudiences crmEvent)));
       ("industry", invariant (of_strings (eventSectors crmEvent)))])%list.

Definition localized_fields (crmEvent : CrmEvent) : list (string * json) :=
  [("title", localized (title crmEvent));
   ("description", localized (or_else (pageContent crmEvent) ""));
   ("metadataTitle", localized (title crmEvent));
   ("metadataDescription", localized (or_else (pageContent crmEvent) ""));
   ("metadataKeywords", localized "")].

(** The object literal [baseData] of [mapCrmEventToUmbraco]. *)
Definition baseData (crmEvent : CrmEvent) : Rand (list (string * json)) :=
  draw organiserSocialNetworks :=
    buildSocialNetworksBlockList (socialMedia crmEvent) in
  draw pageBlocks := buildPageBlocks crmEvent in
  rret ([("name", localized (title crmEvent));
         ("contentTypeAlias", JStr "decEvent")]
        ++ localized_fields crmEvent
        ++ invariant_fields crmEvent organiserSocialNetworks
        ++ [("pageBlocks", pageBlocks)])%list.

(** Map CRM event to Umbraco format for CREATE operations. [parentId] is
    the optional second argument. *)
Definition mapCrmEventToUmbraco (crmEvent : CrmEvent) (parentId : option string)
  : Rand json :=
  draw base := baseData crmEvent in
  match truthy_text parentId with
  | Some parentId => rret (JObj (base ++ [("parentId", JStr parentId)])%list)
  | None => rret (JObj base)
  end.

(** ** The object heap (update path)

    The update path clones the prior document and assigns to properties of
    the clone, so objects have identity here: a value is a primitive or a
    reference into a heap of objects. Arrays carry their elements and, as
    any JavaScript object, named properties of their own. *)

Definition loc := nat.

Inductive value :=
| VUndefined
| VNull
| VBool (b : bool)
| VNum (n : Z)
| VStr (s : string)
| VRef (l : loc).

Inductive object :=
| Obj (props : list (string * value))
| Arr (elems : list value) (props : list (string * value)).

Abbreviation heap := (list object).

Inductive error := TypeError | SyntaxError.

Record World := mkWorld {
  objects : heap;
  rng : Rng
}.

Inductive outcome (A : Type) :=
| Return (a : A) (w : World)
| Throw (e : error) (w : World).
Arguments Return {A} a w.
Arguments Throw {A} e w.

(** Code that allocates, assigns, draws random numbers and may throw. *)
Definition Eff (A : Type) : Type := World -> outcome A.

Definition ret {A} (a : A) : Eff A := fun w => Return a w.

Definition throw {A} (e : error) : Eff A := fun w => Throw e w.

Definition bind {A B} (m : Eff A) (k : A -> Eff B) : Eff B :=
  fun w => match m w with
           | Return a w' => k a w'
           | Throw e w' => Throw e w'
           end.

Notation "'perform' x := m 'in' k" := (bind m (fun x => k))
  (at level 10, x name, m at level 200, k at level 200).

Notation "'run' m 'then' k" := (bind m (fun _ => k))
  (at level 10, m at level 200, k at level 200).

Definition lift_rand {A} (m : Rand A) : Eff A :=
  fun w => let '(a, g) := m (rng w) in Return a (mkWorld (objects w) g).

Definition new_object (o : object) : Eff value :=
  fun w => Return (VRef (length (objects w)))
                  (mkWorld (objects w ++ [o])%list (rng w)).

Definition truthy (v : value) : bool :=
  match v with
  | VUndefined | VNull => false
  | VBool b => b
  | VNum n => negb (n =? 0)%Z
  | VStr s => negb (String.eqb s "")
  | VRef _ => true
  end.

(** Replace the first property named [k], or add it after the others. *)
Fixpoint assoc_set {A} (k : string) (x : A) (props : list (string * A))
  : list (string * A) :=
  match props with
  | [] => [(k, x)]
  | (k', y) :: rest =>
    if String.eqb k k' then (k, x) :: rest else (k', y) :: assoc_set k x rest
  end.

Fixpoint assoc_delete {A} (k : string) (props : list (string * A))
  : list (string * A) :=
  match props with
  | [] => []
  | (k', y) :: rest =>
    if String.eqb k k' then rest else (k', y) :: assoc_delete k rest
  end.

(** Property read [v.k] for a key that no built-in prototype defines. *)
Definition get (v : value) (k : string) : Eff value :=
  fun w =>
  match v with
  | VUndefined | VNull => Throw TypeError w
  | VBool _ | VNum _ | VStr _ => Return VUndefined w
  | VRef l =>
    match objects w !! l with
    | Some (Obj props) | Some (Arr _ props) =>
      Return (default VUndefined (assoc k props)) w
    | None => Throw TypeError w
    end
  end.

(** Indexed read [v[i]]. On a primitive text the index counts UTF-16 code
    units. *)
Definition get_index (v : value) (i : nat) : Eff value :=
  fun w =>
  match v with
  | VUndefined | VNull => Throw TypeError w
  | VBool _ | VNum _ => Return VUndefined w
  | VStr s =>
    Return (match units s !! i with
            | Some unit => VStr unit
            | None => VUndefined
            end) w
  | VRef l =>
    match objects w !! l with
    | Some (Obj props) => Return (default VUndefined (assoc (pretty i) props)) w
    | Some (Arr elems _) => Return (default VUndefined (elems !! i)) w
    | None => Throw TypeError w
    end
  end.

(** Assignment [v.k = x] in strict mode (the source is a module): assigning
    to a property of a primitive throws. *)
Definition set (v : value) (k : string) (x : value) : Eff unit :=
  fun w =>
  match v with
  | VRef l =>
    match objects w !! l with
    | Some (Obj props) =>
      Return tt (mkWorld (<[l := Obj (assoc_set k x props)]> (objects w)) (rng w))
    | Some (Arr elems props) =>
      Return tt (mkWorld (<[l := Arr elems (assoc_set k x props)]> (objects w))
                         (rng w))
    | None => Throw TypeError w
    end
  | _ => Throw TypeError w
  end.

(** [delete v.k] *)
Definition delete_prop (v : value) (k : string) : Eff unit :=
  fun w =>
  match v with
  | VUndefined | VNull => Throw TypeError w
  | VBool _ | VNum _ | VStr _ => Return tt w
  | VRef l =>
    match objects w !! l with
    | Some (Obj props) =>
      Return tt (mkWorld (<[l := Obj (assoc_delete k props)]> (objects w)) (rng w))
    | Some (Arr elems props) =>
      Return tt (mkWorld (<[l := Arr elems (assoc_delete k props)]> (objects w))
                         (rng w))
    | None => Throw TypeError w
    end
  end.

(** Run [f] over a list, left to right. *)
Definition eff_map {A B} (f : A -> Eff B) : list A -> Eff (list B) :=
  fix go (xs : list A) : Eff (list B) :=
    match xs with
    | [] => ret []
    | x :: rest =>
      perform y := f x in
      perform ys := go rest in
      ret (y :: ys)
    end.

(** Evaluate an object literal, or the objects that [JSON.parse] creates for
    a text: every array and object of the tree is a new heap object. *)
Fixpoint build (t : json) : Eff value :=
  match t with
  | JNull => ret VNull
  | JBool b => ret (VBool b)
  | JNum n => ret (VNum n)
  | JStr s => ret (VStr s)
  | JArr items =>
    perform elems := eff_map build items in
    new_object (Arr elems [])
  | JObj fields =>
    perform props :=
      eff_map (fun field => perform v := build (snd field) in
                            ret (fst field, v)) fields in
    new_object (Obj props)
  end.

Definition defined (p : string * value) : bool :=
  match snd p with VUndefined => false | _ => true end.

(** The JSON text of a value, as its syntax tree. Arrays write [undefined]
    elements as [null] and ignore named properties; objects skip
    [undefined] properties. [fuel] bounds the nesting depth. *)
Fixpoint serialize (fuel : nat) (h : heap) (v : value) : option json :=
  match fuel with
  | O => None
  | S fuel' =>
    match v with
    | VUndefined | VNull => Some JNull
    | VBool b => Some (JBool b)
    | VNum n => Some (JNum n)
    | VStr s => Some (JStr s)
    | VRef l =>
      match h !! l with
      | Some (Arr elems _) => JArr <$> mapM (serialize fuel' h) elems
      | Some (Obj props) =>
        JObj <$> mapM (fun p => pair (fst p) <$> serialize fuel' h (snd p))
                      (List.filter defined props)
      | None => None
      end
    end
  end.

(** [JSON.stringify(v)]: no text for [undefined]; a [TypeError] on a cyclic
    structure. A chain of distinct objects is no longer than the heap, so a
    walk that outlasts the heap has met a cycle. *)
Definition JSON_stringify (v : value) : Eff (option json) :=
  fun w =>
  match v with
  | VUndefined => Return None w
  | _ =>
    match serialize (S (length (objects w))) (objects w) v with
    | Some text => Return (Some text) w
    | None => Throw TypeError w
    end
  end.

(** [JSON.parse(text)]: [undefined] is read as the text undefined, which is
    no JSON. *)
Definition JSON_parse (text : option json) : Eff value :=
  match text with
  | Some t => build t
  | None => throw SyntaxError
  end.

(** ** Page blocks, update path *)

(** The assignments to the Event-Description block: the body of the
    guard. The source writes it out once per locale, with [target] the
    only difference. *)
Definition overwrite_event_fields (eventDescBlock : value)
    (crmEvent : CrmEvent) (socialNetworks : value) (target : json) : Eff unit :=
  perform description := build (description_of crmEvent) in
  run set eventDescBlock "description" description then
  run set eventDescBlock "organiserName"
          (VStr (or_else (eventOrganiser crmEvent) "")) then
  run match truthy_text (websiteURL crmEvent) with
      | Some url =>
        perform organiserWebsite := build (organiser_link target url) in
        set eventDescBlock "organiserWebsite" organiserWebsite
      | None => delete_prop eventDescBlock "organiserWebsite"
      end then
  set eventDescBlock "socialNetworks" socialNetworks.

(** The update of block 2 (Event Description) of one locale. Property
    reads have no effect, so the repeated reads of [contentData] and of its
    element are made once. *)
Definition update_event_description (updatedBlocks : value)
    (crmEvent : CrmEvent) (socialNetworks : value) (target : json) : Eff unit :=
  perform contentData := get updatedBlocks "contentData" in
  if truthy contentData then
    perform eventDescBlock := get_index contentData 1 in
    if truthy eventDescBlock then
      overwrite_event_fields eventDescBlock crmEvent socialNetworks target
    else ret tt
  else ret tt.

(** Update existing page blocks with new CRM data. *)
Definition updatePageBlocks (existingPageBlocks : value) (crmEvent : CrmEvent)
  : Eff value :=
  perform socialTree := lift_rand (buildSocialNetworksBlockList (socialMedia crmEvent)) in
  perform socialNetworks := build socialTree in
  perform existingEnglish := get existingPageBlocks "en-US" in
  perform englishText := JSON_stringify existingEnglish in
  perform updatedEnglishBlocks := JSON_parse englishText in
  perform existingArabic := get existingPageBlocks "ar" in
  perform arabicText := JSON_stringify existingArabic in
  perform updatedArabicBlocks := JSON_parse arabicText in
  run update_event_description updatedEnglishBlocks crmEvent socialNetworks JNull then
  run update_event_description updatedArabicBlocks crmEvent socialNetworks
        (JStr "_blank") then
  new_object (Obj [("en-US", updatedEnglishBlocks); ("ar", updatedArabicBlocks)]).

(** Map CRM event to Umbraco format for UPDATE operations. *)
Definition mapCrmEventForUpdate (crmEvent : CrmEvent)
    (existingUmbracoEvent : value) : Eff value :=
  perform socialTree := lift_rand (buildSocialNetworksBlockList (socialMedia crmEvent)) in
  perform fields :=
    eff_map (fun field => perform v := build (snd field) in ret (fst field, v))
            (("name", localized (title crmEvent))
             :: localized_fields crmEvent
             ++ invariant_fields crmEvent socialTree)%list in
  perform existingBlocks := get existingUmbracoEvent "pageBlocks" in
  perform pageBlocks :=
    (if truthy existingBlocks
     then updatePageBlocks existingBlocks crmEvent
     else perform fresh := lift_rand (buildPageBlocks crmEvent) in build fresh) in
  new_object (Obj (fields ++ [("pageBlocks", pageBlocks)])%list).

(** ** Notions of the specification *)

(** Strip a single layer of wrapping quote characters: the specification's
    reading of the normalisation of a freshness marker. *)
Definition strip_wrapping_quotes (s : string) : string :=
  match s with
  | String c rest =>
    if Ascii.eqb c dquote then default s (strip_last dquote rest) else s
  | EmptyString => s
  end.

(** The three outcomes of the reconciliation of one CRM event. *)
Inductive Outcome := Synced | ToUpdate | ToCreate.

#[global] Instance Outcome_eq_dec : EqDecision Outcome.
Proof. solve_decision. Defined.

Definition outcome_of (umbracoMap : gmap string UmbracoEvent)
    (crmEvent : CrmEvent) : Outcome :=
  match umbracoMap !! Number_toString (eventId crmEvent) with
  | None => ToCreate
  | Some umbracoEvent =>
    if String.eqb (normalizeDateString (lastUpdatedDate crmEvent))
                  (normalizeDateString (u_lastUpdatedDate umbracoEvent))
    then Synced else ToUpdate
  end.

(** The pair that an event to update is pushed with. *)
Definition update_pair (umbracoMap : gmap string UmbracoEvent)
    (crmEvent : CrmEvent) : option (UmbracoEvent * CrmEvent) :=
  match outcome_of umbracoMap crmEvent with
  | ToUpdate =>
    (fun u => (u, crmEvent)) <$> umbracoMap !! Number_toString (eventId crmEvent)
  | _ => None
  end.

(** The identifiers that the layout of a block list refers to, and those
    of its content entries, each in order. *)
Definition text_field (k : string) (t : json) : option string :=
  match field k t with
  | Some (JStr s) => Some s
  | _ => None
  end.

Definition layout_udis (blocks : json) : list (option string) :=
  text_field "contentUdi"
  <$> items_of (default JNull (field "layout" blocks ≫= field "Umbraco.BlockList")).

Definition content_udis (blocks : json) : list (option string) :=
  text_field "udi" <$> items_of (default JNull (field "contentData" blocks)).

(** Referential closure of a block list: every identifier of the layout
    has exactly one content entry, every identifier of a content entry is
    referred to exactly once, and the two sequences agree place by place. *)
Definition occurrences (id : option string) (ids : list (option string)) : nat :=
  length (filter (fun x => x = id) ids).

Definition referentially_closed (blocks : json) : Prop :=
  (forall id, id ∈ layout_udis blocks -> occurrences id (content_udis blocks) = 1)
  /\ (forall id, id ∈ content_udis blocks -> occurrences id (layout_udis blocks) = 1)
  /\ layout_udis blocks = content_udis blocks.

(** A link that is present and not blank after trimming. *)
Definition nonblank (o : option string) : option string :=
  match o with
  | Some url => if decide (trim url = "") then None else Some url
  | None => None
  end.

(** The five channels in their fixed order, by display name. *)
Definition channels (socialMedia : option SocialMedia)
  : list (string * option string) :=
  [ ("Facebook", socialMedia ≫= facebook);
    ("LinkedIn", socialMedia ≫= linkedIn);
    ("Instagram", socialMedia ≫= instagram);
    ("Youtube", socialMedia ≫= youtube);
    ("TikTok", socialMedia ≫= tiktok) ].

(** The channels that are to be emitted, with their links. *)
Definition emitted (socialMedia : option SocialMedia) : list (string * string) :=
  omap (fun c => pair (fst c) <$> nonblank (snd c)) (channels socialMedia).

(** The content entry of a channel, given as display name and link. *)
Definition social_entry (udi : string) (c : string * string) : json :=
  social_block udi (fst c) (snd c).

(** An identifier in URI form that comes from a generated identifier. *)
Definition generated_udi (udi : string) : Prop :=
  exists g, udi = element_udi (remove_hyphens (fst (generateGuid g))).

(** The block list of a locale of a page-block structure. *)
Definition locale_blocks (locale : string) (pageBlocks : json) : json :=
  default JNull (field locale pageBlocks).

(** ** The merge of the update path, on JSON texts *)

(** The Event-Description block with its CRM-derived fields overwritten:
    the description, the organiser name, the organiser-website link (set,
    or removed when the event has none) and the social-networks list. *)
Definition merge_event_description (crmEvent : CrmEvent)
    (socialNetworks target : json) (block : json) : json :=
  match block with
  | JObj fields =>
    let fields := assoc_set "description" (description_of crmEvent) fields in
    let fields :=
      assoc_set "organiserName" (JStr (or_else (eventOrganiser crmEvent) ""))
                fields in
    let fields :=
      match truthy_text (websiteURL crmEvent) with
      | Some url =>
        assoc_set "organiserWebsite" (organiser_link target url) fields
      | None => assoc_delete "organiserWebsite" fields
      end in
    JObj (assoc_set "socialNetworks" socialNetworks fields)
  | _ => block
  end.

(** The block list of a locale with its second block merged; a block list
    without a second block is left as it is. *)
Definition merge_locale (crmEvent : CrmEvent) (socialNetworks target : json)
    (blocks : json) : json :=
  match blocks with
  | JObj fields =>
    match assoc "contentData" fields with
    | Some (JArr (first :: second :: rest)) =>
      JObj (assoc_set "contentData"
              (JArr (first
                     :: merge_event_description crmEvent socialNetworks target
                                                second
                     :: rest))
              fields)
    | _ => blocks
    end
  | _ => blocks
  end.

(** The prior block lists that the merge is specified for: an object
    whose [contentData] is missing, [null], or an array whose second
    element, if there is one, is an object. *)
Definition mergeable (blocks : json) : Prop :=
  match blocks with
  | JObj fields =>
    match assoc "contentData" fields with
    | None | Some JNull => True
    | Some (JArr (_ :: JObj _ :: _)) => True
    | Some (JArr (_ :: _ :: _)) => False
    | Some (JArr _) => True
    | Some _ => False
    end
  | _ => False
  end.

(** The JSON text of a primitive value. *)
Definition prim_json (v : value) : option json :=
  match v with
  | VNull => Some JNull
  | VBool b => Some (JBool b)
  | VNum z => Some (JNum z)
  | VStr s => Some (JStr s)
  | VUndefined | VRef _ => None
  end.

(** The values [vs] are the texts [ts] laid out in the heap the way
    [build] lays them out: one after the other in the locations from [lo]
    up to [hi], each object right after the objects of its members. *)
Inductive built (h : heap) : nat -> nat -> list value -> list json -> Prop :=
| built_nil lo : built h lo lo [] []
| built_prim lo hi v t vs ts :
    prim_json v = Some t ->
    built h lo hi vs ts ->
    built h lo hi (v :: vs) (t :: ts)
| built_arr lo l hi elems props items vs ts :
    h !! l = Some (Arr elems props) ->
    built h lo l elems items ->
    built h (S l) hi vs ts ->
    built h lo hi (VRef l :: vs) (JArr items :: ts)
| built_obj lo l hi props fields vs ts :
    h !! l = Some (Obj props) ->
    fst <$> props = fst <$> fields ->
    built h lo l (snd <$> props) (snd <$> fields) ->
    built h (S l) hi vs ts ->
    built h lo hi (VRef l :: vs) (JObj fields :: ts).

(** What [build] does for the text [t] in every world: it returns, with
    the created objects appended to the heap and the text laid out in them. *)
Definition builds (t : json) : Prop :=
  forall w, exists v created,
    build t w = Return v (mkWorld (objects w ++ created)%list (rng w))
    /\ built (objects w ++ created)%list (length (objects w))
             (length (objects w) + length created) [v] [t].

(** The values [vs] have the JSON texts [ts], through objects at
    locations in [P] only. *)
Inductive represents (h : heap) (P : loc -> Prop)
  : list value -> list json -> Prop :=
| represents_nil : represents h P [] []
| represents_prim v t vs ts :
    prim_json v = Some t ->
    represents h P vs ts ->
    represents h P (v :: vs) (t :: ts)
| represents_arr l elems props items vs ts :
    P l ->
    h !! l = Some (Arr elems props) ->
    represents h P elems items ->
    represents h P vs ts ->
    represents h P (VRef l :: vs) (JArr items :: ts)
| represents_obj l props fields vs ts :
    P l ->
    h !! l = Some (Obj props) ->
    fst <$> props = fst <$> fields ->
    represents h P (snd <$> props) (snd <$> fields) ->
    represents h P vs ts ->
    represents h P (VRef l :: vs) (JObj fields :: ts).

(** The heaps [hc] that the assignments to the block at [lb] go
    through, started in [h]: the block holds the properties [p], and every
    other object of [h] is as it was. *)
Definition overwriting (h : heap) (lb : loc) (hc : heap)
    (p : list (string * value)) : Prop :=
  length h <= length hc
  /\ hc !! lb = Some (Obj p)
  /\ forall l, l < length h -> l <> lb -> hc !! l = h !! l.

(** The locations that the merged block may go through in the heap [hc]:
    those of its own members ([Pb]), those of the social-networks list
    ([Ps]), and the objects created since the heap was [h]. *)
Definition footprint (h : heap) (Pb Ps : loc -> Prop) (hc : heap) (l : loc)
  : Prop :=
  Pb l \/ Ps l \/ length h <= l < length hc.

(** The block at [lb] holds the properties [p], which have the texts
    [fields]. *)
Definition merging (h : heap) (Pb Ps : loc -> Prop) (lb : loc) (hc : heap)
    (p : list (string * value)) (fields : list (string * json)) : Prop :=
  overwriting h lb hc p
  /\ fst <$> p = fst <$> fields
  /\ represents hc (footprint h Pb Ps hc) (snd <$> p) (snd <$> fields).

(** ** Sample data *)

Module Samples.

Definition LF : string := String "010"%char EmptyString.

(** A CRM event with the given identity, freshness marker, venues and
    publication status. *)
Definition crm_event (id : Z) (marker : string) (venues : list string)
    (status : string) : CrmEvent :=
  mkCrmEvent "Expo" "" "Welcome" "" "2024-03-01" "2024-03-02" None None []
             id "Conference" (Some venues) "DWTC" None false None None
             marker status.

Definition cms_event (id marker : string) : UmbracoEvent :=
  mkUmbracoEvent "node-1" id marker "Expo".

(** A marker that the feed wrapped in quotes, with a line break inside. *)
Definition crm_multiline : CrmEvent :=
  crm_event 7 (quoted ("2024-01-01T10:00:00" ++ LF)) ["A"] "Online".

Definition cms_multiline : UmbracoEvent :=
  cms_event "7" ("2024-01-01T10:00:00" ++ LF).

(** A marker that the feed wrapped in quotes. *)
Definition crm_quoted : CrmEvent :=
  crm_event 7 (quoted "2024-01-01T10:00:00") ["A"] "Online".

(** The CMS event after the mapper wrote [crm_quoted]. *)
Definition cms_after_quoted : UmbracoEvent :=
  cms_event "7" (quoted (quoted "2024-01-01T10:00:00")).

Definition crm_plain : CrmEvent :=
  crm_event 7 "2024-01-01T10:00:00" ["A"] "Online".

Definition cms_after_plain : UmbracoEvent :=
  cms_event "7" (quoted "2024-01-01T10:00:00").

(** The outcome that makes the code draw the hex digit [k]. *)
Definition nibble (k : N) : unit_interval :=
  mkUnitInterval k (N.succ_pos (15 - k)).

(** A source that always returns zero. *)
Definition constant_source : Rng := mkRng (fun _ => nibble 0) 0.

(** A source whose draws are constant along an identifier (31 draws) and
    change from one identifier to the next. *)
Definition counting_source : Rng :=
  mkRng (fun n => nibble (N.of_nat (n / 31) mod 16)) 0.

(** Only facebook and tiktok populated. *)
Definition facebook_and_tiktok : SocialMedia :=
  mkSocialMedia (Some "https://facebook.com/dec") None (Some "  ") (Some "")
                (Some "https://tiktok.com/@dec").

(** A prior page-block structure with an English block list of three
    blocks, the second being the Event-Description block with identifier X,
    and the given value for the Arabic locale. *)
Definition prior_english : json :=
  block_list
    [layout_entry "umb://element/h"; layout_entry "umb://element/X";
     layout_entry "umb://element/s"]
    [hero_image_block "umb://element/h";
     JObj [("contentTypeKey", JStr "163c1761-234c-41f4-92e5-9d3d26186b79");
           ("udi", JStr "umb://element/X");
           ("description", rich_text "<p>old</p>");
           ("organiserLogo", JArr []);
           ("organiserName", JStr "old organiser");
           ("organiserWebsite", organiser_link JNull "https://old.example");
           ("socialNetworks", block_list [] [])];
     image_gallery_block "umb://element/s"].

Definition prior_blocks (arabic : list (string * json)) : json :=
  JObj (("en-US", prior_english) :: arabic).

(** The world in which a prior document has been read, and the document. *)
Definition world_with (t : json) : outcome value :=
  build t (mkWorld [] counting_source).

(** The outcome of the update of a prior page-block structure: the kind
    of outcome, with the JSON text of the result when there is one. *)
Definition update_outcome (t : json) (crmEvent : CrmEvent)
  : option json + error :=
  match world_with t with
  | Return existing w =>
    match updatePageBlocks existing crmEvent w with
    | Return v w' => inl (serialize (S (length (objects w'))) (objects w') v)
    | Throw e _ => inr e
    end
  | Throw e _ => inr e
  end.

End Samples.

(** Two characters that are the same letter up to case. *)
Definition case_variant (a b : ascii) : Prop :=
  a = b
  \/ ((65 <= code a <= 90)%N /\ code b = (code a + 32)%N)
  \/ ((65 <= code b <= 90)%N /\ code a = (code b + 32)%N).

Definition lower_letter (b : ascii) : Prop := (97 <= code b <= 122)%N.

(** Equality of two texts under case-insensitive comparison. *)
Definition equals_ignoring_case (s t : string) : Prop :=
  Forall2 case_variant (list_ascii_of_string s) (list_ascii_of_string t).

#[global] Instance case_variant_dec a b : Decision (case_variant a b).
Proof. unfold case_variant. apply _. Defined.

#[global] Instance equals_ignoring_case_dec s t :
  Decision (equals_ignoring_case s t).
Proof. unfold equals_ignoring_case. apply _. Defined.

(** The venue list of the event contains the venue (exact membership). *)
Definition lists_venue (venue : string) (event : CrmEvent) : Prop :=
  match eventVenues event with
  | Some venues => venue ∈ venues
  | None => False
  end.

#[global] Instance lists_venue_dec venue event : Decision (lists_venue venue event).
Proof. unfold lists_venue. destruct (eventVenues event); apply _. Defined.

(** The events that the venue filter is to return. *)
Definition wanted (venue : string) (event : CrmEvent) : Prop :=
  lists_venue venue event
  /\ equals_ignoring_case (WebsiteStatus event) "online".

#[global] Instance wanted_dec venue event : Decision (wanted venue event).
Proof. unfold wanted. apply _. Defined.

(** The characters of a text. *)
Abbreviation chars := list_ascii_of_string.

Definition is_hex (c : ascii) : Prop := c ∈ chars "0123456789abcdef".

Definition is_variant (c : ascii) : Prop := c ∈ chars "89ab".

(** What the template character [t] admits at its place: a hex digit for an
    x, one of 8, 9, a, b for a y, itself otherwise. *)
Definition fits (t c : ascii) : Prop :=
  if Ascii.eqb t "x"%char then is_hex c
  else if Ascii.eqb t "y"%char then is_variant c
  else c = t.

(** ** Frames of the update path *)

(** A value that is a primitive or refers to an object at or above [n]:
    for [n] the size of the heap before a call, an object that the call
    created. *)
Definition fresh_value (n : nat) (v : value) : Prop :=
  match v with
  | VRef l => n <= l
  | _ => True
  end.

(** A value that is an object created by the call. *)
Definition created_object (n : nat) (v : value) : Prop :=
  exists l, v = VRef l /\ n <= l.

(** An object that refers to created objects only. *)
Definition closed_object (n : nat) (o : object) : Prop :=
  match o with
  | Obj props => Forall (fresh_value n) (snd <$> props)
  | Arr elems props =>
    Forall (fresh_value n) elems /\ Forall (fresh_value n) (snd <$> props)
  end.

(** The heaps that a call started in [h0] can be in: the heap [h0] as it
    was, followed by created objects that refer to created objects only. *)
Definition extends (h0 h : heap) : Prop :=
  exists created, h = (h0 ++ created)%list
                  /\ Forall (closed_object (length h0)) created.

Definition final_world {A} (o : outcome A) : World :=
  match o with
  | Return _ w => w
  | Throw _ w => w
  end.

(** A computation that stays within the heaps of [extends h0], and whose
    result, when it returns, satisfies [Q]. *)
Definition keeps {A} (h0 : heap) (m : Eff A) (Q : A -> Prop) : Prop :=
  forall w, extends h0 (objects w) ->
    match m w with
    | Return a w' => extends h0 (objects w') /\ Q a
    | Throw _ w' => extends h0 (objects w')
    end.

(** What a call that starts in world [w] and ends in outcome [o] leaves
    of the objects that existed before it: they are a prefix of the final
    heap, each of them is found unchanged, every value has the JSON text it
    had, the created objects refer to created objects only, and a returned
    value is a created object. *)
Definition leaves_unchanged (w : World) (o : outcome value) : Prop :=
  let h0 := objects w in
  let w' := final_world o in
  h0 `prefix_of` objects w'
  /\ (forall l x, h0 !! l = Some x -> objects w' !! l = Some x)
  /\ (forall v text,
        JSON_stringify v w = Return (Some text) w ->
        JSON_stringify v w' = Return (Some text) w')
  /\ (forall l x, length h0 <= l -> objects w' !! l = Some x ->
                  closed_object (length h0) x)
  /\ match o with
     | Return v _ => created_object (length h0) v
     | Throw _ _ => True
     end.

(** ** Notions of the further properties *)

(** The source after [k] more draws. *)
Definition advance (k : nat) (g : Rng) : Rng :=
  mkRng (outcomes g) (drawn g + k).

(** The number of characters of a template that the identifier generator
    replaces. *)
Fixpoint placeholders (template : string) : nat :=
  match template with
  | EmptyString => 0
  | String c rest =>
    (if Ascii.eqb c "x"%char || Ascii.eqb c "y"%char then 1 else 0)
    + placeholders rest
  end.

#[global] Instance fits_dec t c : Decision (fits t c).
Proof.
  unfold fits, is_hex, is_variant.
  destruct (Ascii.eqb t "x"%char); [apply _|].
  destruct (Ascii.eqb t "y"%char); apply _.
Defined.

(** The identifier, without hyphens, that is generated from the draws
    [31 * i] to [31 * i + 30] after where the source stands. *)
Definition guid_at (g : Rng) (i : nat) : string :=
  remove_hyphens (fst (generateGuid (advance (31 * i) g))).

(** The content types of the entries of a block list, in order. *)
Definition content_types (blocks : json) : list (option string) :=
  text_field "contentTypeKey"
  <$> items_of (default JNull (field "contentData" blocks)).

(** The entries of a block list. *)
Definition content_entries (blocks : json) : list json :=
  items_of (default JNull (field "contentData" blocks)).

(** The names of the fields of an object, in order. *)
Definition keys (t : json) : list string :=
  match t with
  | JObj fields => fst <$> fields
  | _ => []
  end.

(** The CMS event holds the identity and the freshness marker of the
    payload. *)
Definition stores (u : UmbracoEvent) (payload : json) : Prop :=
  field "eventId" payload ≫= field "$invariant" = Some (JStr (u_eventId u))
  /\ field "lastUpdatedDate" payload ≫= field "$invariant"
     = Some (JStr (u_lastUpdatedDate u)).

(** The CMS event holds what the create mapper wrote for the CRM event,
    under some parent and for some outcomes of the random source. *)
Definition written_for (e : CrmEvent) (u : UmbracoEvent) : Prop :=
  exists parentId g, stores u (fst (mapCrmEventToUmbraco e parentId g)).

(** A freshness marker on one line that is not wrapped in quotes. *)
Definition plain_marker (e : CrmEvent) : Prop :=
  has_line_terminator (lastUpdatedDate e) = false
  /\ normalizeDateString (lastUpdatedDate e) = lastUpdatedDate e.

(** What the update of a locale keeps of the prior block list [old] in the
    block list [new]: every field but [contentData], every block but the
    second, the identifier and the content type of every block, in the
    second block every field but the four that come from the CRM event,
    and all of it when there is no second block. *)
Definition kept (old new : json) : Prop :=
  (forall k, k <> "contentData" -> field k new = field k old)
  /\ delete 1 (content_entries new) = delete 1 (content_entries old)
  /\ content_udis new = content_udis old
  /\ content_types new = content_types old
  /\ (forall k, k <> "description" -> k <> "organiserName" ->
                k <> "organiserWebsite" -> k <> "socialNetworks" ->
                content_entries new !! 1 ≫= field k
                = content_entries old !! 1 ≫= field k)
  /\ (length (content_entries old) < 2 -> new = old).

(** Two block lists that are equal but for the order of the fields of
    their second block. *)
Definition same_blocks (a b : json) : Prop :=
  (forall k, k <> "contentData" -> field k a = field k b)
  /\ delete 1 (content_entries a) = delete 1 (content_entries b)
  /\ (forall k, content_entries a !! 1 ≫= field k
                = content_entries b !! 1 ≫= field k).

(** An object without the field [k]. *)
Definition without_field (k : string) (t : json) : json :=
  match t with
  | JObj fields => JObj (assoc_delete k fields)
  | _ => t
  end.

(** A prior document in the heap: both locales hold the sample English
    block list. *)
Module UpdateSamples.

Definition prior : json :=
  Samples.prior_blocks [("ar", Samples.prior_english)].

Definition prior_world : World := final_world (Samples.world_with prior).

Definition prior_value : value :=
  match Samples.world_with prior with
  | Return v _ => v
  | Throw _ _ => VUndefined
  end.

(** An event that holds the prior page blocks, and the world it is in. *)
Definition prior_event_outcome : outcome value :=
  (perform pageBlocks := build prior in
   new_object (Obj [("id", VStr "node-1"); ("pageBlocks", pageBlocks)]))
    (mkWorld [] Samples.counting_source).

End UpdateSamples.

(** An object with the field [k] set to [x]. *)
Definition with_field (k : string) (x : json) (t : json) : json :=
  match t with
  | JObj fields => JObj (assoc_set k x fields)
  | _ => t
  end.

(** An integer that a number holds exactly together with its neighbours:
    its magnitude is below 2^53. The text of such a number is the decimal
    numeral of the integer. *)
Definition safe_integer (n : Z) : Prop := (- 2 ^ 53 < n < 2 ^ 53)%Z.

(** * Properties *)

(** ** Strings *)

Section StringFacts.

Lemma append_cons a s t : String a s ++ t = String a (s ++ t).
Proof. reflexivity. Qed.

Lemma append_nil t : EmptyString ++ t = t.
Proof. reflexivity. Qed.

Lemma strip_last_snoc c s : strip_last c (s ++ String c EmptyString) = Some s.
Proof.
  induction s as [|a s IH].
  - rewrite append_nil. simpl. by rewrite Ascii.eqb_refl.
  - rewrite append_cons. simpl. rewrite IH.
    destruct s; by rewrite ?append_nil, ?append_cons.
Qed.

Lemma strip_last_Some c s m :
  strip_last c s = Some m -> s = m ++ String c EmptyString.
Proof.
  revert m. induction s as [|a s IH]; intros m; simpl; [done|].
  destruct s as [|b s].
  - destruct (Ascii.eqb_spec a c); [|done]. intros [= <-]. by subst.
  - destruct (strip_last c (String b s)) as [m'|] eqn:E; [|done].
    intros [= <-]. rewrite append_cons. f_equal. by apply IH.
Qed.

(** A marker wrapped in quotes loses them when the text between the
    quotes has no line terminator... *)
Lemma normalizeDateString_quoted m :
  has_line_terminator m = false -> normalizeDateString (quoted m) = m.
Proof.
  intros H. unfold normalizeDateString, quoted.
  rewrite Ascii.eqb_refl, strip_last_snoc. by rewrite H.
Qed.

(** ... and keeps them when it has one. *)
Lemma normalizeDateString_multiline m :
  has_line_terminator m = true -> normalizeDateString (quoted m) = quoted m.
Proof.
  intros H. unfold normalizeDateString, quoted.
  rewrite Ascii.eqb_refl, strip_last_snoc. by rewrite H.
Qed.

(** A marker that is not wrapped in quotes is left as it is. *)
Lemma normalizeDateString_unquoted s :
  (forall m, s <> quoted m) -> normalizeDateString s = s.
Proof.
  intros H. unfold normalizeDateString.
  destruct s as [|c rest]; [done|].
  destruct (Ascii.eqb_spec c dquote) as [->|]; [|done].
  destruct (strip_last dquote rest) as [inner|] eqn:E; [|done].
  apply strip_last_Some in E. subst rest. by destruct (H inner).
Qed.

(** On single-line text the code strips exactly one layer of quotes. *)
Lemma normalizeDateString_single_line s :
  has_line_terminator (strip_wrapping_quotes s) = false ->
  normalizeDateString s = strip_wrapping_quotes s.
Proof.
  unfold normalizeDateString, strip_wrapping_quotes.
  destruct s as [|c rest]; [done|].
  destruct (Ascii.eqb c dquote); [|done].
  destruct (strip_last dquote rest) as [inner|]; simpl; [|done].
  by intros ->.
Qed.

End StringFacts.

(** ** Reconciler *)

Section Reconciler.

Local Open Scope list_scope.

Implicit Types (crm : list CrmEvent) (cms : list UmbracoEvent).
Implicit Types (m : gmap string UmbracoEvent).

(** The identity lookup holds, for each identity, the last CMS event that
    carries it. *)
Lemma build_umbracoMap_lookup cms k :
  build_umbracoMap cms !! k = last (filter (fun u => u_eventId u = k) cms).
Proof.
  unfold build_umbracoMap.
  induction cms as [|u cms IH] using rev_ind; [done|].
  rewrite foldl_snoc, filter_app, lookup_insert.
  rewrite filter_cons, filter_nil.
  case_decide as Hk.
  - by rewrite last_snoc.
  - by rewrite app_nil_r.
Qed.

Lemma build_umbracoMap_dom cms k :
  is_Some (build_umbracoMap cms !! k) <-> exists u, u ∈ cms /\ u_eventId u = k.
Proof.
  rewrite build_umbracoMap_lookup. split.
  - intros [u Hu]. exists u. apply last_Some_elem_of in Hu.
    by apply list_elem_of_filter in Hu as [? ?].
  - intros (u & Hin & Hk).
    assert (Hf : u ∈ filter (fun u => u_eventId u = k) cms)
      by (apply list_elem_of_filter; done).
    destruct (filter _ cms) as [|a l] using rev_ind.
    + by apply elem_of_nil in Hf.
    + rewrite last_snoc. by eexists.
Qed.

Lemma compare_step_outcome m acc e :
  compare_step m acc e =
  match outcome_of m e with
  | Synced => acc
  | ToUpdate =>
    mkSyncResult (toUpdate acc ++ option_list (update_pair m e)) (toCreate acc)
  | ToCreate => mkSyncResult (toUpdate acc) (toCreate acc ++ [e])
  end.
Proof.
  unfold compare_step, update_pair, outcome_of.
  destruct (m !! Number_toString (eventId e)) as [u|]; [|done].
  by destruct (String.eqb _ _).
Qed.

Lemma omap_cons_app {A B} (f : A -> option B) x l :
  omap f (x :: l) = option_list (f x) ++ omap f l.
Proof. simpl. by destruct (f x). Qed.

Lemma update_pair_Some m e :
  outcome_of m e = ToUpdate ->
  exists u, m !! Number_toString (eventId e) = Some u
            /\ update_pair m e = Some (u, e).
Proof.
  unfold update_pair. intros E. rewrite E. unfold outcome_of in E.
  destruct (m !! Number_toString (eventId e)) as [u|]; [|done]. by exists u.
Qed.

Lemma update_pair_None m e :
  outcome_of m e <> ToUpdate -> update_pair m e = None.
Proof. unfold update_pair. by destruct (outcome_of m e). Qed.

Lemma compare_fold m crm acc :
  foldl (compare_step m) acc crm =
  mkSyncResult (toUpdate acc ++ omap (update_pair m) crm)
               (toCreate acc ++ filter (fun e => outcome_of m e = ToCreate) crm).
Proof.
  revert acc. induction crm as [|e crm IH]; intros acc.
  - simpl. rewrite !app_nil_r. by destruct acc.
  - cbn [foldl]. rewrite IH, compare_step_outcome, filter_cons.
    rewrite omap_cons_app.
    destruct (outcome_of m e) eqn:E; cbn [toUpdate toCreate].
    + rewrite update_pair_None by congruence. by rewrite decide_False.
    + rewrite decide_False by done. by rewrite <- app_assoc.
    + rewrite update_pair_None by congruence. rewrite decide_True by done.
      by rewrite <- app_assoc.
Qed.

(** The classification that [compareEvents] computes, in closed form. *)
Lemma compareEvents_closed_form crm cms :
  let m := build_umbracoMap cms in
  compareEvents crm cms =
  mkSyncResult (omap (update_pair m) crm)
               (filter (fun e => outcome_of m e = ToCreate) crm).
Proof. unfold compareEvents. by rewrite compare_fold. Qed.

Lemma update_pairs_events m crm :
  (omap (update_pair m) crm).*2 = filter (fun e => outcome_of m e = ToUpdate) crm.
Proof.
  induction crm as [|e crm IH]; [done|].
  rewrite filter_cons, omap_cons_app, fmap_app, IH. case_decide as E.
  - destruct (update_pair_Some m e E) as (u & _ & ->). done.
  - by rewrite update_pair_None.
Qed.

Lemma three_way_split m crm :
  Permutation crm
    (filter (fun e => outcome_of m e = Synced) crm
     ++ filter (fun e => outcome_of m e = ToUpdate) crm
     ++ filter (fun e => outcome_of m e = ToCreate) crm).
Proof.
  induction crm as [|e crm IH]; [done|].
  rewrite !filter_cons.
  destruct (outcome_of m e) eqn:E; repeat case_decide; try done; simpl.
  - by constructor.
  - rewrite <- Permutation_middle. by constructor.
  - rewrite app_assoc, <- Permutation_middle, <- app_assoc. by constructor.
Qed.

End Reconciler.

Section Reconciliation.

Local Open Scope list_scope.
Import Samples.

(** C1 (the code departs from the claim). The claim has a matched event
    dropped when the two freshness markers are equal after a single layer of
    wrapping quotes is stripped from each. At a CRM marker that is wrapped in
    quotes and has a line break between them, with the CMS marker the same
    text without the quotes, the markers are equal after stripping, the
    identity matches, and [compareEvents] puts the pair in [toUpdate]. *)
Theorem compareEvents_keeps_quotes_around_line_break :
  strip_wrapping_quotes (lastUpdatedDate crm_multiline)
  = strip_wrapping_quotes (u_lastUpdatedDate cms_multiline)
  /\ build_umbracoMap [cms_multiline] !! Number_toString (eventId crm_multiline)
     = Some cms_multiline
  /\ normalizeDateString (lastUpdatedDate crm_multiline)
     = lastUpdatedDate crm_multiline
  /\ compareEvents [crm_multiline] [cms_multiline]
     = mkSyncResult [(cms_multiline, crm_multiline)] [].
Proof. repeat split; vm_compute; reflexivity. Qed.

(** What the mapper writes for the identity and the freshness marker. *)
Lemma mapCrmEventToUmbraco_identity_fields e parentId g :
  let payload := fst (mapCrmEventToUmbraco e parentId g) in
  field "eventId" payload ≫= field "$invariant"
  = Some (JStr (Number_toString (eventId e)))
  /\ field "lastUpdatedDate" payload ≫= field "$invariant"
     = Some (JStr (quoted (lastUpdatedDate e))).
Proof.
  unfold mapCrmEventToUmbraco, baseData, rbind.
  destruct (buildSocialNetworksBlockList (socialMedia e) g) as [sn g1].
  destruct (buildPageBlocks e g1) as [pb g2].
  unfold invariant_fields, document_website_field.
  destruct (truthy_text parentId), (truthy_text (websiteURL e)); simpl; done.
Qed.

(** C2 (the code departs from the claim). For a CRM marker that is already
    wrapped in quotes, the mapper stores the marker wrapped once more; the
    next run compares the CRM marker without its quotes to the stored
    marker with one layer left, and puts the event in [toUpdate] again. *)
Theorem compareEvents_quoted_marker_never_settles g parentId :
  let payload := fst (mapCrmEventToUmbraco crm_quoted parentId g) in
  field "eventId" payload ≫= field "$invariant"
  = Some (JStr (u_eventId cms_after_quoted))
  /\ field "lastUpdatedDate" payload ≫= field "$invariant"
     = Some (JStr (u_lastUpdatedDate cms_after_quoted))
  /\ compareEvents [crm_quoted] [cms_after_quoted]
     = mkSyncResult [(cms_after_quoted, crm_quoted)] [].
Proof.
  destruct (mapCrmEventToUmbraco_identity_fields crm_quoted parentId g)
    as [Hid Hdate].
  cbn zeta. rewrite Hid, Hdate.
  repeat split; vm_compute; reflexivity.
Qed.

(** Where cross-run idempotence does hold: a single CRM event whose marker
    has no line terminator and is not wrapped in quotes, against the CMS
    event that stores what the mapper wrote, is already synchronised. *)
Lemma compareEvents_plain_marker_settles e u :
  has_line_terminator (lastUpdatedDate e) = false ->
  (forall m, lastUpdatedDate e <> quoted m) ->
  u_eventId u = Number_toString (eventId e) ->
  u_lastUpdatedDate u = quoted (lastUpdatedDate e) ->
  compareEvents [e] [u] = mkSyncResult [] [].
Proof.
  intros Hline Hplain Hid Hdate.
  unfold compareEvents, build_umbracoMap. cbn [foldl].
  unfold compare_step at 1. rewrite Hid, lookup_insert_eq.
  rewrite Hdate, normalizeDateString_quoted by done.
  rewrite normalizeDateString_unquoted by done.
  by rewrite String.eqb_refl.
Qed.

(** C3. Partition totality: the CRM events are, counted with their
    multiplicity, the events dropped as synchronised, the events of
    [toUpdate] and the events of [toCreate]; each list holds the events of
    its outcome, in input order; and an event of the input is in the output
    list of its outcome and in no other. *)
Theorem compareEvents_partition (crm : list CrmEvent) (cms : list UmbracoEvent) :
  let m := build_umbracoMap cms in
  let r := compareEvents crm cms in
  let dropped := filter (fun e => outcome_of m e = Synced) crm in
  let updated := snd <$> toUpdate r in
  toCreate r = filter (fun e => outcome_of m e = ToCreate) crm
  /\ updated = filter (fun e => outcome_of m e = ToUpdate) crm
  /\ Permutation crm (dropped ++ updated ++ toCreate r)
  /\ length crm = length dropped + length (toUpdate r) + length (toCreate r)
  /\ forall e, e ∈ crm ->
       match outcome_of m e with
       | Synced => e ∈ dropped /\ (e ∉ updated) /\ (e ∉ toCreate r)
       | ToUpdate => (e ∉ dropped) /\ e ∈ updated /\ (e ∉ toCreate r)
       | ToCreate => (e ∉ dropped) /\ (e ∉ updated) /\ e ∈ toCreate r
       end.
Proof.
  intros m r dropped updated. subst updated r.
  rewrite compareEvents_closed_form.
  fold m. cbn [toCreate toUpdate]. rewrite update_pairs_events.
  assert (HP := three_way_split m crm). fold dropped in HP.
  repeat split; try done.
  - apply Permutation_length in HP. rewrite !length_app in HP.
    rewrite <- (length_fmap snd (omap (update_pair m) crm)),
      update_pairs_events. lia.
  - intros e He. subst dropped.
    destruct (outcome_of m e) eqn:E; rewrite !list_elem_of_filter;
      repeat split; try done; intros [? ?]; congruence.
Qed.

End Reconciliation.

(** ** Venue filter *)

Section VenueFilter.

Local Open Scope list_scope.
Import Samples.

Lemma includes_spec (xs : list string) (x : string) :
  includes xs x = true <-> x ∈ xs.
Proof.
  unfold includes. rewrite existsb_exists. split.
  - intros (y & Hin & Heq). apply String.eqb_eq in Heq. subst.
    by apply list_elem_of_In.
  - intros Hin. exists x. split; [by apply list_elem_of_In|].
    apply String.eqb_refl.
Qed.

Lemma lower_ascii_variant a b :
  lower_letter b -> lower_ascii a = b <-> case_variant a b.
Proof.
  unfold lower_letter, lower_ascii, case_variant, code. intros Hb.
  pose proof (N_ascii_bounded a) as Ha.
  destruct (65 <=? N_of_ascii a)%N eqn:E1; [destruct (N_of_ascii a <=? 90)%N eqn:E2|];
    simpl; rewrite ?N.leb_le, ?N.leb_gt in *.
  - split.
    + intros <-. right. left. split; [lia|].
      rewrite N_ascii_embedding; lia.
    + intros [->|[[_ H]|[? _]]]; [lia| |lia].
      rewrite <- H. apply ascii_N_embedding.
  - split; [by left|]. intros [?|[[? _]|[? _]]]; [done|lia|lia].
  - split; [by left|]. intros [?|[[? _]|[? _]]]; [done|lia|lia].
Qed.

Lemma toLowerCase_variant s t :
  Forall lower_letter (list_ascii_of_string t) ->
  toLowerCase s = t <-> equals_ignoring_case s t.
Proof.
  unfold equals_ignoring_case. revert t.
  induction s as [|a s IH]; intros [|b t] Ht; simpl in *.
  - split; [constructor|done].
  - split; [done|]. intros H. inversion H.
  - split; [done|]. intros H. inversion H.
  - apply Forall_cons in Ht as [Hb Ht]. rewrite Forall2_cons.
    rewrite <- (IH t Ht), <- (lower_ascii_variant a b Hb).
    split; [by intros [= -> ->]|by intros [-> ->]].
Qed.

Lemma venue_pred_wanted venue e : venue_pred venue e = true <-> wanted venue e.
Proof.
  unfold venue_pred, wanted, lists_venue.
  destruct (eventVenues e) as [vs|]; [|by intuition].
  rewrite andb_true_iff, includes_spec, String.eqb_eq.
  rewrite (toLowerCase_variant _ "online"); [done|].
  simpl. repeat (apply Forall_cons; split; [by split; vm_compute|]).
  by apply Forall_nil.
Qed.

Lemma filter_bool_decide {A} (f : A -> bool) (P : A -> Prop)
    `{forall x, Decision (P x)} (l : list A) :
  (forall x, f x = true <-> P x) -> List.filter f l = filter P l.
Proof.
  intros Hf. induction l as [|x l IH]; [done|].
  rewrite filter_cons. simpl. rewrite IH.
  destruct (f x) eqn:E; case_decide as HP; try done.
  - apply Hf in E. done.
  - apply Hf in HP. congruence.
Qed.

(** C4. The venue filter returns, in input order, exactly the events whose
    venue list contains the venue and whose status is online up to case:
    it is the input filtered by that condition. An event with venues A, B
    and status Online passes the filter for B, the same event with status
    offline does not, and an empty input or an input without a match
    gives the empty sequence. *)
Theorem filterEventsByVenue_spec (events : list CrmEvent) (venue : string) :
  filterEventsByVenue events venue = filter (wanted venue) events
  /\ filterEventsByVenue events venue `sublist_of` events
  /\ (forall e, e ∈ filterEventsByVenue events venue
                <-> e ∈ events /\ wanted venue e)
  /\ filterEventsByVenue [crm_event 1 "m" ["A"; "B"] "Online"] "B"
     = [crm_event 1 "m" ["A"; "B"] "Online"]
  /\ filterEventsByVenue [crm_event 1 "m" ["A"; "B"] "offline"] "B" = []
  /\ filterEventsByVenue [] venue = []
  /\ ((forall e, e ∈ events -> ~ wanted venue e) ->
      filterEventsByVenue events venue = []).
Proof.
  assert (Heq : forall evs, filterEventsByVenue evs venue = filter (wanted venue) evs)
    by (intros evs; apply filter_bool_decide, venue_pred_wanted).
  split; [apply Heq|]. split; [rewrite Heq; apply sublist_filter|].
  split; [intros e; rewrite Heq, list_elem_of_filter; tauto|].
  split; [by vm_compute|]. split; [by vm_compute|]. split; [done|].
  intros Hnone. rewrite Heq.
  induction events as [|e events IH]; [done|].
  rewrite filter_cons, decide_False.
  - apply IH. intros e' He'. apply Hnone. by right.
  - apply Hnone. by left.
Qed.

End VenueFilter.

(** ** Identifier generation *)

Section Identifiers.

Local Open Scope list_scope.

Lemma times16_trunc_range u : (0 <= times16_trunc u < 16)%Z.
Proof.
  unfold times16_trunc. destruct u as [n d]. simpl.
  split; [apply N2Z.is_nonneg|].
  change 16%Z with (Z.of_N 16). apply N2Z.inj_lt.
  apply N.Div0.div_lt_upper_bound. lia.
Qed.

Lemma Number_toString16_digit v :
  (0 <= v < 16)%Z ->
  Number_toString16 v = String (hex_digit (Z.to_N v)) EmptyString.
Proof.
  intros H.
  assert (Hv : v ∈ (Z.of_nat <$> seq 0 16)).
  { apply list_elem_of_fmap. exists (Z.to_nat v). split; [lia|].
    apply list_elem_of_In, in_seq. lia. }
  simpl in Hv. repeat (apply elem_of_cons in Hv as [->|Hv]; [reflexivity|]).
  by apply elem_of_nil in Hv.
Qed.

Lemma hex_digit_is_hex n : (n < 16)%N -> is_hex (hex_digit n).
Proof.
  intros H. unfold is_hex, hex_digit.
  apply list_elem_of_In, nth_In. simpl. lia.
Qed.

Lemma guid_digit_fits c g :
  c = "x"%char \/ c = "y"%char ->
  exists d, fst (guid_digit c g) = String d EmptyString /\ fits c d.
Proof.
  intros Hc. unfold guid_digit, rbind, Math_random, rret. simpl.
  pose proof (times16_trunc_range (outcomes g (drawn g))) as Hr.
  set (r := times16_trunc (outcomes g (drawn g))) in *.
  destruct Hc as [-> | ->]; simpl.
  - rewrite Number_toString16_digit by done. eexists. split; [done|].
    apply hex_digit_is_hex. lia.
  - assert (Hr' : r ∈ (Z.of_nat <$> seq 0 16)).
    { apply list_elem_of_fmap. exists (Z.to_nat r). split; [lia|].
      apply list_elem_of_In, in_seq. lia. }
    clearbody r. clear Hr. simpl in Hr'.
    repeat (apply elem_of_cons in Hr' as [->|Hr'];
            [eexists; split; [vm_compute; reflexivity|];
             unfold fits, is_variant; simpl; set_solver|]).
    by apply elem_of_nil in Hr'.
Qed.

Lemma chars_append s t : chars (s +:+ t) = chars s ++ chars t.
Proof.
  induction s as [|a s IH]; [done|].
  rewrite append_cons. simpl. by rewrite IH.
Qed.

(** The callback is run once per x or y, left to right, and every other
    character of the template is kept. *)
Lemma replace_xy_fits template g :
  Forall2 fits (chars template) (chars (fst (replace_xy template g))).
Proof.
  revert g. induction template as [|c rest IH]; intros g; simpl; [constructor|].
  destruct (Ascii.eqb c "x" || Ascii.eqb c "y") eqn:E; unfold rbind.
  - destruct (guid_digit_fits c g) as (d & Hd & Hfit).
    { apply orb_true_iff in E as [E|E]; apply Ascii.eqb_eq in E; auto. }
    destruct (guid_digit c g) as [ds g1]. simpl in Hd. subst ds.
    specialize (IH g1). destruct (replace_xy rest g1) as [s g2]. simpl in *.
    by constructor.
  - specialize (IH g). destruct (replace_xy rest g) as [s g1]. simpl in *.
    constructor; [|done]. unfold fits.
    apply orb_false_iff in E as [-> ->]. done.
Qed.

Lemma is_hex_not_hyphen c : is_hex c -> Ascii.eqb c hyphen = false.
Proof.
  unfold is_hex. simpl. intros H.
  repeat (apply elem_of_cons in H as [->|H]; [reflexivity|]).
  by apply elem_of_nil in H.
Qed.

Lemma is_variant_hex c : is_variant c -> is_hex c.
Proof.
  unfold is_variant, is_hex. simpl. intros H.
  repeat (apply elem_of_cons in H as [->|H]; [set_solver|]).
  by apply elem_of_nil in H.
Qed.

Lemma is_hex_existsb t :
  existsb (Ascii.eqb t) (chars "0123456789abcdef") = true -> is_hex t.
Proof.
  intros H. apply existsb_exists in H as (c & Hc & ->%Ascii.eqb_eq).
  by apply list_elem_of_In.
Qed.

(** Stripping the hyphens of a text that fits a template leaves a text
    that fits the template without its hyphens, for a template made of x,
    y, hyphens and hex digits. *)
Lemma remove_hyphens_fits template s :
  forallb (fun t => Ascii.eqb t "x" || Ascii.eqb t "y" || Ascii.eqb t hyphen
                    || existsb (Ascii.eqb t) (chars "0123456789abcdef"))
          (chars template) = true ->
  Forall2 fits (chars template) (chars s) ->
  Forall2 fits (chars (remove_hyphens template)) (chars (remove_hyphens s)).
Proof.
  revert s. induction template as [|t template IH]; intros [|c s] Ht H;
    simpl in *; inversion H; subst; [constructor|].
  apply andb_true_iff in Ht as [Ht1 Ht2]. specialize (IH s Ht2 ltac:(done)).
  match goal with Hf : fits t c |- _ => rename Hf into Hfit end.
  unfold fits in Hfit.
  destruct (Ascii.eqb_spec t "x") as [->|Hx]; simpl.
  { rewrite is_hex_not_hyphen by done. simpl. constructor; [|done].
    by unfold fits. }
  destruct (Ascii.eqb_spec t "y") as [->|Hy]; simpl.
  { rewrite is_hex_not_hyphen by by apply is_variant_hex. simpl.
    constructor; [|done]. by unfold fits. }
  subst c. simpl in Ht1.
  destruct (Ascii.eqb_spec t hyphen) as [->|Hh]; simpl in *; [done|].
  apply is_hex_existsb in Ht1.
  constructor; [|done].
  unfold fits. destruct (Ascii.eqb_spec t "x"); [done|].
  by destruct (Ascii.eqb_spec t "y").
Qed.

Lemma elem_of_existsb (c : ascii) (l : list ascii) :
  c ∈ l <-> existsb (Ascii.eqb c) l = true.
Proof.
  rewrite existsb_exists, list_elem_of_In. split.
  - intros H. exists c. split; [done|]. apply Ascii.eqb_refl.
  - by intros (d & Hd & ->%Ascii.eqb_eq).
Qed.

Lemma fits_hex t c : t ∈ chars "xy4" -> fits t c -> is_hex c.
Proof.
  simpl. intros Ht. unfold fits.
  repeat (apply elem_of_cons in Ht as [->|Ht]; simpl;
          [try done; try apply is_variant_hex;
           try (intros ->; by apply elem_of_existsb)|]).
  by apply elem_of_nil in Ht.
Qed.

(** The shape of any text that fits the identifier template. *)
Lemma guid_shape_of_fit (guid : string) :
  Forall2 fits (chars guid_template) (chars guid) ->
  let digits := remove_hyphens guid in
  length (chars guid) = 36
  /\ length (chars digits) = 32
  /\ Forall is_hex (chars digits)
  /\ chars digits !! 12 = Some "4"%char
  /\ (exists c, chars digits !! 16 = Some c /\ is_variant c)
  /\ hyphen ∉ chars (element_udi digits).
Proof.
  intros Hfit digits.
  assert (Hdig : Forall2 fits (chars (remove_hyphens guid_template)) (chars digits)).
  { by apply remove_hyphens_fits. }
  clearbody digits.
  assert (Hhex : Forall is_hex (chars digits)).
  { apply Forall_forall. intros c Hc.
    apply list_elem_of_lookup in Hc as [i Hi].
    destruct (Forall2_lookup_r _ _ _ _ _ Hdig Hi) as (t & Ht & Htc).
    apply (fits_hex t); [|done].
    apply list_elem_of_lookup_2, list_elem_of_In in Ht.
    apply elem_of_existsb. clear Htc. revert t Ht. by apply forallb_forall. }
  split; [by rewrite <- (Forall2_length _ _ _ Hfit)|].
  split; [by rewrite <- (Forall2_length _ _ _ Hdig)|].
  split; [done|].
  split.
  { destruct (Forall2_lookup_l _ _ _ 12 "4"%char Hdig eq_refl) as (c & Hc & Hf).
    by rewrite Hc, Hf. }
  split.
  { destruct (Forall2_lookup_l _ _ _ 16 "y"%char Hdig eq_refl) as (c & Hc & Hf).
    exists c. split; [exact Hc|exact Hf]. }
  unfold element_udi. rewrite chars_append, elem_of_app. intros [H|H].
  - by apply elem_of_existsb in H.
  - eapply Forall_forall in Hhex; [|done].
    apply is_hex_not_hyphen in Hhex. by rewrite Ascii.eqb_refl in Hhex.
Qed.

(** C8. Identifier shape, for every outcome of the random source: the
    identifier fits the template (lower-case hex digits, hyphens at the
    template's places); without its hyphens it is 32 hex digits, the 13th
    is 4 and the 17th is one of 8, 9, a, b; and its URI form, the prefix
    followed by the identifier without hyphens, has no hyphen. *)
Theorem generateGuid_shape (g : Rng) :
  let guid := fst (generateGuid g) in
  let digits := remove_hyphens guid in
  Forall2 fits (chars guid_template) (chars guid)
  /\ length (chars guid) = 36
  /\ length (chars digits) = 32
  /\ Forall is_hex (chars digits)
  /\ chars digits !! 12 = Some "4"%char
  /\ (exists c, chars digits !! 16 = Some c /\ is_variant c)
  /\ element_udi digits = "umb://element/" +:+ remove_hyphens guid
  /\ hyphen ∉ chars (element_udi digits).
Proof.
  intros guid digits.
  assert (Hfit : Forall2 fits (chars guid_template) (chars guid))
    by apply replace_xy_fits.
  assert (Heq : element_udi digits = "umb://element/" +:+ remove_hyphens guid)
    by reflexivity.
  clearbody guid.
  destruct (guid_shape_of_fit guid Hfit) as (H1 & H2 & H3 & H4 & H5 & H6).
  fold digits in H2, H3, H4, H5, H6.
  repeat (split; [assumption|]). assumption.
Qed.

End Identifiers.

(** ** Social-networks block list *)

Section SocialBlocks.

Local Open Scope list_scope.
Import Samples.

(** From here on an identifier is used through its shape only. *)
#[local] Opaque generateGuid.

Lemma has_link_nonblank (network : Network) :
  has_link network = nonblank (net_url network).
Proof.
  unfold has_link, nonblank, truthy_text.
  destruct (net_url network) as [[|c r]|]; [done| |done].
  destruct (String.eqb_spec (trim (String c r)) ""); by case_decide.
Qed.

Lemma emitted_networks socialMedia :
  omap (fun n => pair (net_name n) <$> has_link n) (socialNetworks_of socialMedia)
  = emitted socialMedia.
Proof.
  unfold emitted, channels, socialNetworks_of. simpl.
  by rewrite !has_link_nonblank.
Qed.

(** The loop over the channels: every channel with a link appends one
    layout entry and one content entry with the same, newly generated
    identifier; the other channels append nothing. *)
Lemma social_fold networks acc g :
  exists udis,
    let present := omap (fun n => pair (net_name n) <$> has_link n) networks in
    let acc' := fst (rfold social_step networks acc g) in
    length udis = length present
    /\ Forall generated_udi udis
    /\ fst acc' = fst acc ++ (layout_entry <$> udis)
    /\ snd acc' = snd acc ++ zip_with social_entry udis present.
Proof.
  revert acc g. induction networks as [|n networks IH]; intros acc g.
  - exists []. simpl. by rewrite !app_nil_r.
  - cbn [rfold]. unfold rbind. rewrite omap_cons_app.
    destruct (social_step acc n g) as [a g'] eqn:Es.
    unfold social_step in Es.
    destruct (has_link n) as [url|].
    + unfold rbind, rret in Es.
      destruct (generateGuid g) as [guid g1] eqn:Eg.
      assert (Hgen : generated_udi (element_udi (remove_hyphens guid))).
      { exists g. by rewrite Eg. }
      cbn zeta in Es. set (udi := element_udi (remove_hyphens guid)) in *.
      clearbody udi. clear Eg. injection Es as <- <-.
      destruct (IH (fst acc ++ [layout_entry udi],
                    snd acc ++ [social_block udi (net_name n) url]) g1)
        as (udis & Hlen & Hall & Hl & Hc).
      exists (udi :: udis). cbn zeta in *. cbn [fst snd] in *.
      rewrite Hl, Hc. cbn [fmap list_fmap option_list app zip_with length].
      rewrite <- !app_assoc. repeat split; try done.
      * by rewrite Hlen.
      * by constructor.
    + unfold rret in Es. injection Es as <- <-.
      destruct (IH acc g) as (udis & Hlen & Hall & Hl & Hc).
      exists udis. done.
Qed.

Lemma layout_udis_block_list layout contentData :
  layout_udis (block_list layout contentData) = text_field "contentUdi" <$> layout.
Proof. reflexivity. Qed.

Lemma content_udis_block_list layout contentData :
  content_udis (block_list layout contentData) = text_field "udi" <$> contentData.
Proof. reflexivity. Qed.

Lemma layout_entries_udis (udis : list string) :
  text_field "contentUdi" <$> (layout_entry <$> udis) = Some <$> udis.
Proof.
  induction udis as [|u udis IH]; [done|]. rewrite !fmap_cons, IH. done.
Qed.

Lemma social_entries_udis (udis : list string) (present : list (string * string)) :
  length udis = length present ->
  text_field "udi" <$> zip_with social_entry udis present = Some <$> udis.
Proof.
  revert present. induction udis as [|u udis IH]; intros [|c present] H;
    simpl in H; try done.
  cbn [zip_with]. rewrite !fmap_cons, IH by lia. done.
Qed.

Lemma emitted_at_most_five socialMedia : length (emitted socialMedia) <= 5.
Proof.
  unfold emitted, channels. simpl.
  repeat match goal with |- context [nonblank ?o] => destruct (nonblank o) end;
    simpl; lia.
Qed.

(** The block list in closed form. *)
Lemma buildSocialNetworksBlockList_closed_form socialMedia g :
  exists udis,
    length udis = length (emitted socialMedia)
    /\ Forall generated_udi udis
    /\ fst (buildSocialNetworksBlockList socialMedia g)
       = block_list (layout_entry <$> udis)
                    (zip_with social_entry udis (emitted socialMedia)).
Proof.
  unfold buildSocialNetworksBlockList, rbind, rret.
  destruct (social_fold (socialNetworks_of socialMedia) ([], []) g)
    as (udis & Hlen & Hall & Hl & Hc).
  rewrite emitted_networks in *. cbn zeta in *.
  destruct (rfold social_step _ _ g) as [[layout contentData] g'].
  simpl in *. subst. exists udis. repeat split; assumption || reflexivity.
Qed.

(** Cardinality and order of the social blocks: the block list has one
    layout entry and one content entry per channel whose link is present
    and not blank after trimming, in the fixed channel order, the two at
    the same place and carrying the same newly generated identifier; the
    other channels are left out, so there are at most five; with only
    facebook and tiktok populated there are exactly two of each. *)
Lemma buildSocialNetworksBlockList_entries (socialMedia : option SocialMedia)
    (g : Rng) :
  let blocks := fst (buildSocialNetworksBlockList socialMedia g) in
  let sample := fst (buildSocialNetworksBlockList (Some facebook_and_tiktok) g) in
  (exists udis,
     length udis = length (emitted socialMedia)
     /\ Forall generated_udi udis
     /\ blocks = block_list (layout_entry <$> udis)
                           (zip_with social_entry udis (emitted socialMedia))
     /\ layout_udis blocks = Some <$> udis
     /\ content_udis blocks = Some <$> udis)
  /\ length (layout_udis blocks) = length (emitted socialMedia)
  /\ length (content_udis blocks) = length (emitted socialMedia)
  /\ length (emitted socialMedia) <= 5
  /\ emitted (Some facebook_and_tiktok)
     = [("Facebook", "https://facebook.com/dec");
        ("TikTok", "https://tiktok.com/@dec")]
  /\ length (layout_udis sample) = 2
  /\ length (content_udis sample) = 2.
Proof.
  intros blocks sample.
  assert (Hshape : forall sm,
    exists udis,
      length udis = length (emitted sm)
      /\ Forall generated_udi udis
      /\ fst (buildSocialNetworksBlockList sm g)
         = block_list (layout_entry <$> udis) (zip_with social_entry udis (emitted sm))
      /\ layout_udis (fst (buildSocialNetworksBlockList sm g)) = Some <$> udis
      /\ content_udis (fst (buildSocialNetworksBlockList sm g)) = Some <$> udis).
  { intros sm.
    destruct (buildSocialNetworksBlockList_closed_form sm g)
      as (udis & Hlen & Hall & ->).
    exists udis. rewrite layout_udis_block_list, content_udis_block_list.
    rewrite layout_entries_udis, social_entries_udis by exact Hlen.
    repeat split; first [assumption | reflexivity]. }
  destruct (Hshape socialMedia) as (udis & Hlen & Hall & Hb & Hl & Hc).
  destruct (Hshape (Some facebook_and_tiktok)) as (udis' & Hlen' & _ & _ & Hl' & Hc').
  subst blocks sample. clear Hshape.
  split; [exists udis; repeat split; assumption|].
  rewrite Hl, Hc, Hl', Hc', !length_fmap, Hlen, Hlen'.
  clear. repeat split; first [reflexivity | apply emitted_at_most_five].
Qed.

End SocialBlocks.

(** ** Page blocks and the create payload *)

Section CreatePath.

Local Open Scope list_scope.
Import Samples.

#[local] Opaque generateGuid.

(** The page blocks in closed form: eleven identifiers and the social
    block list. *)
Lemma buildPageBlocks_closed_form crmEvent g :
  exists a1 a2 a3 a4 a5 b1 b2 b3 b4 b5 b6 social,
    fst (buildPageBlocks crmEvent g)
    = JObj [("en-US", englishBlocks crmEvent social a1 a2 a3 a4 a5);
            ("ar", arabicBlocks crmEvent social b1 b2 b3 b4 b5 b6)].
Proof.
  unfold buildPageBlocks, rbind, rret.
  repeat match goal with
         | |- context [fresh_guid ?g] =>
           let a := fresh "a" in let g' := fresh "g" in
           destruct (fresh_guid g) as [a g']
         end.
  destruct (buildSocialNetworksBlockList _ _) as [social g'].
  repeat eexists.
Qed.

Lemma englishBlocks_udis crmEvent social a1 a2 a3 a4 a5 :
  let blocks := englishBlocks crmEvent social a1 a2 a3 a4 a5 in
  layout_udis blocks = Some <$> (element_udi <$> [a1; a2; a3; a4; a5])
  /\ content_udis blocks = layout_udis blocks.
Proof. split; reflexivity. Qed.

Lemma arabicBlocks_udis crmEvent social b1 b2 b3 b4 b5 b6 :
  let blocks := arabicBlocks crmEvent social b1 b2 b3 b4 b5 b6 in
  layout_udis blocks = Some <$> (element_udi <$> [b1; b2; b3; b4; b5; b6])
  /\ content_udis blocks = layout_udis blocks.
Proof. split; reflexivity. Qed.

Lemma occurrences_absent (id : option string) ids :
  id ∉ ids -> occurrences id ids = 0.
Proof.
  unfold occurrences. induction ids as [|x ids IH]; intros Hid; [done|].
  apply not_elem_of_cons in Hid as [Hne Hid].
  rewrite filter_cons_False by congruence. by apply IH.
Qed.

Lemma occurrences_NoDup (id : option string) ids :
  NoDup ids -> id ∈ ids -> occurrences id ids = 1.
Proof.
  induction 1 as [|x ids Hx Hnd IH]; intros Hin.
  - by apply elem_of_nil in Hin.
  - unfold occurrences. rewrite filter_cons. case_decide as Heq.
    + subst x. simpl. f_equal. by apply occurrences_absent.
    + apply elem_of_cons in Hin as [->|Hin]; [done|]. by apply IH.
Qed.

(** Sequences that agree place by place are referentially closed as soon
    as no identifier repeats. *)
Lemma closed_of_agreement blocks :
  layout_udis blocks = content_udis blocks ->
  NoDup (layout_udis blocks) -> referentially_closed blocks.
Proof.
  intros Heq Hnd. unfold referentially_closed. rewrite <- Heq.
  repeat split; intros; by apply occurrences_NoDup.
Qed.

(** C7 (as amended). For every CRM event and every outcome of the random
    source, in each block list that the mapper produces (the two locales of
    [buildPageBlocks], the list of [buildSocialNetworksBlockList]) the
    identifiers of the layout and those of the content entries are the same
    sequence, place by place and in length; and when no identifier of the
    list repeats, each identifier of the layout has exactly one content
    entry and each content entry is referred to exactly once. *)
Theorem block_lists_referentially_closed (crmEvent : CrmEvent) (g : Rng) :
  let pageBlocks := fst (buildPageBlocks crmEvent g) in
  let english := locale_blocks "en-US" pageBlocks in
  let arabic := locale_blocks "ar" pageBlocks in
  let social := fst (buildSocialNetworksBlockList (socialMedia crmEvent) g) in
  (layout_udis english = content_udis english
   /\ layout_udis arabic = content_udis arabic
   /\ layout_udis social = content_udis social)
  /\ (length (layout_udis english) = 5 /\ length (layout_udis arabic) = 6)
  /\ (NoDup (layout_udis english) -> referentially_closed english)
  /\ (NoDup (layout_udis arabic) -> referentially_closed arabic)
  /\ (NoDup (layout_udis social) -> referentially_closed social).
Proof.
  intros pageBlocks english arabic social.
  assert (He : layout_udis english = content_udis english
               /\ length (layout_udis english) = 5).
  { subst english pageBlocks.
    destruct (buildPageBlocks_closed_form crmEvent g)
      as (a1 & a2 & a3 & a4 & a5 & b1 & b2 & b3 & b4 & b5 & b6 & sn & ->).
    split; reflexivity. }
  assert (Ha : layout_udis arabic = content_udis arabic
               /\ length (layout_udis arabic) = 6).
  { subst arabic pageBlocks.
    destruct (buildPageBlocks_closed_form crmEvent g)
      as (a1 & a2 & a3 & a4 & a5 & b1 & b2 & b3 & b4 & b5 & b6 & sn & ->).
    split; reflexivity. }
  assert (Hs : layout_udis social = content_udis social).
  { subst social.
    destruct (buildSocialNetworksBlockList_closed_form (socialMedia crmEvent) g)
      as (udis & Hlen & _ & ->).
    rewrite layout_udis_block_list, content_udis_block_list.
    by rewrite layout_entries_udis, social_entries_udis. }
  clearbody english arabic social. clear pageBlocks.
  destruct He as [He1 He2], Ha as [Ha1 Ha2].
  repeat split; try assumption; by apply closed_of_agreement.
Qed.

(** C7, non-vacuity of the amended claim: a source under which the
    identifiers of the English block list are pairwise distinct, and the
    closure that follows. *)
Lemma block_lists_referentially_closed_witness :
  NoDup (layout_udis
           (locale_blocks "en-US" (fst (buildPageBlocks crm_plain counting_source))))
  /\ referentially_closed
       (locale_blocks "en-US" (fst (buildPageBlocks crm_plain counting_source))).
Proof.
  assert (Hnd : NoDup (layout_udis
            (locale_blocks "en-US" (fst (buildPageBlocks crm_plain counting_source))))).
  { apply (bool_decide_unpack _). vm_compute. exact I. }
  split; [exact Hnd|].
  exact (proj1 (proj2 (proj2
           (block_lists_referentially_closed crm_plain counting_source))) Hnd).
Defined.

(** C7, the claim as stated fails. When the random source repeats itself
    the five identifiers of the English block list are one and the same, so
    an identifier of the layout has five content entries, not one. *)
Lemma repeated_identifier_breaks_closure :
  ~ referentially_closed
      (locale_blocks "en-US" (fst (buildPageBlocks crm_plain constant_source))).
Proof.
  intros [H _].
  assert (Hin : Some "umb://element/00000000000040008000000000000000"
                ∈ layout_udis (locale_blocks "en-US"
                     (fst (buildPageBlocks crm_plain constant_source))))
    by (vm_compute; left).
  apply H in Hin. vm_compute in Hin. discriminate Hin.
Qed.

Lemma assoc_app_l {A} k (xs ys : list (string * A)) v :
  assoc k xs = Some v -> assoc k (xs ++ ys) = Some v.
Proof.
  induction xs as [|[k' x] xs IH]; simpl; [done|].
  by destruct (String.eqb k k').
Qed.

Lemma assoc_app_r {A} k (xs ys : list (string * A)) :
  assoc k xs = None -> assoc k (xs ++ ys) = assoc k ys.
Proof.
  induction xs as [|[k' x] xs IH]; simpl; [done|].
  by destruct (String.eqb k k').
Qed.

Lemma assoc_snoc_ne {A} k k' (xs : list (string * A)) v :
  k <> k' -> assoc k (xs ++ [(k', v)]) = assoc k xs.
Proof.
  intros Hne. destruct (assoc k xs) as [x|] eqn:E.
  - by apply assoc_app_l.
  - rewrite assoc_app_r by done. simpl.
    by destruct (String.eqb_spec k k').
Qed.

(** The base object has no parent identifier of its own. *)
Lemma baseData_no_parentId crmEvent g :
  assoc "parentId" (fst (baseData crmEvent g)) = None.
Proof.
  unfold baseData, rbind, rret.
  destruct (buildSocialNetworksBlockList _ g) as [social g1].
  destruct (buildPageBlocks crmEvent g1) as [pageBlocks g2].
  unfold invariant_fields, document_website_field.
  destruct (truthy_text (websiteURL crmEvent)); reflexivity.
Qed.

Lemma mapCrmEventToUmbraco_cases crmEvent parentId g :
  fst (mapCrmEventToUmbraco crmEvent parentId g)
  = match truthy_text parentId with
    | Some p => JObj (fst (baseData crmEvent g) ++ [("parentId", JStr p)])
    | None => JObj (fst (baseData crmEvent g))
    end.
Proof.
  unfold mapCrmEventToUmbraco, rbind, rret.
  destruct (baseData crmEvent g) as [base g1].
  by destruct (truthy_text parentId).
Qed.

Lemma truthy_text_nonempty s : s <> "" -> truthy_text (Some s) = Some s.
Proof. by destruct s. Qed.

(** C9 (as amended). Create payload shape, for random outcomes that are
    the same in both calls: without a parent identifier, and likewise with an
    empty one, the payload is the base object and has no parentId field; with
    a non-empty parent identifier it is the base object followed by that
    parentId field; every other field is the same in both; and the payload
    has no third shape. *)
Theorem mapCrmEventToUmbraco_parentId_shape (crmEvent : CrmEvent) (g : Rng)
    (parentId : string) :
  parentId <> "" ->
  let base := fst (baseData crmEvent g) in
  let without := fst (mapCrmEventToUmbraco crmEvent None g) in
  let supplied := fst (mapCrmEventToUmbraco crmEvent (Some parentId) g) in
  without = JObj base
  /\ fst (mapCrmEventToUmbraco crmEvent (Some "") g) = JObj base
  /\ supplied = JObj (base ++ [("parentId", JStr parentId)])
  /\ field "parentId" without = None
  /\ field "parentId" supplied = Some (JStr parentId)
  /\ (forall k, k <> "parentId" -> field k supplied = field k without)
  /\ (forall p, fst (mapCrmEventToUmbraco crmEvent p g) = JObj base
                \/ exists q, p = Some q /\ q <> ""
                   /\ fst (mapCrmEventToUmbraco crmEvent p g)
                      = JObj (base ++ [("parentId", JStr q)])).
Proof.
  intros Hne base without supplied. subst without supplied.
  rewrite !mapCrmEventToUmbraco_cases, (truthy_text_nonempty parentId Hne).
  fold base. cbn [truthy_text field].
  pose proof (baseData_no_parentId crmEvent g) as Hbase. fold base in Hbase.
  assert (Hshapes : forall p,
    fst (mapCrmEventToUmbraco crmEvent p g) = JObj base
    \/ exists q, p = Some q /\ q <> ""
       /\ fst (mapCrmEventToUmbraco crmEvent p g)
          = JObj (base ++ [("parentId", JStr q)])).
  { intros p. rewrite mapCrmEventToUmbraco_cases. fold base.
    destruct p as [[|c q]|]; cbn [truthy_text];
      [left; reflexivity| |left; reflexivity].
    right. exists (String c q).
    split; [reflexivity|]. split; [discriminate|reflexivity]. }
  clearbody base.
  split; [reflexivity|]. split; [reflexivity|]. split; [reflexivity|].
  split; [exact Hbase|].
  split; [by rewrite assoc_app_r by exact Hbase|].
  split; [intros k Hk; by apply assoc_snoc_ne|].
  exact Hshapes.
Qed.

(** C9, an instance: the parent identifier of the specification. *)
Lemma mapCrmEventToUmbraco_parentId_shape_witness :
  "123" <> ""
  /\ field "parentId" (fst (mapCrmEventToUmbraco crm_plain (Some "123") counting_source))
     = Some (JStr "123")
  /\ field "parentId" (fst (mapCrmEventToUmbraco crm_plain None counting_source))
     = None.
Proof.
  assert (Hne : "123" <> "") by discriminate.
  pose proof (mapCrmEventToUmbraco_parentId_shape crm_plain counting_source
                "123" Hne) as (_ & _ & _ & Hnone & Hsome & _).
  split; [exact Hne|]. split; [exact Hsome|exact Hnone].
Defined.

(** C9, the claim as stated fails: a supplied parent identifier that is
    the empty text is left out of the payload. *)
Lemma empty_parentId_is_omitted :
  ~ (forall (crmEvent : CrmEvent) (parentId : string) (g : Rng),
       field "parentId" (fst (mapCrmEventToUmbraco crmEvent (Some parentId) g))
       = Some (JStr parentId)).
Proof.
  intros H. specialize (H crm_plain "" constant_source).
  rewrite mapCrmEventToUmbraco_cases in H. cbn [truthy_text field] in H.
  by rewrite baseData_no_parentId in H.
Qed.

End CreatePath.

(** ** Pairing of the social blocks by identifier *)

Section SocialPairing.

Local Open Scope list_scope.
Import Samples.

#[local] Opaque generateGuid.

(** C6 (as amended). Social block cardinality and order: for every
    socialMedia record and every outcome of the random source, the block
    list has one layout entry and one content entry per channel whose link
    is present and not blank after trimming, in the fixed channel order,
    the two entries of a channel at the same place and carrying the same
    newly generated identifier; the other channels are left out, so there
    are at most five; with only facebook and tiktok populated there are
    exactly two of each. When no generated identifier repeats, the entries
    are paired one to one by identifier: each identifier of the layout has
    exactly one content entry and each content entry is referred to exactly
    once. *)
Theorem buildSocialNetworksBlockList_pairing (socialMedia : option SocialMedia)
    (g : Rng) :
  let blocks := fst (buildSocialNetworksBlockList socialMedia g) in
  let sample := fst (buildSocialNetworksBlockList (Some facebook_and_tiktok) g) in
  (exists udis,
     length udis = length (emitted socialMedia)
     /\ Forall generated_udi udis
     /\ blocks = block_list (layout_entry <$> udis)
                           (zip_with social_entry udis (emitted socialMedia))
     /\ layout_udis blocks = Some <$> udis
     /\ content_udis blocks = Some <$> udis)
  /\ length (layout_udis blocks) = length (emitted socialMedia)
  /\ length (content_udis blocks) = length (emitted socialMedia)
  /\ length (emitted socialMedia) <= 5
  /\ emitted (Some facebook_and_tiktok)
     = [("Facebook", "https://facebook.com/dec");
        ("TikTok", "https://tiktok.com/@dec")]
  /\ length (layout_udis sample) = 2
  /\ length (content_udis sample) = 2
  /\ (NoDup (layout_udis blocks) -> referentially_closed blocks).
Proof.
  intros blocks sample.
  destruct (buildSocialNetworksBlockList_entries socialMedia g)
    as (Hshape & Hl & Hc & Hfive & Hsample & Hl2 & Hc2).
  fold blocks in Hshape, Hl, Hc. fold sample in Hl2, Hc2.
  repeat (split; [assumption|]).
  destruct Hshape as (udis & _ & _ & _ & Hlu & Hcu).
  clearbody blocks. intros Hnd. apply closed_of_agreement; [|exact Hnd].
  by rewrite Hlu, Hcu.
Qed.

(** C6, non-vacuity of the amended claim: a source under which the two
    identifiers of the list for facebook and tiktok are distinct, and the
    pairing that follows. *)
Lemma buildSocialNetworksBlockList_pairing_witness :
  NoDup (layout_udis
           (fst (buildSocialNetworksBlockList (Some facebook_and_tiktok)
                   counting_source)))
  /\ referentially_closed
       (fst (buildSocialNetworksBlockList (Some facebook_and_tiktok)
               counting_source)).
Proof.
  assert (Hnd : NoDup (layout_udis
            (fst (buildSocialNetworksBlockList (Some facebook_and_tiktok)
                    counting_source)))).
  { apply (bool_decide_unpack _). vm_compute. exact I. }
  split; [exact Hnd|].
  exact (proj2 (proj2 (proj2 (proj2 (proj2 (proj2 (proj2
           (buildSocialNetworksBlockList_pairing (Some facebook_and_tiktok)
              counting_source))))))) Hnd).
Defined.

(** C6, the claim as stated fails. When the random source repeats itself
    the entries for facebook and for tiktok carry one and the same
    identifier, so the identifier of a layout entry has two content
    entries, not one: the entries are not paired one to one by
    identifier. *)
Lemma repeated_identifier_pairs_two_entries :
  ~ referentially_closed
      (fst (buildSocialNetworksBlockList (Some facebook_and_tiktok)
              constant_source)).
Proof.
  intros [H _].
  assert (Hin : Some "umb://element/00000000000040008000000000000000"
                ∈ layout_udis
                    (fst (buildSocialNetworksBlockList
                            (Some facebook_and_tiktok) constant_source)))
    by (vm_compute; left).
  apply H in Hin. vm_compute in Hin. discriminate Hin.
Qed.

End SocialPairing.

(** ** Update path: the prior document is left unchanged *)

Section Frames.

Local Open Scope list_scope.

Variable h0 : heap.

Abbreviation n := (length h0).

Lemma json_rect' (P : json -> Prop) :
  P JNull -> (forall b, P (JBool b)) -> (forall z, P (JNum z)) ->
  (forall s, P (JStr s)) ->
  (forall items, Forall P items -> P (JArr items)) ->
  (forall fields, Forall (fun f => P (snd f)) fields -> P (JObj fields)) ->
  forall t, P t.
Proof.
  intros HN HB HZ HS HA HO. fix IH 1.
  intros [|b|z|s|items|fields];
    [exact HN|exact (HB b)|exact (HZ z)|exact (HS s)| |].
  - apply HA. induction items as [|t items IHl]; constructor.
    + exact (IH t).
    + exact IHl.
  - apply HO. induction fields as [|[k t] fields IHl]; constructor.
    + exact (IH t).
    + exact IHl.
Qed.

Lemma extends_refl : extends h0 h0.
Proof. exists []. by rewrite app_nil_r. Qed.

Lemma keeps_ret {A} (a : A) (Q : A -> Prop) : Q a -> keeps h0 (ret a) Q.
Proof. by intros HQ w Hw. Qed.

Lemma keeps_throw {A} e (Q : A -> Prop) : keeps h0 (throw e) Q.
Proof. by intros w Hw. Qed.

Lemma keeps_bind {A B} (m : Eff A) (k : A -> Eff B) P Q :
  keeps h0 m P -> (forall a, P a -> keeps h0 (k a) Q) -> keeps h0 (bind m k) Q.
Proof.
  intros Hm Hk w Hw. unfold bind. specialize (Hm w Hw).
  destruct (m w) as [a w'|e w']; [|done].
  destruct Hm as [Hw' HP]. by apply Hk.
Qed.

Lemma keeps_weaken {A} (m : Eff A) (P Q : A -> Prop) :
  keeps h0 m P -> (forall a, P a -> Q a) -> keeps h0 m Q.
Proof.
  intros Hm HPQ w Hw. specialize (Hm w Hw).
  destruct (m w); [|done]. destruct Hm. auto.
Qed.

Lemma keeps_lift_rand {A} (m : Rand A) : keeps h0 (lift_rand m) (fun _ => True).
Proof. intros w Hw. unfold lift_rand. by destruct (m (rng w)). Qed.

Lemma keeps_new_object_created o :
  closed_object n o -> keeps h0 (new_object o) (created_object n).
Proof.
  intros Ho w (created & Hh & Hc). unfold new_object. simpl. split.
  - exists (created ++ [o]). rewrite Hh, app_assoc. split; [done|].
    apply Forall_app. split; [done|]. by constructor.
  - eexists. split; [done|]. rewrite Hh, length_app. lia.
Qed.

Lemma created_fresh v : created_object n v -> fresh_value n v.
Proof. by intros (l & -> & Hl). Qed.

Lemma keeps_new_object o :
  closed_object n o -> keeps h0 (new_object o) (fresh_value n).
Proof.
  intros Ho. eapply keeps_weaken; [by apply keeps_new_object_created|].
  apply created_fresh.
Qed.

Lemma keeps_eff_map {A B} (f : A -> Eff B) (Q : B -> Prop) xs :
  Forall (fun x => keeps h0 (f x) Q) xs -> keeps h0 (eff_map f xs) (Forall Q).
Proof.
  induction 1 as [|x xs Hx Hxs IH]; simpl.
  - by apply keeps_ret.
  - eapply keeps_bind; [exact Hx|]. intros y Hy.
    eapply keeps_bind; [exact IH|]. intros ys Hys.
    apply keeps_ret. by constructor.
Qed.

(** Evaluating a literal, or parsing a text, creates objects only. *)
Lemma keeps_build t : keeps h0 (build t) (fresh_value n).
Proof.
  induction t as [|b|z|s|items IH|fields IH] using json_rect'; simpl;
    try by apply keeps_ret.
  - eapply keeps_bind; [by apply keeps_eff_map|]. intros elems Helems.
    apply keeps_new_object. simpl. split; [done|constructor].
  - eapply keeps_bind.
    + apply (keeps_eff_map _ (fun p => fresh_value n (snd p))).
      eapply Forall_impl; [exact IH|]. intros [k t] Ht. simpl in *.
      eapply keeps_bind; [exact Ht|]. intros v Hv. by apply keeps_ret.
    + intros props Hprops. apply keeps_new_object. simpl.
      by apply Forall_fmap.
Qed.

Lemma created_lookup h l o :
  extends h0 h -> n <= l -> h !! l = Some o -> closed_object n o.
Proof.
  intros (created & -> & Hc) Hl Ho.
  rewrite lookup_app_r in Ho by done.
  eapply Forall_lookup_1 in Hc; done.
Qed.

Lemma created_insert h l o :
  extends h0 h -> n <= l -> closed_object n o -> extends h0 (<[l := o]> h).
Proof.
  intros (created & -> & Hc) Hl Ho.
  exists (<[l - n := o]> created). split.
  - by rewrite insert_app_r_alt.
  - by apply Forall_insert.
Qed.

Lemma assoc_fresh k (props : list (string * value)) :
  Forall (fresh_value n) (snd <$> props) ->
  fresh_value n (default VUndefined (assoc k props)).
Proof.
  induction props as [|[k' v] props IH]; simpl; [done|].
  intros [Hv Hprops]%Forall_cons. by destruct (String.eqb k k'); [|apply IH].
Qed.

Lemma assoc_set_fresh k x (props : list (string * value)) :
  fresh_value n x -> Forall (fresh_value n) (snd <$> props) ->
  Forall (fresh_value n) (snd <$> assoc_set k x props).
Proof.
  intros Hx. induction props as [|[k' v] props IH]; simpl.
  - intros _. by repeat constructor.
  - intros [Hv Hprops]%Forall_cons.
    destruct (String.eqb k k'); simpl; constructor; auto.
Qed.

Lemma assoc_delete_fresh k (props : list (string * value)) :
  Forall (fresh_value n) (snd <$> props) ->
  Forall (fresh_value n) (snd <$> assoc_delete k props).
Proof.
  induction props as [|[k' v] props IH]; simpl; [done|].
  intros [Hv Hprops]%Forall_cons.
  destruct (String.eqb k k'); simpl; [done|]. constructor; auto.
Qed.

(** Reading changes nothing; what is read from a created object is a
    primitive or a created object. *)
Lemma keeps_get_any v k : keeps h0 (get v k) (fun _ => True).
Proof.
  intros w Hw. unfold get.
  destruct v; try done. by destruct (objects w !! l) as [[?|? ?]|].
Qed.

Lemma keeps_get v k : fresh_value n v -> keeps h0 (get v k) (fresh_value n).
Proof.
  intros Hv w Hw. unfold get. destruct v as [| | | | |l]; try done.
  destruct (objects w !! l) as [o|] eqn:Ho; [|done].
  pose proof (created_lookup _ _ _ Hw Hv Ho) as Hc.
  destruct o as [props|elems props]; simpl in Hc; (split; [done|]).
  - by apply assoc_fresh.
  - apply assoc_fresh. tauto.
Qed.

Lemma keeps_get_index v i :
  fresh_value n v -> keeps h0 (get_index v i) (fresh_value n).
Proof.
  intros Hv w Hw. unfold get_index. destruct v as [| | | | |l]; try done.
  - split; [done|]. by destruct (units s !! i).
  - destruct (objects w !! l) as [o|] eqn:Ho; [|done].
    pose proof (created_lookup _ _ _ Hw Hv Ho) as Hc.
    destruct o as [props|elems props]; simpl in Hc; (split; [done|]).
    + by apply assoc_fresh.
    + destruct Hc as [Hc _]. destruct (elems !! i) as [x|] eqn:Hx; [|done].
      simpl. eapply Forall_lookup_1 in Hc; done.
Qed.

(** Assignment to a created object, of a created value, stays within the
    created objects. *)
Lemma keeps_set v k x :
  fresh_value n v -> fresh_value n x -> keeps h0 (set v k x) (fun _ => True).
Proof.
  intros Hv Hx w Hw. unfold set. destruct v as [| | | | |l]; try done.
  destruct (objects w !! l) as [o|] eqn:Ho; [|done].
  pose proof (created_lookup _ _ _ Hw Hv Ho) as Hc.
  destruct o as [props|elems props]; simpl in *; (split; [|done]);
    apply created_insert; try done; simpl.
  - by apply assoc_set_fresh.
  - split; [tauto|]. apply assoc_set_fresh; tauto.
Qed.

Lemma keeps_delete_prop v k :
  fresh_value n v -> keeps h0 (delete_prop v k) (fun _ => True).
Proof.
  intros Hv w Hw. unfold delete_prop. destruct v as [| | | | |l]; try done.
  destruct (objects w !! l) as [o|] eqn:Ho; [|done].
  pose proof (created_lookup _ _ _ Hw Hv Ho) as Hc.
  destruct o as [props|elems props]; simpl in *; (split; [|done]);
    apply created_insert; try done; simpl.
  - by apply assoc_delete_fresh.
  - split; [tauto|]. apply assoc_delete_fresh; tauto.
Qed.

Lemma keeps_JSON_stringify v : keeps h0 (JSON_stringify v) (fun _ => True).
Proof.
  intros w Hw. unfold JSON_stringify.
  destruct v; try done; by destruct (serialize _ _ _).
Qed.

Lemma keeps_JSON_parse text : keeps h0 (JSON_parse text) (fresh_value n).
Proof. destruct text; [apply keeps_build|apply keeps_throw]. Qed.

Lemma keeps_update_event_description blocks crmEvent social target :
  fresh_value n blocks -> fresh_value n social ->
  keeps h0 (update_event_description blocks crmEvent social target)
        (fun _ => True).
Proof.
  intros Hb Hs. unfold update_event_description.
  eapply keeps_bind; [by apply keeps_get|]. intros contentData Hcd.
  destruct (truthy contentData); [|by apply keeps_ret].
  eapply keeps_bind; [by apply keeps_get_index|]. intros block Hblock.
  destruct (truthy block); [|by apply keeps_ret].
  unfold overwrite_event_fields.
  eapply keeps_bind; [apply keeps_build|]. intros d Hd.
  eapply keeps_bind; [by apply keeps_set|]. intros _ _.
  eapply keeps_bind; [by apply keeps_set|]. intros _ _.
  eapply keeps_bind; [|intros _ _; by apply keeps_set].
  destruct (truthy_text (websiteURL crmEvent)) as [url|].
  - eapply keeps_bind; [apply keeps_build|]. intros website Hw.
    by apply keeps_set.
  - by apply keeps_delete_prop.
Qed.

Lemma keeps_updatePageBlocks existing crmEvent :
  keeps h0 (updatePageBlocks existing crmEvent) (created_object n).
Proof.
  unfold updatePageBlocks.
  eapply keeps_bind; [apply keeps_lift_rand|]. intros socialTree _.
  eapply keeps_bind; [apply keeps_build|]. intros social Hs.
  eapply keeps_bind; [apply keeps_get_any|]. intros en _.
  eapply keeps_bind; [apply keeps_JSON_stringify|]. intros enText _.
  eapply keeps_bind; [apply keeps_JSON_parse|]. intros updatedEn Hen.
  eapply keeps_bind; [apply keeps_get_any|]. intros ar _.
  eapply keeps_bind; [apply keeps_JSON_stringify|]. intros arText _.
  eapply keeps_bind; [apply keeps_JSON_parse|]. intros updatedAr Har.
  eapply keeps_bind;
    [apply keeps_update_event_description; assumption|]. intros _ _.
  eapply keeps_bind;
    [apply keeps_update_event_description; assumption|]. intros _ _.
  apply keeps_new_object_created. simpl. repeat constructor; assumption.
Qed.

Lemma keeps_build_fields (fields : list (string * json)) :
  keeps h0 (eff_map (fun field => perform v := build (snd field) in
                                  ret (fst field, v)) fields)
        (Forall (fun p => fresh_value n (snd p))).
Proof.
  apply keeps_eff_map, Forall_forall. intros [k t] _. simpl.
  eapply keeps_bind; [apply keeps_build|]. intros v Hv. by apply keeps_ret.
Qed.

Lemma keeps_mapCrmEventForUpdate crmEvent existing :
  keeps h0 (mapCrmEventForUpdate crmEvent existing) (created_object n).
Proof.
  unfold mapCrmEventForUpdate.
  eapply keeps_bind; [apply keeps_lift_rand|]. intros socialTree _.
  eapply keeps_bind; [apply keeps_build_fields|]. intros fields Hfields.
  eapply keeps_bind; [apply keeps_get_any|]. intros existingBlocks _.
  eapply keeps_bind.
  - destruct (truthy existingBlocks).
    + eapply keeps_weaken; [apply keeps_updatePageBlocks|].
      apply created_fresh.
    + eapply keeps_bind; [apply keeps_lift_rand|]. intros fresh _.
      apply keeps_build.
  - intros pageBlocks Hpb. apply keeps_new_object_created. simpl.
    rewrite fmap_app. apply Forall_app. split.
    + by apply Forall_fmap.
    + repeat constructor. exact Hpb.
Qed.

End Frames.

Section Unchanged.

Local Open Scope list_scope.

(** The JSON text of a value is the same with more fuel and in a larger
    heap. *)
Lemma serialize_mono fuel fuel' (h created : heap) v text :
  serialize fuel h v = Some text -> fuel <= fuel' ->
  serialize fuel' (h ++ created) v = Some text.
Proof.
  revert fuel' v text.
  induction fuel as [|fuel IH]; intros [|fuel'] v text; simpl; try done;
    try lia.
  intros Hs Hle. destruct v as [| | | | |l]; try done.
  destruct (h !! l) as [o|] eqn:Ho; [|done].
  rewrite (lookup_app_l_Some _ _ _ _ Ho).
  destruct o as [props|elems props].
  - apply fmap_Some in Hs as (ts & Hts & ->).
    apply mapM_Some in Hts. apply fmap_Some. exists ts. split; [|done].
    apply mapM_Some. eapply Forall2_impl; [exact Hts|].
    intros [k x] [k' t] Hx. simpl in *.
    apply fmap_Some in Hx as (t' & Ht' & [= -> ->]).
    apply fmap_Some. exists t'. split; [|done]. apply IH; [done|lia].
  - apply fmap_Some in Hs as (ts & Hts & ->).
    apply mapM_Some in Hts. apply fmap_Some. exists ts. split; [|done].
    apply mapM_Some. eapply Forall2_impl; [exact Hts|].
    intros x t Hx. apply IH; [done|lia].
Qed.

Lemma keeps_leaves_unchanged (m : Eff value) w :
  keeps (objects w) m (created_object (length (objects w))) ->
  leaves_unchanged w (m w).
Proof.
  intros Hm. specialize (Hm w (extends_refl (objects w))).
  unfold leaves_unchanged.
  assert (Hext : extends (objects w) (objects (final_world (m w)))
                 /\ match m w with
                    | Return v _ => created_object (length (objects w)) v
                    | Throw _ _ => True
                    end).
  { destruct (m w); simpl; tauto. }
  clear Hm. destruct Hext as [Hext Hret].
  set (w' := final_world (m w)) in *. clearbody w'.
  split; [|split; [|split; [|split]]]; try exact Hret.
  - destruct Hext as (created & -> & _). by apply prefix_app_r.
  - destruct Hext as (created & -> & _). intros l x Hl.
    by apply lookup_app_l_Some.
  - destruct Hext as (created & Hh & _). intros v text.
    unfold JSON_stringify. destruct v as [| | | | |l]; try done.
    + intros [= <-]. reflexivity.
    + intros [= <-]. reflexivity.
    + intros [= <-]. reflexivity.
    + intros [= <-]. reflexivity.
    + destruct (serialize (S (length (objects w))) (objects w) (VRef l))
        as [t|] eqn:Hs; [|done].
      intros [= <-]. rewrite Hh.
      rewrite (serialize_mono _ (S (length (objects w ++ created))) _ _ _ _ Hs);
        [done|]. rewrite length_app. lia.
  - intros l x Hl Hx. by eapply created_lookup.
Qed.

(** C10. No mutation of the prior document: whatever the CRM event, the
    existing page blocks (or document) and the state the call starts in,
    and whether the call returns or throws, every object that existed
    before the call is found unchanged after it and every value has the JSON
    text it had before; the structure that [updatePageBlocks] and
    [mapCrmEventForUpdate] return is a newly created object, and no object
    created by the call refers to an object that existed before it. *)
Theorem update_leaves_existing_unchanged (crmEvent : CrmEvent)
    (existing : value) (w : World) :
  leaves_unchanged w (updatePageBlocks existing crmEvent w)
  /\ leaves_unchanged w (mapCrmEventForUpdate crmEvent existing w).
Proof.
  split.
  - apply keeps_leaves_unchanged, keeps_updatePageBlocks.
  - apply keeps_leaves_unchanged, keeps_mapCrmEventForUpdate.
Qed.

End Unchanged.

(** ** Update path: the merge *)

Section Merge.

Local Open Scope list_scope.
Import Samples.

(** C5 (the code departs from the claim). The claim has a locale whose
    Event-Description position does not exist returned unchanged, never a
    failure. For a prior document whose Arabic locale is [null] the update
    throws a [TypeError] (the guard reads [contentData] of [null]); for one
    that has no Arabic locale it throws a [SyntaxError] (parsing the text of
    [undefined]); for one whose Arabic locale is an object without blocks it
    returns, with the Arabic locale as it was. *)
Theorem updatePageBlocks_throws_without_locale :
  update_outcome (prior_blocks [("ar", JNull)]) crm_plain = inr TypeError
  /\ update_outcome (prior_blocks []) crm_plain = inr SyntaxError
  /\ (exists english,
        update_outcome (prior_blocks [("ar", JObj [])]) crm_plain
        = inl (Some (JObj [("en-US", english); ("ar", JObj [])]))
        /\ text_field "udi" <$> items_of (default JNull (field "contentData" english))
           = text_field "udi"
             <$> items_of (default JNull (field "contentData" prior_english))).
Proof.
  split; [by vm_compute|]. split; [by vm_compute|].
  eexists. split; vm_compute; reflexivity.
Qed.

(** *** Texts in the heap *)

Lemma built_le h lo hi vs ts : built h lo hi vs ts -> lo <= hi.
Proof. induction 1; lia. Qed.

Lemma built_mono h created lo hi vs ts :
  built h lo hi vs ts -> built (h ++ created) lo hi vs ts.
Proof.
  induction 1;
    [apply built_nil|eapply built_prim|eapply built_arr|eapply built_obj];
    eauto using lookup_app_l_Some.
Qed.

Lemma built_app h lo mid hi vs1 ts1 vs2 ts2 :
  built h lo mid vs1 ts1 -> built h mid hi vs2 ts2 ->
  built h lo hi (vs1 ++ vs2) (ts1 ++ ts2).
Proof.
  induction 1; intros Htail; simpl;
    [done|eapply built_prim|eapply built_arr|eapply built_obj]; eauto.
Qed.

Lemma built_represents h lo hi vs ts (P : loc -> Prop) :
  built h lo hi vs ts -> (forall l, lo <= l < hi -> P l) -> represents h P vs ts.
Proof.
  induction 1 as [lo|lo hi v t vs ts Hp Hb IH
                  |lo l hi elems props items vs ts Hl Hb1 IH1 Hb2 IH2
                  |lo l hi props fields vs ts Hl Hk Hb1 IH1 Hb2 IH2];
    intros HP.
  - apply represents_nil.
  - apply represents_prim; auto.
  - apply built_le in Hb1 as ?. apply built_le in Hb2 as ?.
    eapply represents_arr; [apply HP; lia|done|apply IH1|apply IH2];
      intros; apply HP; lia.
  - apply built_le in Hb1 as ?. apply built_le in Hb2 as ?.
    eapply represents_obj; [apply HP; lia|done|done|apply IH1|apply IH2];
      intros; apply HP; lia.
Qed.

Lemma represents_weaken h (P Q : loc -> Prop) vs ts :
  represents h P vs ts -> (forall l, P l -> Q l) -> represents h Q vs ts.
Proof.
  induction 1; intros HPQ;
    [apply represents_nil|eapply represents_prim|eapply represents_arr
    |eapply represents_obj]; eauto.
Qed.

(** A frame rule: a text depends on the objects it goes through only. *)
Lemma represents_frame h h' (P : loc -> Prop) vs ts :
  represents h P vs ts -> (forall l, P l -> h' !! l = h !! l) ->
  represents h' P vs ts.
Proof.
  induction 1; intros Hagree;
    [apply represents_nil|eapply represents_prim|eapply represents_arr
    |eapply represents_obj]; eauto; by rewrite Hagree.
Qed.

Lemma represents_app h P vs1 ts1 vs2 ts2 :
  represents h P vs1 ts1 -> represents h P vs2 ts2 ->
  represents h P (vs1 ++ vs2) (ts1 ++ ts2).
Proof.
  induction 1; intros Htail; simpl;
    [done|eapply represents_prim|eapply represents_arr|eapply represents_obj];
    eauto.
Qed.

Lemma represents_defined h P vs ts :
  represents h P vs ts -> Forall (fun v => v <> VUndefined) vs.
Proof.
  induction 1 as [|v t vs ts Hp _ IH| |]; constructor; try done.
  by destruct v.
Qed.

Lemma represents_length h P vs ts : represents h P vs ts -> length vs = length ts.
Proof. induction 1; simpl; congruence. Qed.

Lemma serialize_fuel fuel fuel' h v text :
  serialize fuel h v = Some text -> fuel <= fuel' ->
  serialize fuel' h v = Some text.
Proof.
  intros Hs Hle. rewrite <- (app_nil_r h). by eapply serialize_mono.
Qed.

Lemma serialize_all_fuel fuel fuel' h vs ts :
  mapM (serialize fuel h) vs = Some ts -> fuel <= fuel' ->
  mapM (serialize fuel' h) vs = Some ts.
Proof.
  intros Hs Hle. apply mapM_Some. apply mapM_Some in Hs.
  eapply Forall2_impl; [exact Hs|]. intros v t Hv.
  eapply serialize_fuel; [exact Hv|exact Hle].
Qed.

Lemma serialize_props fuel h (props : list (string * value))
    (fields : list (string * json)) :
  fst <$> props = fst <$> fields ->
  mapM (serialize fuel h) (snd <$> props) = Some (snd <$> fields) ->
  mapM (fun p => pair (fst p) <$> serialize fuel h (snd p)) props = Some fields.
Proof.
  intros Hk Hv. apply mapM_Some. apply mapM_Some in Hv.
  revert fields Hk Hv.
  induction props as [|[k v] props IH]; intros [|[k' t] fields] Hk Hv;
    simpl in *; try discriminate.
  - constructor.
  - injection Hk as -> Hk. apply Forall2_cons in Hv as [Hv Hvs].
    constructor; [simpl in *; by rewrite Hv|by apply IH].
Qed.

Lemma filter_defined (props : list (string * value)) :
  Forall (fun v => v <> VUndefined) (snd <$> props) ->
  List.filter defined props = props.
Proof.
  induction props as [|[k v] props IH]; simpl; [done|].
  intros [Hv Hprops]%Forall_cons. rewrite IH by done.
  unfold defined. simpl. by destruct v.
Qed.

(** A represented value has its text as JSON text, with enough fuel. *)
Lemma represents_serialize h P vs ts :
  represents h P vs ts -> exists fuel, mapM (serialize fuel h) vs = Some ts.
Proof.
  induction 1 as [|v t vs ts Hp Hr [f IH]
                  |l elems props items vs ts HP Hl Hr1 [f1 IH1] Hr2 [f2 IH2]
                  |l props fields vs ts HP Hl Hk Hr1 [f1 IH1] Hr2 [f2 IH2]].
  - by exists 0.
  - exists (S f). apply mapM_Some. constructor.
    + by destruct v; simplify_eq/=.
    + apply mapM_Some. eapply serialize_all_fuel; [done|lia].
  - exists (S (f1 `max` f2)). apply mapM_Some. constructor.
    + simpl. rewrite Hl.
      rewrite (serialize_all_fuel f1 _ _ _ _ IH1) by lia. done.
    + apply mapM_Some. eapply serialize_all_fuel; [done|lia].
  - exists (S (f1 `max` f2)). apply mapM_Some. constructor.
    + simpl. rewrite Hl.
      rewrite filter_defined by by eapply represents_defined.
      erewrite serialize_props; [done|done|].
      eapply serialize_all_fuel; [done|lia].
    + apply mapM_Some. eapply serialize_all_fuel; [done|lia].
Qed.

(** *** What [build] leaves in the heap *)

Lemma bind_Return {A B} (m : Eff A) (k : A -> Eff B) w a w' :
  m w = Return a w' -> bind m k w = k a w'.
Proof. intros H. unfold bind. by rewrite H. Qed.

Lemma bind_Throw {A B} (m : Eff A) (k : A -> Eff B) w e w' :
  m w = Throw e w' -> bind m k w = Throw e w'.
Proof. intros H. unfold bind. by rewrite H. Qed.

Lemma eff_map_cons {A B} (f : A -> Eff B) x xs :
  eff_map f (x :: xs)
  = perform y := f x in perform ys := eff_map f xs in ret (y :: ys).
Proof. reflexivity. Qed.

Lemma eff_map_builds items :
  Forall builds items ->
  forall w, exists vs created,
    eff_map build items w = Return vs (mkWorld (objects w ++ created) (rng w))
    /\ built (objects w ++ created) (length (objects w))
             (length (objects w) + length created) vs items.
Proof.
  induction 1 as [|t items Ht _ IH]; intros w.
  - exists [], []. rewrite app_nil_r, Nat.add_0_r. destruct w.
    split; [done|apply built_nil].
  - destruct (Ht w) as (v & c1 & Hv & Hb1).
    destruct (IH (mkWorld (objects w ++ c1) (rng w))) as (vs & c2 & Hvs & Hb2).
    exists (v :: vs), (c1 ++ c2). simpl in *. unfold bind.
    rewrite Hv, Hvs. simpl. rewrite !app_assoc. split; [done|].
    rewrite <- app_assoc in Hb2. rewrite <- !app_assoc.
    rewrite length_app in *.
    apply (built_app _ _ (length (objects w) + length c1) _ [v] [t]).
    + rewrite app_assoc. by apply built_mono.
    + rewrite Nat.add_assoc. exact Hb2.
Qed.

Lemma eff_map_builds_fields (fields : list (string * json)) :
  Forall (fun f => builds (snd f)) fields ->
  forall w, exists props created,
    eff_map (fun field => perform v := build (snd field) in ret (fst field, v))
            fields w
    = Return props (mkWorld (objects w ++ created) (rng w))
    /\ fst <$> props = fst <$> fields
    /\ built (objects w ++ created) (length (objects w))
             (length (objects w) + length created)
             (snd <$> props) (snd <$> fields).
Proof.
  induction 1 as [|[k t] fields Ht _ IH]; intros w.
  - exists [], []. rewrite app_nil_r, Nat.add_0_r. destruct w.
    split; [done|]. split; [done|apply built_nil].
  - destruct (Ht w) as (v & c1 & Hv & Hb1).
    destruct (IH (mkWorld (objects w ++ c1) (rng w)))
      as (props & c2 & Hps & Hk & Hb2).
    exists ((k, v) :: props), (c1 ++ c2). simpl in Hps, Hb2, Hb1.
    rewrite eff_map_cons.
    erewrite bind_Return; [|erewrite bind_Return; [|exact Hv]; reflexivity].
    erewrite bind_Return; [|exact Hps]. unfold ret. simpl.
    rewrite !app_assoc.
    split; [done|]. split; [f_equal; exact Hk|].
    rewrite <- app_assoc in Hb2. rewrite <- !app_assoc.
    rewrite length_app in *.
    apply (built_app _ _ (length (objects w) + length c1) _ [v] [t]).
    + rewrite app_assoc. by apply built_mono.
    + rewrite Nat.add_assoc. exact Hb2.
Qed.

Lemma build_JArr items :
  build (JArr items)
  = perform elems := eff_map build items in new_object (Arr elems []).
Proof. reflexivity. Qed.

Lemma build_JObj fields :
  build (JObj fields)
  = perform props :=
      eff_map (fun field => perform v := build (snd field) in
                            ret (fst field, v)) fields in
    new_object (Obj props).
Proof. reflexivity. Qed.

Lemma build_builds t : builds t.
Proof.
  induction t as [|b|z|s|items IH|fields IH] using json_rect'; intros w.
  1-4: eexists _, []; rewrite app_nil_r, Nat.add_0_r; destruct w;
       (split; [reflexivity|]); (apply built_prim; [reflexivity|apply built_nil]).
  - destruct (eff_map_builds items IH w) as (elems & c & He & Hb).
    exists (VRef (length (objects w ++ c))), (c ++ [Arr elems []]).
    rewrite build_JArr. erewrite bind_Return; [|exact He].
    unfold new_object. simpl.
    rewrite !app_assoc. split; [done|].
    rewrite !length_app. simpl. rewrite Nat.add_assoc, Nat.add_1_r.
    eapply built_arr; [|by apply built_mono, Hb|apply built_nil].
    rewrite <- length_app. by apply list_lookup_middle.
  - destruct (eff_map_builds_fields fields IH w) as (props & c & Hp & Hk & Hb).
    exists (VRef (length (objects w ++ c))), (c ++ [Obj props]).
    rewrite build_JObj. erewrite bind_Return; [|exact Hp].
    unfold new_object. simpl.
    rewrite !app_assoc. split; [done|].
    rewrite !length_app. simpl. rewrite Nat.add_assoc, Nat.add_1_r.
    eapply built_obj; [|done|by apply built_mono, Hb|apply built_nil].
    rewrite <- length_app. by apply list_lookup_middle.
Qed.

(** *** Taking a laid-out text apart *)

Lemma built_length h lo hi vs ts : built h lo hi vs ts -> length vs = length ts.
Proof. induction 1; simpl; congruence. Qed.

Lemma built_cons_inv h lo hi v vs t ts :
  built h lo hi (v :: vs) (t :: ts) ->
  exists mid, built h lo mid [v] [t] /\ built h mid hi vs ts.
Proof.
  inversion 1; subst.
  - exists lo. split; [|done]. apply built_prim; [done|apply built_nil].
  - exists (S l). split; [|done].
    eapply built_arr; [done|done|apply built_nil].
  - exists (S l). split; [|done].
    eapply built_obj; [done|done|done|apply built_nil].
Qed.

Lemma built_frame h h' lo hi vs ts :
  built h lo hi vs ts -> (forall l, lo <= l < hi -> h' !! l = h !! l) ->
  built h' lo hi vs ts.
Proof.
  induction 1 as [lo|lo hi v t vs ts Hp Hb IH
                  |lo l hi elems props items vs ts Hl Hb1 IH1 Hb2 IH2
                  |lo l hi props fields vs ts Hl Hk Hb1 IH1 Hb2 IH2];
    intros Hagree.
  - apply built_nil.
  - apply built_prim; auto.
  - apply built_le in Hb1 as ?. apply built_le in Hb2 as ?.
    eapply built_arr; [rewrite Hagree by lia; done|apply IH1|apply IH2];
      intros; apply Hagree; lia.
  - apply built_le in Hb1 as ?. apply built_le in Hb2 as ?.
    eapply built_obj; [rewrite Hagree by lia; done|done|apply IH1|apply IH2];
      intros; apply Hagree; lia.
Qed.

Lemma represents_cons_inv h P v vs t ts :
  represents h P (v :: vs) (t :: ts) ->
  represents h P [v] [t] /\ represents h P vs ts.
Proof.
  inversion 1; subst; (split; [|done]).
  - apply represents_prim; [done|apply represents_nil].
  - eapply represents_arr; [done|done|done|apply represents_nil].
  - eapply represents_obj; [done|done|done|done|apply represents_nil].
Qed.

Lemma represents_cons h P v vs t ts :
  represents h P [v] [t] -> represents h P vs ts ->
  represents h P (v :: vs) (t :: ts).
Proof. intros H1 H2. exact (represents_app _ _ [v] [t] vs ts H1 H2). Qed.

(** A laid-out text is represented in every heap that agrees with the
    heap on its locations. *)
Lemma built_represents_framed h h' lo hi vs ts (P : loc -> Prop) :
  built h lo hi vs ts ->
  (forall l, lo <= l < hi -> h' !! l = h !! l) ->
  (forall l, lo <= l < hi -> P l) ->
  represents h' P vs ts.
Proof.
  intros Hb Hagree HP.
  eapply represents_weaken; [|exact HP].
  eapply represents_frame; [|exact Hagree].
  by eapply built_represents.
Qed.

(** A field of a laid-out object: where its value lies, and that the other
    fields do not depend on it. *)
Lemma fields_lookup h lo hi (props : list (string * value))
    (fields : list (string * json)) k :
  fst <$> props = fst <$> fields ->
  built h lo hi (snd <$> props) (snd <$> fields) ->
  match assoc k fields with
  | None => assoc k props = None
  | Some f =>
    exists x lo' hi',
      assoc k props = Some x /\ built h lo' hi' [x] [f]
      /\ lo <= lo' /\ hi' <= hi
      /\ forall h' (P : loc -> Prop) f',
           (forall l, lo <= l < hi -> ~ (lo' <= l < hi') -> h' !! l = h !! l) ->
           (forall l, lo <= l < hi -> ~ (lo' <= l < hi') -> P l) ->
           represents h' P [x] [f'] ->
           represents h' P (snd <$> props) (snd <$> assoc_set k f' fields)
           /\ fst <$> props = fst <$> assoc_set k f' fields
  end.
Proof.
  revert lo fields.
  induction props as [|[k0 v0] props IH]; intros lo [|[k1 f0] fields] Hk Hb;
    simpl in Hk; try discriminate; [done|].
  injection Hk as <- Hk. rewrite !fmap_cons in Hb. simpl in Hb.
  apply built_cons_inv in Hb as (mid & Hhead & Htail).
  apply built_le in Hhead as Hle1. apply built_le in Htail as Hle2.
  simpl. destruct (String.eqb_spec k k0) as [->|Hne].
  - exists v0, lo, mid. repeat (split; [done || lia|]).
    intros h' P f' Hagree HP Hx. split; [|simpl; f_equal; exact Hk].
    rewrite !fmap_cons. apply represents_cons; [exact Hx|].
    eapply built_represents_framed; [exact Htail| |];
      intros l Hl; [apply Hagree|apply HP]; lia.
  - specialize (IH mid fields Hk Htail).
    destruct (assoc k fields) as [f|]; [|exact IH].
    destruct IH as (x & lo' & hi' & Hx & Hbx & Hlo & Hhi & Hrest).
    exists x, lo', hi'. repeat (split; [done || lia|]).
    intros h' P f' Hagree HP Hx'.
    destruct (Hrest h' P f') as [Hr Hkeys]; try done.
    { intros l Hl Hout. apply Hagree; lia. }
    { intros l Hl Hout. apply HP; lia. }
    split; [|simpl; f_equal; exact Hkeys].
    rewrite !fmap_cons. apply represents_cons; [|exact Hr].
    eapply built_represents_framed; [exact Hhead| |];
      intros l Hl; [apply Hagree|apply HP]; lia.
Qed.

(** Assigning to a field and removing a field keep an object and its text
    in step. *)
Lemma represents_assoc_set h P (props : list (string * value))
    (fields : list (string * json)) k x f :
  fst <$> props = fst <$> fields ->
  represents h P (snd <$> props) (snd <$> fields) ->
  represents h P [x] [f] ->
  fst <$> assoc_set k x props = fst <$> assoc_set k f fields
  /\ represents h P (snd <$> assoc_set k x props) (snd <$> assoc_set k f fields).
Proof.
  intros Hk Hr Hx. revert fields Hk Hr.
  induction props as [|[k0 v0] props IH]; intros [|[k1 f0] fields] Hk Hr;
    simpl in Hk; try discriminate.
  - by split.
  - injection Hk as <- Hk. rewrite !fmap_cons in Hr. simpl in Hr.
    apply represents_cons_inv in Hr as [Hhead Htail].
    simpl. destruct (String.eqb k k0).
    + split; [simpl; f_equal; exact Hk|].
      rewrite !fmap_cons. by apply represents_cons.
    + destruct (IH fields Hk Htail) as [Hk' Hr'].
      split; [simpl; f_equal; exact Hk'|].
      rewrite !fmap_cons. by apply represents_cons.
Qed.

Lemma represents_assoc_delete h P (props : list (string * value))
    (fields : list (string * json)) k :
  fst <$> props = fst <$> fields ->
  represents h P (snd <$> props) (snd <$> fields) ->
  fst <$> assoc_delete k props = fst <$> assoc_delete k fields
  /\ represents h P (snd <$> assoc_delete k props) (snd <$> assoc_delete k fields).
Proof.
  revert fields.
  induction props as [|[k0 v0] props IH]; intros [|[k1 f0] fields] Hk Hr;
    simpl in Hk; try discriminate.
  - by split.
  - injection Hk as <- Hk. rewrite !fmap_cons in Hr. simpl in Hr.
    apply represents_cons_inv in Hr as [Hhead Htail].
    simpl. destruct (String.eqb k k0); [by split|].
    destruct (IH fields Hk Htail) as [Hk' Hr'].
    split; [simpl; f_equal; exact Hk'|].
    rewrite !fmap_cons. by apply represents_cons.
Qed.

(** *** The assignments to the block *)

Lemma set_Obj l k x props h g :
  h !! l = Some (Obj props) ->
  set (VRef l) k x (mkWorld h g)
  = Return tt (mkWorld (<[l := Obj (assoc_set k x props)]> h) g).
Proof. intros H. unfold set. simpl. by rewrite H. Qed.

Lemma delete_Obj l k props h g :
  h !! l = Some (Obj props) ->
  delete_prop (VRef l) k (mkWorld h g)
  = Return tt (mkWorld (<[l := Obj (assoc_delete k props)]> h) g).
Proof. intros H. unfold delete_prop. simpl. by rewrite H. Qed.

Lemma overwriting_start h lb p :
  h !! lb = Some (Obj p) -> overwriting h lb h p.
Proof. by intros H. Qed.

Lemma overwriting_insert h lb hc p p' :
  overwriting h lb hc p -> overwriting h lb (<[lb := Obj p']> hc) p'.
Proof.
  intros (Hlen & Hlb & Hold). split; [by rewrite length_insert|]. split.
  - apply list_lookup_insert_eq. by eapply lookup_lt_Some.
  - intros l Hl Hne. rewrite list_lookup_insert_ne by done. by apply Hold.
Qed.

Lemma overwriting_app h lb hc p created :
  overwriting h lb hc p -> overwriting h lb (hc ++ created) p.
Proof.
  intros (Hlen & Hlb & Hold). split; [rewrite length_app; lia|]. split.
  - by apply lookup_app_l_Some.
  - intros l Hl Hne. rewrite lookup_app_l by lia. by apply Hold.
Qed.

(** Objects created during the assignments stay as they are. *)
Lemma built_insert_below h lb o lo hi vs ts :
  built h lo hi vs ts -> lb < lo -> built (<[lb := o]> h) lo hi vs ts.
Proof.
  intros Hb Hlt. eapply built_frame; [exact Hb|].
  intros l Hl. apply list_lookup_insert_ne. lia.
Qed.

Section Block.

Variables (h : heap) (Pb Ps : loc -> Prop) (lb : loc).
Hypothesis Hlb : lb < length h.
Hypothesis Hbelow : forall l, Pb l \/ Ps l -> l < length h /\ l <> lb.

Lemma footprint_not_block hc l : footprint h Pb Ps hc l -> l <> lb.
Proof.
  intros [H|[H|H]]; [apply Hbelow; auto|apply Hbelow; auto|lia].
Qed.

Lemma footprint_below hc l :
  length h <= length hc -> footprint h Pb Ps hc l -> l < length hc.
Proof.
  intros Hlen [H|[H|H]]; [|  |lia];
    (assert (l < length h) by (apply Hbelow; auto)); lia.
Qed.

(** Values keep their texts when the block is assigned to and when
    objects are created. *)
Lemma value_insert hc o vs ts :
  represents hc (footprint h Pb Ps hc) vs ts ->
  represents (<[lb := o]> hc) (footprint h Pb Ps (<[lb := o]> hc)) vs ts.
Proof.
  intros Hr. eapply represents_weaken.
  - eapply represents_frame; [exact Hr|]. intros l Hl.
    apply list_lookup_insert_ne. intros E.
    exact (footprint_not_block hc l Hl (eq_sym E)).
  - intros l. unfold footprint. by rewrite length_insert.
Qed.

Lemma value_app hc created vs ts :
  length h <= length hc ->
  represents hc (footprint h Pb Ps hc) vs ts ->
  represents (hc ++ created) (footprint h Pb Ps (hc ++ created)) vs ts.
Proof.
  intros Hlen Hr. eapply represents_weaken.
  - eapply represents_frame; [exact Hr|]. intros l Hl.
    apply lookup_app_l. by eapply footprint_below.
  - intros l. unfold footprint. rewrite length_app. intuition lia.
Qed.

Lemma value_created hc created v t :
  length h <= length hc ->
  built (hc ++ created) (length hc) (length hc + length created) [v] [t] ->
  represents (hc ++ created) (footprint h Pb Ps (hc ++ created)) [v] [t].
Proof.
  intros Hlen Hb. eapply built_represents; [exact Hb|].
  intros l Hl. unfold footprint. rewrite length_app. right. right. lia.
Qed.

Lemma merging_set hc p fields k x f :
  merging h Pb Ps lb hc p fields ->
  represents hc (footprint h Pb Ps hc) [x] [f] ->
  merging h Pb Ps lb (<[lb := Obj (assoc_set k x p)]> hc)
          (assoc_set k x p) (assoc_set k f fields).
Proof.
  intros (Hov & Hk & Hr) Hx.
  destruct (represents_assoc_set _ _ p fields k x f Hk Hr Hx) as [Hk' Hr'].
  split; [by eapply overwriting_insert|]. split; [exact Hk'|].
  by apply value_insert.
Qed.

Lemma merging_delete hc p fields k :
  merging h Pb Ps lb hc p fields ->
  merging h Pb Ps lb (<[lb := Obj (assoc_delete k p)]> hc)
          (assoc_delete k p) (assoc_delete k fields).
Proof.
  intros (Hov & Hk & Hr).
  destruct (represents_assoc_delete _ _ p fields k Hk Hr) as [Hk' Hr'].
  split; [by eapply overwriting_insert|]. split; [exact Hk'|].
  by apply value_insert.
Qed.

Lemma merging_app hc p fields created :
  merging h Pb Ps lb hc p fields ->
  merging h Pb Ps lb (hc ++ created) p fields.
Proof.
  intros (Hov & Hk & Hr).
  split; [by apply overwriting_app|]. split; [exact Hk|].
  apply value_app; [apply Hov|exact Hr].
Qed.

Lemma merging_lookup hc p fields :
  merging h Pb Ps lb hc p fields -> hc !! lb = Some (Obj p).
Proof. by intros ((_ & Hl & _) & _). Qed.

Lemma merging_block hc p fields :
  merging h Pb Ps lb hc p fields ->
  represents hc (fun l => l = lb \/ footprint h Pb Ps hc l)
             [VRef lb] [JObj fields].
Proof.
  intros ((Hlen & Hl & Hold) & Hk & Hr).
  eapply represents_obj; [by left|exact Hl|exact Hk| |apply represents_nil].
  eapply represents_weaken; [exact Hr|]. by right.
Qed.

End Block.

Lemma overwrite_event_fields_merge h g lb bprops bf crmEvent v_s t_s target
    (Pb Ps : loc -> Prop) :
  lb < length h ->
  (forall l, Pb l \/ Ps l -> l < length h /\ l <> lb) ->
  h !! lb = Some (Obj bprops) ->
  fst <$> bprops = fst <$> bf ->
  represents h Pb (snd <$> bprops) (snd <$> bf) ->
  represents h Ps [v_s] [t_s] ->
  exists h',
    overwrite_event_fields (VRef lb) crmEvent v_s target (mkWorld h g)
    = Return tt (mkWorld h' g)
    /\ length h <= length h'
    /\ (forall l, l < length h -> l <> lb -> h' !! l = h !! l)
    /\ represents h' (fun l => l = lb \/ footprint h Pb Ps h' l) [VRef lb]
         [merge_event_description crmEvent t_s target (JObj bf)].
Proof.
  intros Hlb Hbelow Hl Hk Hr Hs.
  assert (M0 : merging h Pb Ps lb h bprops bf).
  { split; [by apply overwriting_start|]. split; [exact Hk|].
    eapply represents_weaken; [exact Hr|]. intros l ?. by left. }
  assert (S0 : represents h (footprint h Pb Ps h) [v_s] [t_s]).
  { eapply represents_weaken; [exact Hs|]. intros l ?. right. by left. }
  unfold overwrite_event_fields, merge_event_description.
  (* the description *)
  destruct (build_builds (description_of crmEvent) (mkWorld h g))
    as (v_d & c_d & Hbd & Hd). cbn [objects rng] in Hbd, Hd.
  erewrite bind_Return; [|exact Hbd].
  assert (M1 : merging h Pb Ps lb (h ++ c_d) bprops bf)
    by (eapply merging_app; eassumption).
  assert (S1 : represents (h ++ c_d) (footprint h Pb Ps (h ++ c_d)) [v_s] [t_s])
    by (eapply value_app; try eassumption; lia).
  assert (D1 : represents (h ++ c_d) (footprint h Pb Ps (h ++ c_d)) [v_d]
                 [description_of crmEvent])
    by (eapply value_created; try eassumption; lia).
  erewrite bind_Return; [|apply set_Obj; eapply merging_lookup, M1].
  cbn [objects rng].
  set (p1 := assoc_set "description" v_d bprops) in *.
  match goal with |- context [mkWorld ?hh g] => set (h1 := hh) in * end.
  assert (M2 : merging h Pb Ps lb h1 p1
                 (assoc_set "description" (description_of crmEvent) bf))
    by (eapply merging_set; eassumption).
  assert (S2 : represents h1 (footprint h Pb Ps h1) [v_s] [t_s])
    by (eapply value_insert; eassumption).
  clearbody h1. clear M1 S1 D1 Hbd Hd M0 S0.
  (* the organiser name *)
  erewrite bind_Return; [|apply set_Obj; eapply merging_lookup, M2].
  cbn [objects rng].
  set (name := or_else (eventOrganiser crmEvent) "") in *.
  set (p2 := assoc_set "organiserName" (VStr name) p1) in *.
  match goal with |- context [mkWorld ?hh g] => set (h2 := hh) in * end.
  assert (M3 : merging h Pb Ps lb h2 p2
                 (assoc_set "organiserName" (JStr name)
                    (assoc_set "description" (description_of crmEvent) bf))).
  { eapply merging_set; try eassumption.
    apply represents_prim; [done|apply represents_nil]. }
  assert (S3 : represents h2 (footprint h Pb Ps h2) [v_s] [t_s])
    by (eapply value_insert; eassumption).
  clearbody h2. clear M2 S2.
  assert (Hlen : length h <= length h2) by apply M3.
  (* the organiser website *)
  destruct (truthy_text (websiteURL crmEvent)) as [url|].
  - destruct (build_builds (organiser_link target url) (mkWorld h2 g))
      as (v_w & c_w & Hbw & Hw).
    cbn [objects rng] in Hbw, Hw.
    assert (M4 : merging h Pb Ps lb (h2 ++ c_w) p2
                   (assoc_set "organiserName" (JStr name)
                      (assoc_set "description" (description_of crmEvent) bf)))
      by (eapply merging_app; eassumption).
    assert (S4 : represents (h2 ++ c_w) (footprint h Pb Ps (h2 ++ c_w))
                   [v_s] [t_s])
      by (eapply value_app; eassumption).
    assert (W4 : represents (h2 ++ c_w) (footprint h Pb Ps (h2 ++ c_w)) [v_w]
                   [organiser_link target url])
      by (eapply value_created; eassumption).
    erewrite bind_Return;
      [|erewrite bind_Return; [|exact Hbw];
        apply set_Obj; eapply merging_lookup, M4].
    cbn [objects rng].
    set (p3 := assoc_set "organiserWebsite" v_w p2) in *.
    match goal with |- context [mkWorld ?hh g] => set (h3 := hh) in * end.
    assert (M5 : merging h Pb Ps lb h3 p3
                   (assoc_set "organiserWebsite" (organiser_link target url)
                      (assoc_set "organiserName" (JStr name)
                         (assoc_set "description" (description_of crmEvent) bf))))
      by (eapply merging_set; eassumption).
    assert (S5 : represents h3 (footprint h Pb Ps h3) [v_s] [t_s])
      by (eapply value_insert; eassumption).
    clearbody h3. clear M4 S4 W4 Hbw Hw M3 S3.
    eexists. split; [apply set_Obj; eapply merging_lookup, M5|].
    assert (M6 := merging_set _ _ _ _ Hlb Hbelow _ _ _ "socialNetworks" _ _ M5 S5).
    split; [apply M6|]. split; [apply M6|].
    eapply merging_block. exact M6.
  - erewrite bind_Return; [|apply delete_Obj; eapply merging_lookup, M3].
    cbn [objects rng].
    set (p3 := assoc_delete "organiserWebsite" p2) in *.
    match goal with |- context [mkWorld ?hh g] => set (h3 := hh) in * end.
    assert (M5 : merging h Pb Ps lb h3 p3
                   (assoc_delete "organiserWebsite"
                      (assoc_set "organiserName" (JStr name)
                         (assoc_set "description" (description_of crmEvent) bf))))
      by (eapply merging_delete; eassumption).
    assert (S5 : represents h3 (footprint h Pb Ps h3) [v_s] [t_s])
      by (eapply value_insert; eassumption).
    clearbody h3. clear M3 S3.
    eexists. split; [apply set_Obj; eapply merging_lookup, M5|].
    assert (M6 := merging_set _ _ _ _ Hlb Hbelow _ _ _ "socialNetworks" _ _ M5 S5).
    split; [apply M6|]. split; [apply M6|].
    eapply merging_block. exact M6.
Qed.

(** *** The update of one locale *)

Lemma built_obj_inv h lo hi v fields :
  built h lo hi [v] [JObj fields] ->
  exists l props,
    v = VRef l /\ hi = S l /\ h !! l = Some (Obj props)
    /\ fst <$> props = fst <$> fields
    /\ built h lo l (snd <$> props) (snd <$> fields).
Proof.
  inversion 1 as [|? ? ? ? ? ? Hp| |? l ? props ? ? ? Hl Hk Hb Hnil]; subst.
  - by destruct v.
  - inversion Hnil; subst. by exists l, props.
Qed.

Lemma built_arr_inv h lo hi v items :
  built h lo hi [v] [JArr items] ->
  exists l elems props,
    v = VRef l /\ hi = S l /\ h !! l = Some (Arr elems props)
    /\ built h lo l elems items.
Proof.
  inversion 1 as [|? ? ? ? ? ? Hp|? l ? elems props ? ? ? Hl Hb Hnil|]; subst.
  - by destruct v.
  - inversion Hnil; subst. by exists l, elems, props.
Qed.

Lemma built_null_inv h lo hi v : built h lo hi [v] [JNull] -> v = VNull.
Proof.
  inversion 1 as [|? ? ? ? ? ? Hp| |]; subst. by destruct v.
Qed.

Lemma get_Obj l k props h g :
  h !! l = Some (Obj props) ->
  get (VRef l) k (mkWorld h g)
  = Return (default VUndefined (assoc k props)) (mkWorld h g).
Proof. intros H. unfold get. simpl. by rewrite H. Qed.

Lemma get_index_Arr l i elems props h g :
  h !! l = Some (Arr elems props) ->
  get_index (VRef l) i (mkWorld h g)
  = Return (default VUndefined (elems !! i)) (mkWorld h g).
Proof. intros H. unfold get_index. simpl. by rewrite H. Qed.

(** The update of a locale whose clone is laid out in the locations from
    [lo] up to [hi] computes the merge of the locale; it assigns within
    those locations only and creates the rest. *)
Lemma update_event_description_merge h g v_b t crmEvent v_s t_s target lo hi
    (Ps : loc -> Prop) :
  built h lo hi [v_b] [t] -> hi <= length h -> mergeable t ->
  represents h Ps [v_s] [t_s] -> (forall l, Ps l -> l < lo) ->
  exists h',
    update_event_description v_b crmEvent v_s target (mkWorld h g)
    = Return tt (mkWorld h' g)
    /\ length h <= length h'
    /\ (forall l, l < length h -> ~ (lo <= l < hi) -> h' !! l = h !! l)
    /\ represents h'
         (fun l => lo <= l < hi \/ Ps l \/ length h <= l < length h')
         [v_b] [merge_locale crmEvent t_s target t].
Proof.
  intros Hb Hhi Hm Hs HPs.
  (* the outcome when nothing is assigned *)
  assert (Hskip : exists h',
    ret tt (mkWorld h g) = Return tt (mkWorld h' g)
    /\ length h <= length h'
    /\ (forall l, l < length h -> ~ (lo <= l < hi) -> h' !! l = h !! l)
    /\ represents h'
         (fun l => lo <= l < hi \/ Ps l \/ length h <= l < length h')
         [v_b] [t]).
  { exists h. repeat split; try done.
    eapply built_represents; [exact Hb|]. intros l Hl. by left. }
  destruct t as [| | | | |fields]; try done.
  destruct (built_obj_inv _ _ _ _ _ Hb) as (l0 & props & -> & -> & Hl0 & Hk & Hbf).
  unfold update_event_description.
  erewrite bind_Return; [|eapply get_Obj; exact Hl0].
  pose proof (fields_lookup h lo l0 props fields "contentData" Hk Hbf) as Hcd.
  unfold mergeable, merge_locale in *.
  destruct (assoc "contentData" fields) as [f|]; [|by rewrite Hcd].
  destruct Hcd as (x & lo' & hi' & Hx & Hbx & Hlo' & Hhi' & Hrest).
  rewrite Hx. cbn [default from_option id].
  destruct f as [| | | |items|]; try done.
  { apply built_null_inv in Hbx as ->. exact Hskip. }
  destruct (built_arr_inv _ _ _ _ _ Hbx) as (l1 & elems & ep & -> & -> & Hl1 & Hbe).
  cbn [truthy]. erewrite bind_Return; [|eapply get_index_Arr; exact Hl1].
  destruct items as [|first [|second rest]].
  { apply built_length in Hbe. destruct elems; [exact Hskip|done]. }
  { apply built_length in Hbe.
    destruct elems as [|e0 [|e1 er]]; first [discriminate Hbe|exact Hskip]. }
  destruct second as [| | | | |bf]; try done.
  destruct elems as [|e0 [|e1 erest]];
    try (apply built_length in Hbe; done).
  apply built_cons_inv in Hbe as (m0 & Hb0 & Hbe).
  apply built_cons_inv in Hbe as (m1 & Hb1 & Hbr).
  destruct (built_obj_inv _ _ _ _ _ Hb1) as (lb & bprops & -> & -> & Hlb & Hkb & Hbb).
  apply built_le in Hb0 as ?. apply built_le in Hbb as ?.
  apply built_le in Hbr as ?.
  cbn [lookup list_lookup default from_option id truthy].
  destruct (overwrite_event_fields_merge h g lb bprops bf crmEvent v_s t_s target
              (fun l => m0 <= l < lb) Ps) as (h' & Hrun & Hlen & Hold & Hblock);
    try done.
  { lia. }
  { intros l [Hl|Hl]; [lia|]. apply HPs in Hl. lia. }
  { eapply built_represents; [exact Hbb|]. done. }
  exists h'. split; [exact Hrun|]. split; [exact Hlen|].
  split; [intros l Hl Hout; apply Hold; lia|].
  set (P := fun l => lo <= l < S l0 \/ Ps l \/ length h <= l < length h').
  assert (Hblock' : represents h' P [VRef lb]
            [merge_event_description crmEvent t_s target (JObj bf)]).
  { eapply represents_weaken; [exact Hblock|]. unfold P, footprint.
    intros l [->|[Hl|[Hl|Hl]]]; [left; lia|left; lia|by right; left|by right; right]. }
  assert (Harr : represents h' P [VRef l1]
            [JArr (first
                   :: merge_event_description crmEvent t_s target (JObj bf)
                   :: rest)]).
  { eapply represents_arr; [left; lia| | |apply represents_nil].
    - rewrite Hold by lia. exact Hl1.
    - apply represents_cons.
      + eapply built_represents_framed; [exact Hb0| |];
          intros l Hl; [apply Hold|left]; lia.
      + apply represents_cons; [exact Hblock'|].
        eapply built_represents_framed; [exact Hbr| |];
          intros l Hl; [apply Hold|left]; lia. }
  destruct (Hrest h' P
              (JArr (first
                     :: merge_event_description crmEvent t_s target (JObj bf)
                     :: rest))) as [Hprops Hkeys]; [| |exact Harr|].
  { intros l Hl Hout. apply Hold; lia. }
  { intros l Hl Hout. left. lia. }
  eapply represents_obj; [left; lia| |exact Hkeys|exact Hprops|apply represents_nil].
  rewrite Hold by lia. exact Hl0.
Qed.

(** *** The update of the page blocks *)

#[local] Opaque generateGuid.

Lemma get_mono v k w x created g :
  get v k w = Return x w ->
  get v k (mkWorld (objects w ++ created) g)
  = Return x (mkWorld (objects w ++ created) g).
Proof.
  unfold get. destruct v as [| | | | |l]; try done;
    try by intros [= <-].
  cbn [objects]. destruct (objects w !! l) as [o|] eqn:Ho; [|done].
  rewrite (lookup_app_l_Some _ _ _ _ Ho).
  destruct o; by intros [= <-].
Qed.

Lemma JSON_stringify_mono v w text created g :
  JSON_stringify v w = Return (Some text) w ->
  JSON_stringify v (mkWorld (objects w ++ created) g)
  = Return (Some text) (mkWorld (objects w ++ created) g).
Proof.
  unfold JSON_stringify. cbn [objects].
  destruct v as [| | | | |l]; try done; try by intros [= <-].
  destruct (serialize (S (length (objects w))) (objects w) (VRef l))
    as [t|] eqn:Hs; [|done].
  intros [= <-].
  rewrite (serialize_mono _ (S (length (objects w ++ created))) _ _ _ _ Hs);
    [done|]. rewrite length_app. lia.
Qed.

Lemma lift_rand_Return {A} (m : Rand A) w :
  lift_rand m w = Return (fst (m (rng w))) (mkWorld (objects w) (snd (m (rng w)))).
Proof. unfold lift_rand. by destruct (m (rng w)). Qed.

Lemma mapM_singleton {A B} (f : A -> option B) x y :
  mapM f [x] = Some [y] -> f x = Some y.
Proof.
  intros H. apply mapM_Some in H. by apply Forall2_cons in H as [H _].
Qed.

(** On prior page blocks whose two locales are mergeable block lists,
    [updatePageBlocks] returns, and the JSON text of what it returns is the
    merge of the JSON texts of the two locales with the social-networks
    block list built from the CRM event. *)
Lemma updatePageBlocks_merges crmEvent existing w en_v ar_v english arabic :
  get existing "en-US" w = Return en_v w ->
  get existing "ar" w = Return ar_v w ->
  JSON_stringify en_v w = Return (Some english) w ->
  JSON_stringify ar_v w = Return (Some arabic) w ->
  mergeable english -> mergeable arabic ->
  let social := fst (buildSocialNetworksBlockList (socialMedia crmEvent) (rng w)) in
  exists v w' fuel,
    updatePageBlocks existing crmEvent w = Return v w'
    /\ serialize fuel (objects w') v
       = Some (JObj [("en-US", merge_locale crmEvent social JNull english);
                     ("ar", merge_locale crmEvent social (JStr "_blank") arabic)]).
Proof.
  intros Hgen Hgar Hten Htar Hmen Hmar social.
  unfold updatePageBlocks.
  erewrite bind_Return; [|apply lift_rand_Return]. fold social.
  set (g := snd (buildSocialNetworksBlockList (socialMedia crmEvent) (rng w))).
  clearbody social g. set (h := objects w) in *.
  (* the social-networks list *)
  destruct (build_builds social (mkWorld h g)) as (v_s & c_s & Hbs & Hs).
  cbn [objects rng] in Hbs, Hs.
  erewrite bind_Return; [|exact Hbs]. cbn [objects rng].
  (* the clone of the English locale *)
  erewrite bind_Return; [|by apply get_mono].
  erewrite bind_Return; [|by apply JSON_stringify_mono]. cbn [JSON_parse].
  destruct (build_builds english (mkWorld (h ++ c_s) g))
    as (v_en & c_en & Hben & Hen).
  cbn [objects rng] in Hben, Hen.
  erewrite bind_Return; [|exact Hben]. cbn [objects rng].
  (* the clone of the Arabic locale *)
  rewrite <- (app_assoc h c_s c_en).
  erewrite bind_Return; [|by apply get_mono].
  erewrite bind_Return; [|by apply JSON_stringify_mono]. cbn [JSON_parse].
  rewrite (app_assoc (objects w) c_s c_en). fold h.
  destruct (build_builds arabic (mkWorld ((h ++ c_s) ++ c_en) g))
    as (v_ar & c_ar & Hbar & Har).
  cbn [objects rng] in Hbar, Har.
  erewrite bind_Return; [|exact Hbar]. cbn [objects rng].
  clear Hbs Hben Hbar Hgen Hgar Hten Htar.
  set (n0 := length h) in *.
  set (n2 := length (h ++ c_s)) in *.
  set (n3 := length ((h ++ c_s) ++ c_en)) in *.
  set (h4 := ((h ++ c_s) ++ c_en) ++ c_ar) in *.
  assert (Hn2 : n2 = n0 + length c_s) by (unfold n2; by rewrite length_app).
  assert (Hn3 : n3 = n2 + length c_en) by (unfold n3; by rewrite length_app).
  assert (Hn4 : length h4 = n3 + length c_ar) by (unfold h4; by rewrite length_app).
  rewrite <- Hn2 in Hs. rewrite <- Hn3 in Hen. rewrite <- Hn4 in Har.
  apply (built_mono _ c_en) in Hs. apply (built_mono _ c_ar) in Hs, Hen.
  fold h4 in Hs, Hen. clearbody h4 n0 n2 n3.
  set (Ps := fun l => n0 <= l < n2).
  assert (Hsoc : represents h4 Ps [v_s] [social])
    by (eapply built_represents; [exact Hs|done]).
  (* the update of the English locale *)
  destruct (update_event_description_merge h4 g v_en english crmEvent v_s social
              JNull n2 n3 Ps) as (h5 & Hrun5 & Hlen5 & Hold5 & Hrep5);
    try done; [lia|unfold Ps; intros; lia|].
  erewrite bind_Return; [|exact Hrun5].
  (* the update of the Arabic locale *)
  destruct (update_event_description_merge h5 g v_ar arabic crmEvent v_s social
              (JStr "_blank") n3 (length h4) Ps)
    as (h6 & Hrun6 & Hlen6 & Hold6 & Hrep6); try done.
  { eapply built_frame; [exact Har|]. intros l Hl. apply Hold5; lia. }
  { eapply represents_frame; [exact Hsoc|]. unfold Ps. intros l Hl.
    apply Hold5; lia. }
  { unfold Ps. intros. lia. }
  erewrite bind_Return; [|exact Hrun6].
  assert (Hrep5' : represents h6
            (fun l => n2 <= l < n3 \/ Ps l \/ length h4 <= l < length h5)
            [v_en] [merge_locale crmEvent social JNull english]).
  { eapply represents_frame; [exact Hrep5|]. unfold Ps. intros l Hl.
    apply Hold6; lia. }
  (* the returned object *)
  unfold new_object. cbn [objects rng].
  eexists _, _.
  assert (Hfinal : represents
            (h6 ++ [Obj [("en-US", v_en); ("ar", v_ar)]]) (fun _ => True)
            [VRef (length h6)]
            [JObj [("en-US", merge_locale crmEvent social JNull english);
                   ("ar", merge_locale crmEvent social (JStr "_blank") arabic)]]).
  { eapply represents_obj; [done|by apply list_lookup_middle|done|
                            |apply represents_nil].
    rewrite !fmap_cons. cbn [snd fmap list_fmap].
    apply represents_cons; [|apply represents_cons; [|apply represents_nil]].
    - eapply represents_weaken; [|done].
      eapply represents_frame; [exact Hrep5'|]. unfold Ps. intros l Hl.
      apply lookup_app_l. lia.
    - eapply represents_weaken; [|done].
      eapply represents_frame; [exact Hrep6|]. unfold Ps. intros l Hl.
      apply lookup_app_l. lia. }
  destruct (represents_serialize _ _ _ _ Hfinal) as [fuel Hfuel].
  exists fuel. split; [reflexivity|]. by apply mapM_singleton.
Qed.

(** *** What the merge keeps *)

Lemma assoc_set_other {A} k k' (x : A) fields :
  k <> k' -> assoc k (assoc_set k' x fields) = assoc k fields.
Proof.
  intros Hne. induction fields as [|[k0 y] fields IH]; simpl.
  - by rewrite (proj2 (String.eqb_neq k k') Hne).
  - destruct (String.eqb k' k0) eqn:E0; simpl.
    + apply String.eqb_eq in E0 as <-.
      by rewrite (proj2 (String.eqb_neq k k') Hne).
    + by rewrite IH.
Qed.

Lemma assoc_set_same {A} k (x : A) fields :
  assoc k (assoc_set k x fields) = Some x.
Proof.
  induction fields as [|[k0 y] fields IH]; simpl.
  - by rewrite String.eqb_refl.
  - destruct (String.eqb k k0) eqn:E0; simpl.
    + by rewrite String.eqb_refl.
    + by rewrite E0.
Qed.

Lemma assoc_delete_other {A} k k' (fields : list (string * A)) :
  k <> k' -> assoc k (assoc_delete k' fields) = assoc k fields.
Proof.
  intros Hne. induction fields as [|[k0 y] fields IH]; simpl; [done|].
  destruct (String.eqb k' k0) eqn:E0; simpl.
  - apply String.eqb_eq in E0 as <-.
    by rewrite (proj2 (String.eqb_neq k k') Hne).
  - by rewrite IH.
Qed.

(** The merged Event-Description block keeps every field other than the
    four that come from the CRM event, its identifier among them. *)
Lemma merge_event_description_keeps crmEvent social target fields k :
  k <> "description" -> k <> "organiserName" ->
  k <> "organiserWebsite" -> k <> "socialNetworks" ->
  field k (merge_event_description crmEvent social target (JObj fields))
  = assoc k fields.
Proof.
  intros H1 H2 H3 H4. cbn [merge_event_description field].
  rewrite assoc_set_other by done.
  destruct (truthy_text (websiteURL crmEvent)).
  - by rewrite !assoc_set_other.
  - by rewrite assoc_delete_other, !assoc_set_other.
Qed.

(** The merged locale keeps every field other than [contentData], the
    layout among them. *)
Lemma merge_locale_keeps crmEvent social target blocks k :
  k <> "contentData" ->
  field k (merge_locale crmEvent social target blocks) = field k blocks.
Proof.
  intros Hne. destruct blocks as [| | | | |fields]; try done.
  cbn [merge_locale].
  destruct (assoc "contentData" fields) as [[| | | |[|first [|second rest]]|]|];
    try done.
  cbn [field]. by apply assoc_set_other.
Qed.

(** In [contentData] only the second block differs. *)
Lemma merge_locale_contentData crmEvent social target blocks first second rest :
  field "contentData" blocks = Some (JArr (first :: second :: rest)) ->
  field "contentData" (merge_locale crmEvent social target blocks)
  = Some (JArr (first
                :: merge_event_description crmEvent social target second
                :: rest)).
Proof.
  destruct blocks as [| | | | |fields]; try done. cbn [field merge_locale].
  intros ->. cbn [field]. apply assoc_set_same.
Qed.

(** Without a second block the locale is returned as it is. *)
Lemma merge_locale_skips crmEvent social target blocks :
  (forall first second rest,
     field "contentData" blocks <> Some (JArr (first :: second :: rest))) ->
  merge_locale crmEvent social target blocks = blocks.
Proof.
  intros Hno. destruct blocks as [| | | | |fields]; try done.
  cbn [merge_locale]. cbn [field] in Hno.
  destruct (assoc "contentData" fields) as [[| | | |[|first [|second rest]]|]|];
    try done.
  by destruct (Hno first second rest).
Qed.

End Merge.

(** ** Further properties of the reconciler *)

Section ReconcilerMore.

Local Open Scope list_scope.
Import Samples.

Implicit Types (crm : list CrmEvent) (cms : list UmbracoEvent).

Lemma quoted_inj m m' : quoted m = quoted m' -> m = m'.
Proof.
  unfold quoted. intros [= H].
  assert (Hs : strip_last dquote (m +:+ String dquote EmptyString)
               = strip_last dquote (m' +:+ String dquote EmptyString))
    by (by rewrite H).
  rewrite !strip_last_snoc in Hs. congruence.
Qed.

(** X1. What [normalizeDateString] returns, for every text: a text that is
    wrapped in quote characters around a part without line terminator is
    returned without the two quotes, and every other text (not wrapped, a
    lone quote, or wrapped around a part with a line terminator) is
    returned as it is. *)
Theorem normalizeDateString_cases (s : string) :
  (exists m, s = quoted m /\ has_line_terminator m = false
             /\ normalizeDateString s = m)
  \/ ((forall m, s = quoted m -> has_line_terminator m = true)
      /\ normalizeDateString s = s).
Proof.
  assert (Hq : forall rest m, String dquote rest = quoted m ->
                             strip_last dquote rest = Some m).
  { intros rest m [= ->]. apply strip_last_snoc. }
  destruct s as [|c rest].
  { right. split; [|done]. intros m. by unfold quoted. }
  destruct (Ascii.eqb_spec c dquote) as [->|Hc].
  - destruct (strip_last dquote rest) as [inner|] eqn:E.
    + apply strip_last_Some in E. subst rest. fold (quoted inner).
      destruct (has_line_terminator inner) eqn:El.
      * right. split; [|by apply normalizeDateString_multiline].
        intros m' Hm'. apply quoted_inj in Hm'. by subst.
      * left. exists inner. by rewrite normalizeDateString_quoted.
    + right. split.
      * intros m Hm. apply Hq in Hm. congruence.
      * unfold normalizeDateString. by rewrite Ascii.eqb_refl, E.
  - right. split.
    + intros m [= ? _]. done.
    + unfold normalizeDateString.
      by rewrite (proj2 (Ascii.eqb_neq c dquote) Hc).
Qed.

(** X2. The pairs of [toUpdate], for a CRM event whose identity is an
    integer of magnitude below 2^53 (so that the text of the identity is
    its decimal numeral): a CMS event and the CRM event are paired exactly
    when the CRM event is in the feed, the CMS event is the last of the CMS
    events that carry the decimal numeral of its identity (a later CMS
    event overrides an earlier one with the same identity), and the two
    normalized freshness markers differ. *)
Theorem compareEvents_toUpdate_iff crm cms (u : UmbracoEvent) (e : CrmEvent) :
  safe_integer (eventId e) ->
  ((u, e) ∈ toUpdate (compareEvents crm cms) <->
   e ∈ crm
   /\ last (filter (fun u' => u_eventId u' = Number_toString (eventId e)) cms)
      = Some u
   /\ normalizeDateString (lastUpdatedDate e)
      <> normalizeDateString (u_lastUpdatedDate u)).
Proof.
  intros _.
  rewrite compareEvents_closed_form. cbn [toUpdate].
  rewrite list_elem_of_omap. unfold update_pair, outcome_of. split.
  - intros (x & Hx & Hp). rewrite !build_umbracoMap_lookup in Hp.
    destruct (last (filter _ cms)) as [u0|] eqn:El; [|done].
    destruct (String.eqb_spec (normalizeDateString (lastUpdatedDate x))
                (normalizeDateString (u_lastUpdatedDate u0))) as [|Hne];
      [done|].
    by simplify_eq/=.
  - intros (He & Hl & Hne). exists e. split; [done|].
    rewrite !build_umbracoMap_lookup, Hl.
    by rewrite (proj2 (String.eqb_neq _ _) Hne).
Qed.

Lemma compareEvents_toUpdate_iff_witness :
  (cms_event "7" "2023", crm_plain)
  ∈ toUpdate (compareEvents [crm_plain]
                [cms_event "7" "2022"; cms_event "7" "2023"]) <->
  crm_plain ∈ [crm_plain]
  /\ last (filter (fun u' => u_eventId u' = Number_toString (eventId crm_plain))
              [cms_event "7" "2022"; cms_event "7" "2023"])
     = Some (cms_event "7" "2023")
  /\ normalizeDateString (lastUpdatedDate crm_plain)
     <> normalizeDateString (u_lastUpdatedDate (cms_event "7" "2023")).
Proof.
  apply (compareEvents_toUpdate_iff [crm_plain]
           [cms_event "7" "2022"; cms_event "7" "2023"]
           (cms_event "7" "2023") crm_plain).
  vm_compute. split; reflexivity.
Defined.

(** X3. The events of [toCreate], for a CRM event whose identity is an
    integer of magnitude below 2^53: the event is to be created exactly
    when it is in the feed and no CMS event carries the decimal numeral of
    its identity. *)
Theorem compareEvents_toCreate_iff crm cms (e : CrmEvent) :
  safe_integer (eventId e) ->
  (e ∈ toCreate (compareEvents crm cms) <->
   e ∈ crm
   /\ forall u, u ∈ cms -> u_eventId u <> Number_toString (eventId e)).
Proof.
  intros _.
  rewrite compareEvents_closed_form. cbn [toCreate].
  rewrite list_elem_of_filter. unfold outcome_of.
  pose proof (build_umbracoMap_dom cms (Number_toString (eventId e))) as Hdom.
  destruct (build_umbracoMap cms !! Number_toString (eventId e)) as [u0|].
  - destruct (proj1 Hdom) as (u & Hu & Hk); [by eexists|].
    split.
    + intros [H _]. by destruct (String.eqb _ _).
    + intros [_ H]. by destruct (H u Hu).
  - split; [|tauto]. intros [_ He]. split; [done|].
    intros u Hu Hk. destruct (proj2 Hdom) as [? ?]; [by exists u|done].
Qed.

Lemma compareEvents_toCreate_iff_witness :
  crm_plain ∈ toCreate (compareEvents [crm_plain] [cms_event "8" "2023"]) <->
  crm_plain ∈ [crm_plain]
  /\ forall u, u ∈ [cms_event "8" "2023"] ->
               u_eventId u <> Number_toString (eventId crm_plain).
Proof.
  apply (compareEvents_toCreate_iff [crm_plain] [cms_event "8" "2023"]
           crm_plain).
  vm_compute. split; reflexivity.
Defined.

(** X4. Reconciling a feed in two batches against the same CMS events gives
    the two results one after the other: each CRM event is classified on
    its own. *)
Theorem compareEvents_app crm1 crm2 cms :
  compareEvents (crm1 ++ crm2) cms
  = mkSyncResult
      (toUpdate (compareEvents crm1 cms) ++ toUpdate (compareEvents crm2 cms))
      (toCreate (compareEvents crm1 cms) ++ toCreate (compareEvents crm2 cms)).
Proof.
  rewrite !compareEvents_closed_form. cbn [toUpdate toCreate].
  by rewrite omap_app, filter_app.
Qed.

(** X5. Against an empty CMS every CRM event is to be created, in feed
    order and with its repetitions, and nothing is to be updated; an empty
    feed gives two empty lists. *)
Theorem compareEvents_empty crm cms :
  compareEvents crm [] = mkSyncResult [] crm
  /\ compareEvents [] cms = mkSyncResult [] [].
Proof.
  split; [|done]. rewrite compareEvents_closed_form.
  unfold update_pair, outcome_of, build_umbracoMap. cbn [foldl].
  f_equal.
  - induction crm as [|e crm IH]; [done|]. simpl. by rewrite lookup_empty.
  - induction crm as [|e crm IH]; [done|].
    rewrite filter_cons, lookup_empty, decide_True by done. by rewrite IH.
Qed.

Lemma filter_identity_short cms k :
  NoDup (u_eventId <$> cms) ->
  length (filter (fun u => u_eventId u = k) cms) <= 1.
Proof.
  induction cms as [|u cms IH]; [simpl; lia|].
  rewrite fmap_cons, NoDup_cons. intros [Hu Hnd].
  rewrite filter_cons. case_decide as Hk; [|by apply IH].
  assert (Hnil : filter (fun u => u_eventId u = k) cms = []).
  { destruct (filter _ cms) as [|u' l] eqn:E; [done|].
    assert (Hin : u' ∈ filter (fun u => u_eventId u = k) cms)
      by (rewrite E; left).
    apply list_elem_of_filter in Hin as [Hk' Hin]. destruct Hu.
    rewrite Hk, <- Hk'. by apply list_elem_of_fmap_2. }
  rewrite Hnil. simpl. lia.
Qed.

(** X6. When no two CMS events carry the same identity, the order in which
    the CMS events are given does not matter. *)
Theorem compareEvents_cms_order crm cms cms' :
  NoDup (u_eventId <$> cms) -> Permutation cms cms' ->
  compareEvents crm cms = compareEvents crm cms'.
Proof.
  intros Hnd Hperm. unfold compareEvents.
  enough (build_umbracoMap cms = build_umbracoMap cms') as -> by done.
  apply map_eq. intros k. rewrite !build_umbracoMap_lookup.
  pose proof (filter_identity_short cms k Hnd) as Hlen.
  assert (Hp : Permutation (filter (fun u => u_eventId u = k) cms)
                           (filter (fun u => u_eventId u = k) cms'))
    by (by rewrite Hperm).
  destruct (filter _ cms) as [|a [|b l]].
  - apply Permutation_nil_l in Hp. by rewrite <- Hp.
  - apply Permutation_singleton_l in Hp. by rewrite <- Hp.
  - simpl in Hlen. lia.
Qed.

Lemma compareEvents_cms_order_witness :
  compareEvents [crm_plain] [cms_event "7" "a"; cms_event "8" "b"]
  = compareEvents [crm_plain] [cms_event "8" "b"; cms_event "7" "a"].
Proof.
  apply (compareEvents_cms_order [crm_plain]
           [cms_event "7" "a"; cms_event "8" "b"]
           [cms_event "8" "b"; cms_event "7" "a"]).
  - apply (bool_decide_unpack _). vm_compute. exact I.
  - apply perm_swap.
Defined.

End ReconcilerMore.

(** ** Further properties of the venue filter and of the identifiers *)

Section FilterMore.

Local Open Scope list_scope.

(** X7. How the venue filter composes: filtering twice by the same venue is
    filtering once, filtering by two venues gives the same events in either
    order, and the filter of a concatenation is the concatenation of the
    filters. *)
Theorem filterEventsByVenue_composition (events events' : list CrmEvent)
    (venue venue' : string) :
  filterEventsByVenue (filterEventsByVenue events venue) venue
  = filterEventsByVenue events venue
  /\ filterEventsByVenue (filterEventsByVenue events venue) venue'
     = filterEventsByVenue (filterEventsByVenue events venue') venue
  /\ filterEventsByVenue (events ++ events') venue
     = filterEventsByVenue events venue ++ filterEventsByVenue events' venue.
Proof.
  unfold filterEventsByVenue. split; [|split].
  - induction events as [|e events IH]; [done|]. simpl.
    destruct (venue_pred venue e) eqn:E; [|done].
    simpl. by rewrite E, IH.
  - induction events as [|e events IH]; [done|]. simpl.
    destruct (venue_pred venue e) eqn:E, (venue_pred venue' e) eqn:E';
      simpl; rewrite ?E, ?E', IH; done.
  - apply List.filter_app.
Qed.

End FilterMore.

Section IdentifiersMore.

Local Open Scope list_scope.
Import Samples.

Lemma advance_0 g : advance 0 g = g.
Proof. unfold advance. destruct g. simpl. f_equal. lia. Qed.

Lemma advance_advance j k g : advance k (advance j g) = advance (j + k) g.
Proof. unfold advance. simpl. f_equal. lia. Qed.

Lemma guid_digit_draws c g : snd (guid_digit c g) = advance 1 g.
Proof. unfold guid_digit, rbind, rret, Math_random, advance. simpl. f_equal. lia. Qed.

Lemma replace_xy_draws template g :
  snd (replace_xy template g) = advance (placeholders template) g.
Proof.
  revert g. induction template as [|c rest IH]; intros g.
  - simpl. by rewrite advance_0.
  - cbn [replace_xy placeholders].
    destruct (Ascii.eqb c "x" || Ascii.eqb c "y"); unfold rbind, rret.
    + pose proof (guid_digit_draws c g) as Hd.
      destruct (guid_digit c g) as [d g1]. simpl in Hd. subst g1.
      specialize (IH (advance 1 g)).
      destruct (replace_xy rest (advance 1 g)) as [s g2]. simpl in *.
      by rewrite IH, advance_advance.
    + specialize (IH g). destruct (replace_xy rest g) as [s g2]. simpl in *.
      by rewrite IH.
Qed.

Lemma generateGuid_draws g : snd (generateGuid g) = advance 31 g.
Proof. apply (replace_xy_draws guid_template). Qed.

Lemma hex_reachable c :
  is_hex c ->
  exists u, Number_toString16 (times16_trunc u) = String c EmptyString.
Proof.
  unfold is_hex. cbn [list_ascii_of_string]. intros H.
  repeat (apply elem_of_cons in H as [->|H];
          [first [ by exists (nibble 0) | by exists (nibble 1)
                 | by exists (nibble 2) | by exists (nibble 3)
                 | by exists (nibble 4) | by exists (nibble 5)
                 | by exists (nibble 6) | by exists (nibble 7)
                 | by exists (nibble 8) | by exists (nibble 9)
                 | by exists (nibble 10) | by exists (nibble 11)
                 | by exists (nibble 12) | by exists (nibble 13)
                 | by exists (nibble 14) | by exists (nibble 15) ]|]).
  by apply elem_of_nil in H.
Qed.

Lemma variant_reachable c :
  is_variant c ->
  exists u, Number_toString16 (Z.lor (Z.land (times16_trunc u) 3) 8)
            = String c EmptyString.
Proof.
  unfold is_variant. cbn [list_ascii_of_string]. intros H.
  repeat (apply elem_of_cons in H as [->|H];
          [first [ by exists (nibble 0) | by exists (nibble 1)
                 | by exists (nibble 2) | by exists (nibble 3) ]|]).
  by apply elem_of_nil in H.
Qed.

(** Every text that fits a template is what [replace_xy] returns for some
    outcomes of the draws it makes, wherever the source stands. *)
Lemma replace_xy_reaches template s d :
  Forall2 fits (chars template) (chars s) ->
  exists f : nat -> unit_interval,
    forall g, drawn g = d -> (forall i, d <= i -> outcomes g i = f i) ->
              fst (replace_xy template g) = s.
Proof.
  revert s d. induction template as [|t rest IH]; intros s d Hfit.
  - destruct s; [|by apply Forall2_nil_cons_inv in Hfit].
    by exists (fun _ => nibble 0).
  - destruct s as [|c s]; [by apply Forall2_cons_nil_inv in Hfit|].
    cbn [list_ascii_of_string] in Hfit.
    apply Forall2_cons in Hfit as [Hc Hfit].
    cbn [replace_xy]. unfold fits in Hc.
    destruct (Ascii.eqb t "x") eqn:Ex; [|destruct (Ascii.eqb t "y") eqn:Ey].
    + destruct (hex_reachable c Hc) as [u Hu].
      destruct (IH s (S d) Hfit) as [f Hf].
      exists (fun i => if decide (i = d) then u else f i).
      intros g Hd Hg. cbn [orb]. unfold rbind, rret.
      pose proof (guid_digit_draws t g) as Hdraw.
      assert (Hdig : fst (guid_digit t g) = String c EmptyString).
      { unfold guid_digit, rbind, rret, Math_random. simpl. rewrite Ex.
        rewrite Hd, (Hg d), decide_True by done. exact Hu. }
      destruct (guid_digit t g) as [dg g1]. simpl in Hdraw, Hdig. subst dg g1.
      specialize (Hf (advance 1 g)).
      destruct (replace_xy rest (advance 1 g)) as [s' g2]. simpl in *.
      rewrite Hf; [done|lia|].
      intros i Hi. rewrite Hg by lia. by rewrite decide_False by lia.
    + destruct (variant_reachable c Hc) as [u Hu].
      destruct (IH s (S d) Hfit) as [f Hf].
      exists (fun i => if decide (i = d) then u else f i).
      intros g Hd Hg. rewrite orb_true_r. unfold rbind, rret.
      pose proof (guid_digit_draws t g) as Hdraw.
      assert (Hdig : fst (guid_digit t g) = String c EmptyString).
      { unfold guid_digit, rbind, rret, Math_random. simpl. rewrite Ex.
        rewrite Hd, (Hg d), decide_True by done. exact Hu. }
      destruct (guid_digit t g) as [dg g1]. simpl in Hdraw, Hdig. subst dg g1.
      specialize (Hf (advance 1 g)).
      destruct (replace_xy rest (advance 1 g)) as [s' g2]. simpl in *.
      rewrite Hf; [done|lia|].
      intros i Hi. rewrite Hg by lia. by rewrite decide_False by lia.
    + subst c. destruct (IH s d Hfit) as [f Hf]. exists f.
      intros g Hd Hg. cbn [orb]. unfold rbind, rret.
      specialize (Hf g Hd Hg). destruct (replace_xy rest g) as [s' g2].
      simpl in *. by subst.
Qed.

(** X8. Every text of the canonical shape is an identifier that
    [generateGuid] can return: for every text that has a hex digit where
    the template has an x, one of 8, 9, a, b where it has the y, and the
    character of the template elsewhere, there are outcomes of the random
    source for which the generator returns that text. *)
Theorem generateGuid_reaches (guid : string) :
  Forall2 fits (chars guid_template) (chars guid) ->
  exists g, fst (generateGuid g) = guid.
Proof.
  intros Hfit.
  destruct (replace_xy_reaches guid_template guid 0 Hfit) as [f Hf].
  exists (mkRng f 0). by apply Hf.
Qed.

Lemma generateGuid_reaches_witness :
  exists g, fst (generateGuid g) = "01234567-89ab-4cde-8f01-23456789abcd".
Proof.
  apply (generateGuid_reaches "01234567-89ab-4cde-8f01-23456789abcd").
  apply (bool_decide_unpack _). vm_compute. exact I.
Defined.

End IdentifiersMore.

(** ** Further properties of the create path *)

Section CreatePathMore.

Local Open Scope list_scope.
Import Samples.

#[local] Opaque generateGuid.

Lemma fresh_guid_at g i :
  fresh_guid (advance (31 * i) g) = (guid_at g i, advance (31 * S i) g).
Proof.
  unfold fresh_guid, rbind, rret, guid_at.
  pose proof (generateGuid_draws (advance (31 * i) g)) as Hd.
  destruct (generateGuid (advance (31 * i) g)) as [guid g1].
  simpl in *. subst g1. rewrite advance_advance. do 2 f_equal. lia.
Qed.

Lemma social_step_draws acc network g :
  snd (social_step acc network g)
  = advance (31 * length (option_list (has_link network))) g.
Proof.
  unfold social_step. destruct (has_link network) as [url|].
  - unfold rbind, rret. pose proof (generateGuid_draws g) as Hd.
    destruct (generateGuid g) as [guid g1]. simpl in *. by subst.
  - simpl. by rewrite advance_0.
Qed.

Lemma social_fold_draws networks acc g :
  snd (rfold social_step networks acc g)
  = advance (31 * length (omap has_link networks)) g.
Proof.
  revert acc g. induction networks as [|n networks IH]; intros acc g.
  - simpl. by rewrite advance_0.
  - cbn [rfold]. unfold rbind. rewrite omap_cons_app, length_app.
    pose proof (social_step_draws acc n g) as Hd.
    destruct (social_step acc n g) as [acc' g1]. simpl in Hd. subst g1.
    rewrite IH, advance_advance. f_equal. lia.
Qed.

Lemma emitted_length socialMedia :
  length (omap has_link (socialNetworks_of socialMedia))
  = length (emitted socialMedia).
Proof.
  rewrite <- emitted_networks.
  generalize (socialNetworks_of socialMedia). intros l.
  induction l as [|n l IH]; [done|].
  rewrite !omap_cons_app, !length_app, IH. by destruct (has_link n).
Qed.

Lemma buildSocialNetworksBlockList_draws socialMedia g :
  snd (buildSocialNetworksBlockList socialMedia g)
  = advance (31 * length (emitted socialMedia)) g.
Proof.
  unfold buildSocialNetworksBlockList, rbind, rret.
  rewrite <- emitted_length,
    <- (social_fold_draws (socialNetworks_of socialMedia) ([], []) g).
  by destruct (rfold social_step _ _ g).
Qed.

(** The page blocks and the source they leave: eleven identifiers from
    consecutive draws, then the social-networks list. *)
Lemma buildPageBlocks_run crmEvent g :
  let social := buildSocialNetworksBlockList (socialMedia crmEvent)
                  (advance (31 * 11) g) in
  buildPageBlocks crmEvent g
  = (JObj [("en-US", englishBlocks crmEvent (fst social)
                       (guid_at g 0) (guid_at g 1) (guid_at g 2)
                       (guid_at g 3) (guid_at g 4));
           ("ar", arabicBlocks crmEvent (fst social)
                    (guid_at g 5) (guid_at g 6) (guid_at g 7)
                    (guid_at g 8) (guid_at g 9) (guid_at g 10))],
     snd social).
Proof.
  intros social. unfold buildPageBlocks, rbind, rret.
  replace (fresh_guid g) with (fresh_guid (advance (31 * 0) g))
    by (by rewrite advance_0).
  rewrite (fresh_guid_at g 0). cbv beta iota.
  rewrite (fresh_guid_at g 1). cbv beta iota.
  rewrite (fresh_guid_at g 2). cbv beta iota.
  rewrite (fresh_guid_at g 3). cbv beta iota.
  rewrite (fresh_guid_at g 4). cbv beta iota.
  rewrite (fresh_guid_at g 5). cbv beta iota.
  rewrite (fresh_guid_at g 6). cbv beta iota.
  rewrite (fresh_guid_at g 7). cbv beta iota.
  rewrite (fresh_guid_at g 8). cbv beta iota.
  rewrite (fresh_guid_at g 9). cbv beta iota.
  rewrite (fresh_guid_at g 10). cbv beta iota.
  fold social. by destruct social.
Qed.

(** X9. The number of calls of the random source: thirty-one for an
    identifier, thirty-one for each social channel that is emitted,
    thirty-one for each of the eleven blocks of the page blocks besides
    those of their social-networks list, and for a create payload those of
    its own social-networks list and of its page blocks. *)
Theorem random_draws (crmEvent : CrmEvent) (parentId : option string) (g : Rng) :
  let k := length (emitted (socialMedia crmEvent)) in
  snd (generateGuid g) = advance 31 g
  /\ snd (buildSocialNetworksBlockList (socialMedia crmEvent) g)
     = advance (31 * k) g
  /\ snd (buildPageBlocks crmEvent g) = advance (31 * (11 + k)) g
  /\ snd (mapCrmEventToUmbraco crmEvent parentId g)
     = advance (31 * (11 + 2 * k)) g.
Proof.
  intros k.
  assert (Hpage : forall g', snd (buildPageBlocks crmEvent g')
                             = advance (31 * (11 + k)) g').
  { intros g'. rewrite buildPageBlocks_run. cbn [snd].
    rewrite buildSocialNetworksBlockList_draws, advance_advance.
    f_equal. unfold k. lia. }
  split; [apply generateGuid_draws|].
  split; [apply buildSocialNetworksBlockList_draws|].
  split; [apply Hpage|].
  unfold mapCrmEventToUmbraco, baseData, rbind, rret.
  pose proof (buildSocialNetworksBlockList_draws (socialMedia crmEvent) g) as Hs.
  destruct (buildSocialNetworksBlockList (socialMedia crmEvent) g) as [social g1].
  simpl in Hs. subst g1.
  pose proof (Hpage (advance (31 * length (emitted (socialMedia crmEvent))) g))
    as Hp.
  destruct (buildPageBlocks crmEvent _) as [blocks g2].
  simpl in Hp. subst g2.
  assert (Hfinal : advance (31 * (11 + k))
                     (advance (31 * length (emitted (socialMedia crmEvent))) g)
                   = advance (31 * (11 + 2 * k)) g).
  { rewrite advance_advance. f_equal. unfold k. lia. }
  destruct (truthy_text parentId); exact Hfinal.
Qed.

(** X10. The page blocks of every event, for every outcome of the random
    source: five English blocks and six Arabic ones with the content types
    of the template in its order, the identifiers being those generated
    from the first eleven runs of thirty-one draws, English first; the
    second block of each locale is the Event-Description block of the
    event, and the two hold the same social-networks list, generated from
    the draws that follow. *)
Theorem buildPageBlocks_structure (crmEvent : CrmEvent) (g : Rng) :
  let pageBlocks := fst (buildPageBlocks crmEvent g) in
  let english := locale_blocks "en-US" pageBlocks in
  let arabic := locale_blocks "ar" pageBlocks in
  let social :=
    fst (buildSocialNetworksBlockList (socialMedia crmEvent)
           (advance (31 * 11) g)) in
  content_types english
  = Some <$> ["fd8b22e5-6560-40ea-8f24-4da5ca390b91";
              "163c1761-234c-41f4-92e5-9d3d26186b79";
              "c12716ad-f907-4621-b2e4-1b242d63974e";
              "f4965fd3-b550-41c3-997e-1fd7059fe015";
              "c12716ad-f907-4621-b2e4-1b242d63974e"]
  /\ content_types arabic
     = Some <$> ["fd8b22e5-6560-40ea-8f24-4da5ca390b91";
                 "163c1761-234c-41f4-92e5-9d3d26186b79";
                 "a56add81-856e-4004-8e61-30cc04962297";
                 "c12716ad-f907-4621-b2e4-1b242d63974e";
                 "f4965fd3-b550-41c3-997e-1fd7059fe015";
                 "c12716ad-f907-4621-b2e4-1b242d63974e"]
  /\ content_udis english
     = Some <$> (element_udi <$> (guid_at g <$> [0; 1; 2; 3; 4]))
  /\ content_udis arabic
     = Some <$> (element_udi <$> (guid_at g <$> [5; 6; 7; 8; 9; 10]))
  /\ content_entries english !! 1
     = Some (event_description_block (element_udi (guid_at g 1)) JNull
               crmEvent social)
  /\ content_entries arabic !! 1
     = Some (event_description_block (element_udi (guid_at g 6))
               (JStr "_blank") crmEvent social).
Proof.
  intros pageBlocks english arabic social.
  subst english arabic pageBlocks. rewrite buildPageBlocks_run.
  fold social. cbn [fst fmap list_fmap]. clearbody social.
  generalize (guid_at g 0), (guid_at g 1), (guid_at g 2), (guid_at g 3),
    (guid_at g 4), (guid_at g 5), (guid_at g 6), (guid_at g 7),
    (guid_at g 8), (guid_at g 9), (guid_at g 10).
  intros. repeat split; reflexivity.
Qed.

(** X11. For the same outcomes of the random source, the page blocks of two
    events differ in the second block of each locale only: the layout, the
    settings, every other block and every identifier are the same. *)
Theorem buildPageBlocks_static (crmEvent crmEvent' : CrmEvent) (g : Rng)
    (locale : string) :
  let blocks := locale_blocks locale (fst (buildPageBlocks crmEvent g)) in
  let blocks' := locale_blocks locale (fst (buildPageBlocks crmEvent' g)) in
  field "layout" blocks = field "layout" blocks'
  /\ field "settingsData" blocks = field "settingsData" blocks'
  /\ delete 1 (content_entries blocks) = delete 1 (content_entries blocks')
  /\ content_udis blocks = content_udis blocks'.
Proof.
  intros blocks blocks'. subst blocks blocks'.
  rewrite !buildPageBlocks_run. cbn [fst].
  generalize (fst (buildSocialNetworksBlockList (socialMedia crmEvent)
                     (advance (31 * 11) g))),
    (fst (buildSocialNetworksBlockList (socialMedia crmEvent')
            (advance (31 * 11) g))).
  generalize (guid_at g 0), (guid_at g 1), (guid_at g 2), (guid_at g 3),
    (guid_at g 4), (guid_at g 5), (guid_at g 6), (guid_at g 7),
    (guid_at g 8), (guid_at g 9), (guid_at g 10).
  intros. unfold locale_blocks. cbn [field assoc].
  destruct (String.eqb locale "en-US"); [repeat split; reflexivity|].
  destruct (String.eqb locale "ar"); repeat split; reflexivity.
Qed.

(** X12. The fields of a create payload, in order: the fixed fields, with
    [organiserWebsite] exactly when the event has a non-empty website
    address and [parentId] exactly when a non-empty parent is given; no
    field occurs twice. *)
Theorem mapCrmEventToUmbraco_keys (crmEvent : CrmEvent)
    (parentId : option string) (g : Rng) :
  let payload := fst (mapCrmEventToUmbraco crmEvent parentId g) in
  keys payload
  = ["name"; "contentTypeAlias"; "title"; "description"; "metadataTitle";
     "metadataDescription"; "metadataKeywords"; "date"; "category";
     "endDate"; "organiserName"]
    ++ match truthy_text (websiteURL crmEvent) with
       | Some _ => ["organiserWebsite"]
       | None => []
       end
    ++ ["organiserSocialNetworks"; "eventId"; "lastUpdatedDate"; "location";
        "eventVenue"; "newEventVenue"; "audience"; "industry"; "pageBlocks"]
    ++ match truthy_text parentId with
       | Some _ => ["parentId"]
       | None => []
       end
  /\ NoDup (keys payload).
Proof.
  intros payload. subst payload.
  unfold mapCrmEventToUmbraco, baseData, rbind, rret.
  destruct (buildSocialNetworksBlockList (socialMedia crmEvent) g) as [sn g1].
  destruct (buildPageBlocks crmEvent g1) as [pb g2].
  unfold invariant_fields, localized_fields, document_website_field.
  destruct (truthy_text parentId), (truthy_text (websiteURL crmEvent));
    cbn [fst keys app fmap list_fmap];
    (split; [reflexivity|]); apply (bool_decide_unpack _); vm_compute; exact I.
Qed.

(** X13. A create payload holds no empty text where the source falls back:
    an empty or missing location is written as [null], an empty event type
    or audience as an empty list, missing venues as an empty list. *)
Theorem mapCrmEventToUmbraco_fallbacks (crmEvent : CrmEvent)
    (parentId : option string) (g : Rng) :
  let payload := fst (mapCrmEventToUmbraco crmEvent parentId g) in
  let value k := field k payload ≫= field "$invariant" in
  value "location"
  = Some (match location crmEvent with
          | None | Some "" => JNull
          | Some text => JStr text
          end)
  /\ value "category"
     = Some (if decide (eventType crmEvent = "") then JArr []
             else JArr [JStr (eventType crmEvent)])
  /\ value "audience"
     = Some (match eventAudiences crmEvent with
             | None | Some "" => JArr []
             | Some text => JArr [JStr text]
             end)
  /\ value "eventVenue"
     = Some (of_strings (default [] (eventVenues crmEvent)))
  /\ value "organiserName" = Some (JStr (eventOrganiser crmEvent))
  /\ value "newEventVenue" = Some (JArr []).
Proof.
  intros payload value. subst payload value.
  unfold mapCrmEventToUmbraco, baseData, rbind, rret.
  destruct (buildSocialNetworksBlockList (socialMedia crmEvent) g) as [sn g1].
  destruct (buildPageBlocks crmEvent g1) as [pb g2].
  unfold invariant_fields, localized_fields, document_website_field,
    text_or_null, singleton_or_empty, strings_or_empty.
  assert (Hname : or_else (eventOrganiser crmEvent) "" = eventOrganiser crmEvent)
    by (by destruct (eventOrganiser crmEvent)).
  rewrite Hname.
  destruct (truthy_text parentId), (truthy_text (websiteURL crmEvent));
    cbn [fst field assoc app String.eqb Ascii.eqb Bool.eqb mbind option_bind
         invariant];
    repeat split;
    first [ reflexivity
          | by destruct (location crmEvent) as [[|? ?]|]
          | by destruct (eventAudiences crmEvent) as [[|? ?]|]
          | by destruct (eventType crmEvent) ].
Qed.

Lemma NoDup_fmap_eq {A B} (f : A -> B) (l : list A) x y :
  NoDup (f <$> l) -> x ∈ l -> y ∈ l -> f x = f y -> x = y.
Proof.
  induction l as [|a l IH]; [by intros _ ?%elem_of_nil|].
  rewrite fmap_cons, NoDup_cons. intros [Ha Hnd] Hx Hy Hf.
  apply elem_of_cons in Hx as [->|Hx]; apply elem_of_cons in Hy as [->|Hy].
  - done.
  - destruct Ha. rewrite Hf. by apply list_elem_of_fmap_2.
  - destruct Ha. rewrite <- Hf. by apply list_elem_of_fmap_2.
  - by apply IH.
Qed.

Lemma written_for_fields e u :
  written_for e u ->
  u_eventId u = Number_toString (eventId e)
  /\ u_lastUpdatedDate u = quoted (lastUpdatedDate e).
Proof.
  intros (parentId & g & Hid & Hdate).
  destruct (mapCrmEventToUmbraco_identity_fields e parentId g) as [Hid' Hdate'].
  cbn zeta in *. rewrite Hid' in Hid. rewrite Hdate' in Hdate.
  split; congruence.
Qed.

(** X14. After a run the next run finds nothing to do: when the CRM events
    have pairwise distinct identities and freshness markers on one line
    that are not wrapped in quotes, and the CMS holds for each of them the
    identity and the marker that the create mapper wrote, [compareEvents]
    returns two empty lists. *)
Theorem compareEvents_settles (crm : list CrmEvent) (cms : list UmbracoEvent) :
  NoDup (eventId <$> crm) ->
  Forall plain_marker crm ->
  Forall2 written_for crm cms ->
  compareEvents crm cms = mkSyncResult [] [].
Proof.
  intros Hnd Hplain Hwritten.
  assert (Hsynced : forall e, e ∈ crm ->
            outcome_of (build_umbracoMap cms) e = Synced).
  { intros e He. unfold outcome_of. rewrite build_umbracoMap_lookup.
    assert (Hall : Forall (fun u => u_lastUpdatedDate u
                                    = quoted (lastUpdatedDate e))
                     (filter (fun u => u_eventId u
                                       = Number_toString (eventId e)) cms)).
    { apply Forall_forall. intros u [Hk Hu]%list_elem_of_filter.
      apply list_elem_of_lookup in Hu as [i Hi].
      destruct (Forall2_lookup_r _ _ _ _ _ Hwritten Hi) as (e' & Hi' & Hw).
      apply written_for_fields in Hw as [Hid Hdate].
      assert (e' = e) as ->; [|done].
      apply (NoDup_fmap_eq eventId crm); [done| |done|].
      - by eapply list_elem_of_lookup_2.
      - apply (inj pretty). unfold Number_toString in *. congruence. }
    assert (Hsome : exists u, u ∈ filter (fun u => u_eventId u
                                       = Number_toString (eventId e)) cms).
    { apply list_elem_of_lookup in He as [i Hi].
      destruct (Forall2_lookup_l _ _ _ _ _ Hwritten Hi) as (u & Hu & Hw).
      apply written_for_fields in Hw as [Hid Hdate].
      exists u. apply list_elem_of_filter. split; [done|].
      by eapply list_elem_of_lookup_2. }
    destruct (filter _ cms) as [|u0 l] using rev_ind.
    { destruct Hsome as [u Hu]. by apply elem_of_nil in Hu. }
    rewrite last_snoc. apply Forall_app in Hall as [_ Hu0].
    apply Forall_cons in Hu0 as [Hu0 _]. rewrite Hu0.
    rewrite Forall_forall in Hplain. destruct (Hplain e He) as [Hline Hnorm].
    rewrite normalizeDateString_quoted, Hnorm by done.
    by rewrite String.eqb_refl. }
  rewrite compareEvents_closed_form. cbn zeta.
  clear Hnd Hplain Hwritten. f_equal.
  - induction crm as [|e crm' IH]; [done|].
    rewrite omap_cons_app, update_pair_None, IH.
    + done.
    + intros e' He'. apply Hsynced. by right.
    + rewrite Hsynced; [done|by left].
  - induction crm as [|e crm' IH]; [done|].
    rewrite filter_cons, decide_False, IH.
    + done.
    + intros e' He'. apply Hsynced. by right.
    + rewrite Hsynced; [done|by left].
Qed.

Lemma compareEvents_settles_witness :
  compareEvents [crm_plain] [cms_after_plain] = mkSyncResult [] [].
Proof.
  apply (compareEvents_settles [crm_plain] [cms_after_plain]).
  - apply (bool_decide_unpack _). vm_compute. exact I.
  - repeat constructor.
  - repeat constructor. exists None, counting_source.
    split; vm_compute; reflexivity.
Defined.

End CreatePathMore.

(** ** Further properties of the update path *)

Section UpdatePathMore.

Local Open Scope list_scope.
Import Samples UpdateSamples.

#[local] Opaque generateGuid.

Lemma serialize_ref fuel h l :
  serialize (S fuel) h (VRef l)
  = match h !! l with
    | Some (Arr elems _) => JArr <$> mapM (serialize fuel h) elems
    | Some (Obj props) =>
      JObj <$> mapM (fun p => pair (fst p) <$> serialize fuel h (snd p))
                    (List.filter defined props)
    | None => None
    end.
Proof. reflexivity. Qed.

(** A laid-out text is the JSON text of its value, with fuel for the
    locations it is laid out in. *)
Lemma built_serialize h lo hi vs ts :
  built h lo hi vs ts -> mapM (serialize (S (hi - lo)) h) vs = Some ts.
Proof.
  induction 1 as [lo|lo hi v t vs ts Hp Hb IH
                  |lo l hi elems props items vs ts Hl Hb1 IH1 Hb2 IH2
                  |lo l hi props fields vs ts Hl Hk Hb1 IH1 Hb2 IH2].
  - done.
  - apply mapM_Some. constructor; [|by apply mapM_Some].
    by destruct v; simplify_eq/=.
  - apply built_le in Hb1 as ?. apply built_le in Hb2 as ?.
    apply mapM_Some. constructor.
    + rewrite serialize_ref. unfold loc. rewrite Hl.
      rewrite (serialize_all_fuel _ (hi - lo) _ _ _ IH1) by lia. done.
    + apply mapM_Some. eapply serialize_all_fuel; [exact IH2|lia].
  - apply built_le in Hb1 as ?. apply built_le in Hb2 as ?.
    apply mapM_Some. constructor.
    + rewrite serialize_ref. unfold loc. rewrite Hl.
      rewrite filter_defined.
      * erewrite serialize_props; [done|done|].
        eapply serialize_all_fuel; [exact IH1|lia].
      * eapply represents_defined.
        eapply (built_represents _ _ _ _ _ (fun _ => True)); [exact Hb1|done].
    + apply mapM_Some. eapply serialize_all_fuel; [exact IH2|lia].
Qed.

Lemma built_stringify h g lo hi v t :
  built h lo hi [v] [t] -> hi <= length h ->
  JSON_stringify v (mkWorld h g) = Return (Some t) (mkWorld h g).
Proof.
  intros Hb Hhi. apply built_serialize in Hb as Hs.
  apply mapM_singleton in Hs.
  apply (serialize_fuel _ (S (length h))) in Hs; [|lia].
  unfold JSON_stringify. cbn [objects]. rewrite Hs.
  destruct v; try done. inversion Hb; by simplify_eq/=.
Qed.

(** X15. The update refines the merge of JSON texts: on prior page blocks
    whose two locales are block lists (an object whose [contentData] is
    missing, [null], or an array whose second element, if there is one, is
    an object), [updatePageBlocks] returns an object whose JSON text holds,
    for each locale, the prior text with the description, the organiser
    name, the organiser website (removed when the event has none) and the
    social-networks list of the second block replaced by those of the CRM
    event; the link target is [null] in English and [_blank] in Arabic. *)
Theorem updatePageBlocks_refines_merge (crmEvent : CrmEvent)
    (existing : value) (w : World) (en_v ar_v : value) (english arabic : json) :
  get existing "en-US" w = Return en_v w ->
  get existing "ar" w = Return ar_v w ->
  JSON_stringify en_v w = Return (Some english) w ->
  JSON_stringify ar_v w = Return (Some arabic) w ->
  mergeable english -> mergeable arabic ->
  let social :=
    fst (buildSocialNetworksBlockList (socialMedia crmEvent) (rng w)) in
  exists v w' fuel,
    updatePageBlocks existing crmEvent w = Return v w'
    /\ serialize fuel (objects w') v
       = Some (JObj [("en-US", merge_locale crmEvent social JNull english);
                     ("ar", merge_locale crmEvent social (JStr "_blank")
                              arabic)]).
Proof. apply updatePageBlocks_merges. Qed.

Lemma updatePageBlocks_refines_merge_witness :
  exists v w' fuel,
    updatePageBlocks prior_value crm_plain prior_world = Return v w'
    /\ serialize fuel (objects w') v
       = Some (JObj [("en-US",
                      merge_locale crm_plain
                        (fst (buildSocialNetworksBlockList
                                (socialMedia crm_plain) (rng prior_world)))
                        JNull prior_english);
                     ("ar",
                      merge_locale crm_plain
                        (fst (buildSocialNetworksBlockList
                                (socialMedia crm_plain) (rng prior_world)))
                        (JStr "_blank") prior_english)]).
Proof.
  eapply (updatePageBlocks_refines_merge crm_plain prior_value prior_world).
  - vm_compute. reflexivity.
  - vm_compute. reflexivity.
  - vm_compute. reflexivity.
  - vm_compute. reflexivity.
  - vm_compute. exact I.
  - vm_compute. exact I.
Defined.

Lemma merge_locale_kept crmEvent social target blocks :
  mergeable blocks -> kept blocks (merge_locale crmEvent social target blocks).
Proof.
  destruct blocks as [| | | | |fields]; try done.
  unfold mergeable, merge_locale, kept.
  destruct (assoc "contentData" fields)
    as [[| | | |[|first [|second rest]]|]|] eqn:E; try done;
    try (intros _; repeat split; done).
  destruct second as [| | | | |bf]; try done. intros _.
  set (merged := merge_event_description crmEvent social target (JObj bf)).
  assert (Hold : content_entries (JObj fields) = first :: JObj bf :: rest).
  { unfold content_entries. cbn [field]. by rewrite E. }
  assert (Hnew : content_entries
                   (JObj (assoc_set "contentData"
                            (JArr (first :: merged :: rest)) fields))
                 = first :: merged :: rest).
  { unfold content_entries. cbn [field]. by rewrite assoc_set_same. }
  assert (Hkeeps : forall k, k <> "description" -> k <> "organiserName" ->
            k <> "organiserWebsite" -> k <> "socialNetworks" ->
            field k merged = field k (JObj bf)).
  { intros k ? ? ? ?. by apply merge_event_description_keeps. }
  split; [intros k Hk; cbn [field]; by apply assoc_set_other|].
  fold (content_entries (JObj fields)).
  unfold content_udis, content_types.
  fold (content_entries (JObj fields)).
  fold (content_entries (JObj (assoc_set "contentData"
                                 (JArr (first :: merged :: rest)) fields))).
  rewrite Hold, Hnew. cbn [fmap list_fmap].
  unfold text_field. rewrite !Hkeeps by done.
  repeat split; try done. simpl. lia.
Qed.

(** X16. What the update keeps: on prior page blocks whose two locales are
    block lists, the JSON text of the result of [updatePageBlocks] has, in
    each locale, the layout, the settings and every other field besides
    [contentData] as they were, every block other than the second as it
    was, the identifier and the content type of every block, and in the
    second block every field other than description, organiserName,
    organiserWebsite and socialNetworks; a locale without a second block
    has the text it had. *)
Theorem updatePageBlocks_preserves (crmEvent : CrmEvent)
    (existing : value) (w : World) (en_v ar_v : value) (english arabic : json) :
  get existing "en-US" w = Return en_v w ->
  get existing "ar" w = Return ar_v w ->
  JSON_stringify en_v w = Return (Some english) w ->
  JSON_stringify ar_v w = Return (Some arabic) w ->
  mergeable english -> mergeable arabic ->
  exists v w' fuel english' arabic',
    updatePageBlocks existing crmEvent w = Return v w'
    /\ serialize fuel (objects w') v
       = Some (JObj [("en-US", english'); ("ar", arabic')])
    /\ kept english english' /\ kept arabic arabic'.
Proof.
  intros Hgen Hgar Hten Htar Hmen Hmar.
  destruct (updatePageBlocks_merges crmEvent existing w en_v ar_v english
              arabic Hgen Hgar Hten Htar Hmen Hmar)
    as (v & w' & fuel & Hrun & Hser).
  exists v, w', fuel. eexists _, _. split; [exact Hrun|].
  split; [exact Hser|]. split; by apply merge_locale_kept.
Qed.

Lemma updatePageBlocks_preserves_witness :
  exists v w' fuel english' arabic',
    updatePageBlocks prior_value crm_plain prior_world = Return v w'
    /\ serialize fuel (objects w') v
       = Some (JObj [("en-US", english'); ("ar", arabic')])
    /\ kept prior_english english' /\ kept prior_english arabic'.
Proof.
  eapply (updatePageBlocks_preserves crm_plain prior_value prior_world).
  - vm_compute. reflexivity.
  - vm_compute. reflexivity.
  - vm_compute. reflexivity.
  - vm_compute. reflexivity.
  - vm_compute. exact I.
  - vm_compute. exact I.
Defined.

(** The merge of a created Event-Description block is, field by field, the
    block that creation builds for the new event under the same
    identifier. *)
Lemma merge_created_block crmEvent social target crm0 social0 target0 udi k :
  field k (merge_event_description crmEvent social target
             (event_description_block udi target0 crm0 social0))
  = field k (event_description_block udi target crmEvent social).
Proof.
  unfold event_description_block, merge_event_description,
    organiser_website_field.
  destruct (truthy_text (websiteURL crm0)) as [url0|],
    (truthy_text (websiteURL crmEvent)) as [url|]; cbn;
    repeat (match goal with
            | |- context [String.eqb k ?s] =>
              destruct (String.eqb_spec k s) as [->|?]
            end; cbn; try reflexivity).
Qed.

Lemma merge_block_list crmEvent social target layout first udi target0 crm0
    social0 rest :
  same_blocks
    (merge_locale crmEvent social target
       (block_list layout
          (first :: event_description_block udi target0 crm0 social0 :: rest)))
    (block_list layout
       (first :: event_description_block udi target crmEvent social :: rest)).
Proof.
  set (old := event_description_block udi target0 crm0 social0).
  assert (Hm : merge_locale crmEvent social target
                 (block_list layout (first :: old :: rest))
               = block_list layout
                   (first :: merge_event_description crmEvent social target old
                    :: rest)) by reflexivity.
  rewrite Hm. unfold same_blocks, block_list, content_entries.
  split; [|split].
  - intros k Hk. cbn [field assoc].
    destruct (String.eqb k "layout"); [done|].
    by destruct (String.eqb_spec k "contentData").
  - reflexivity.
  - intros k. cbn. apply merge_created_block.
Qed.

(** X17. Update after create: the page blocks that creation built for an
    event, read back and updated for any CRM event, are updated without a
    failure, and the JSON text of the result is, locale by locale, the
    block list that creation builds for the new event with the identifiers
    of the created document and the newly built social-networks list, but
    for the order of the fields of the second block. *)
Theorem update_after_create (crm0 crmEvent : CrmEvent) (g0 : Rng) (w0 : World) :
  let created := fst (buildPageBlocks crm0 g0) in
  let social :=
    fst (buildSocialNetworksBlockList (socialMedia crmEvent) (rng w0)) in
  exists existing w1 v w' fuel english arabic,
    build created w0 = Return existing w1
    /\ updatePageBlocks existing crmEvent w1 = Return v w'
    /\ serialize fuel (objects w') v
       = Some (JObj [("en-US", english); ("ar", arabic)])
    /\ same_blocks english
         (englishBlocks crmEvent social (guid_at g0 0) (guid_at g0 1)
            (guid_at g0 2) (guid_at g0 3) (guid_at g0 4))
    /\ same_blocks arabic
         (arabicBlocks crmEvent social (guid_at g0 5) (guid_at g0 6)
            (guid_at g0 7) (guid_at g0 8) (guid_at g0 9) (guid_at g0 10)).
Proof.
  intros created social. subst created. rewrite buildPageBlocks_run.
  cbn [fst].
  generalize (fst (buildSocialNetworksBlockList (socialMedia crm0)
                     (advance (31 * 11) g0))).
  generalize (guid_at g0 0), (guid_at g0 1), (guid_at g0 2), (guid_at g0 3),
    (guid_at g0 4), (guid_at g0 5), (guid_at g0 6), (guid_at g0 7),
    (guid_at g0 8), (guid_at g0 9), (guid_at g0 10).
  intros a1 a2 a3 a4 a5 b1 b2 b3 b4 b5 b6 social0.
  set (en0 := englishBlocks crm0 social0 a1 a2 a3 a4 a5).
  set (ar0 := arabicBlocks crm0 social0 b1 b2 b3 b4 b5 b6).
  destruct (build_builds (JObj [("en-US", en0); ("ar", ar0)]) w0)
    as (existing & c & Hbuild & Hbuilt).
  exists existing, (mkWorld (objects w0 ++ c) (rng w0)).
  apply built_obj_inv in Hbuilt as (l & props & -> & Hhi & Hl & Hk & Hb).
  destruct props as [|[k1 v1] [|[k2 v2] [|? ?]]]; try discriminate Hk.
  injection Hk as -> ->. cbn [fmap list_fmap snd] in Hb.
  apply built_cons_inv in Hb as (mid & Hb1 & Hb2).
  assert (Hlt : l < length (objects w0 ++ c))
    by (eapply lookup_lt_Some; exact Hl).
  apply built_le in Hb1 as Hle1. apply built_le in Hb2 as Hle2.
  destruct (updatePageBlocks_merges crmEvent (VRef l)
              (mkWorld (objects w0 ++ c) (rng w0)) v1 v2 en0 ar0)
    as (v & w' & fuel & Hrun & Hser).
  - by rewrite (get_Obj _ _ _ _ _ Hl).
  - by rewrite (get_Obj _ _ _ _ _ Hl).
  - eapply built_stringify; [exact Hb1|lia].
  - eapply built_stringify; [exact Hb2|lia].
  - exact I.
  - exact I.
  - cbn [rng] in Hser. fold social in Hser.
    exists v, w', fuel. eexists _, _.
    split; [exact Hbuild|]. split; [exact Hrun|]. split; [exact Hser|].
    split; apply merge_block_list.
Qed.

Lemma build_fields_returns (fields : list (string * json)) w :
  exists props created,
    eff_map (fun field => perform v := build (snd field) in ret (fst field, v))
            fields w
    = Return props (mkWorld (objects w ++ created) (rng w))
    /\ fst <$> props = fst <$> fields
    /\ built (objects w ++ created) (length (objects w))
             (length (objects w) + length created)
             (snd <$> props) (snd <$> fields).
Proof.
  apply eff_map_builds_fields. apply Forall_forall. intros f _.
  apply build_builds.
Qed.

(** X18. Update of an event without page blocks: when the existing event
    has no [pageBlocks] (missing, [null] or otherwise falsy),
    [mapCrmEventForUpdate] returns, draws from the random source what the
    create mapper draws, and the JSON text of its result is the create
    payload for the event without a parent, less its [contentTypeAlias]. *)
Theorem mapCrmEventForUpdate_without_pageBlocks (crmEvent : CrmEvent)
    (existing : value) (w : World) (x : value) :
  get existing "pageBlocks" w = Return x w ->
  truthy x = false ->
  exists v w' fuel,
    mapCrmEventForUpdate crmEvent existing w = Return v w'
    /\ rng w' = snd (mapCrmEventToUmbraco crmEvent None (rng w))
    /\ serialize fuel (objects w') v
       = Some (without_field "contentTypeAlias"
                 (fst (mapCrmEventToUmbraco crmEvent None (rng w)))).
Proof.
  intros Hget Hfalsy.
  unfold mapCrmEventForUpdate, mapCrmEventToUmbraco, baseData, rbind, rret.
  erewrite bind_Return; [|apply lift_rand_Return].
  destruct (buildSocialNetworksBlockList (socialMedia crmEvent) (rng w))
    as [social g1]. cbn [fst snd].
  set (fields := ("name", localized (title crmEvent))
                 :: localized_fields crmEvent
                 ++ invariant_fields crmEvent social).
  destruct (build_fields_returns fields (mkWorld (objects w) g1))
    as (props & c1 & Hfields & Hk & Hb1).
  cbn [objects rng] in Hfields, Hb1.
  erewrite bind_Return; [|exact Hfields].
  erewrite bind_Return; [|by apply get_mono]. rewrite Hfalsy.
  destruct (buildPageBlocks crmEvent g1) as [fresh g2] eqn:Epage.
  destruct (build_builds fresh (mkWorld (objects w ++ c1) g2))
    as (pb & c2 & Hpage & Hb2).
  cbn [objects rng] in Hpage, Hb2.
  erewrite bind_Return;
    [|erewrite bind_Return; [exact Hpage|];
      rewrite lift_rand_Return; cbn [objects rng]; by rewrite Epage].
  unfold new_object. cbn [objects rng truthy_text fst snd].
  set (h := (objects w ++ c1) ++ c2) in *.
  assert (Hlen1 : length (objects w ++ c1) = length (objects w) + length c1)
    by apply length_app.
  assert (Hlen2 : length h = length (objects w ++ c1) + length c2)
    by apply length_app.
  rewrite <- Hlen1 in Hb1. rewrite <- Hlen2 in Hb2.
  apply (built_mono _ c2) in Hb1. fold h in Hb1.
  set (o := Obj (props ++ [("pageBlocks", pb)])).
  assert (Hbuilt : built (h ++ [o]) (length (objects w)) (S (length h))
                     [VRef (length h)]
                     [JObj (fields ++ [("pageBlocks", fresh)])]).
  { eapply built_obj; [by apply list_lookup_middle| | |apply built_nil].
    - rewrite !fmap_app. by rewrite Hk.
    - rewrite !fmap_app. apply built_mono.
      eapply built_app; [exact Hb1|exact Hb2]. }
  apply built_serialize in Hbuilt. apply mapM_singleton in Hbuilt.
  eexists _, _, _. split; [reflexivity|]. split; [reflexivity|].
  cbn [objects]. exact Hbuilt.
Qed.

Lemma mapCrmEventForUpdate_without_pageBlocks_witness :
  exists v w' fuel,
    mapCrmEventForUpdate crm_plain (VRef 0)
      (mkWorld [Obj [("id", VStr "node-1")]] counting_source) = Return v w'
    /\ rng w' = snd (mapCrmEventToUmbraco crm_plain None counting_source)
    /\ serialize fuel (objects w') v
       = Some (without_field "contentTypeAlias"
                 (fst (mapCrmEventToUmbraco crm_plain None counting_source))).
Proof.
  apply (mapCrmEventForUpdate_without_pageBlocks crm_plain (VRef 0)
           (mkWorld [Obj [("id", VStr "node-1")]] counting_source) VUndefined).
  - reflexivity.
  - reflexivity.
Defined.

(** X19. Failures of the update mapper: for an existing event that is
    [null] or [undefined] it throws a [TypeError] (it reads [pageBlocks]
    of it); for an existing event whose [pageBlocks] is a primitive that
    counts as true (a non-empty text, a number other than zero, [true]) it
    throws a [SyntaxError] (the text of an [undefined] locale is parsed). *)
Theorem mapCrmEventForUpdate_failures (crmEvent : CrmEvent) (w : World) :
  (exists w', mapCrmEventForUpdate crmEvent VNull w = Throw TypeError w')
  /\ (exists w', mapCrmEventForUpdate crmEvent VUndefined w
                 = Throw TypeError w')
  /\ forall existing x,
       get existing "pageBlocks" w = Return x w ->
       truthy x = true -> (forall l, x <> VRef l) ->
       exists w', mapCrmEventForUpdate crmEvent existing w
                  = Throw SyntaxError w'.
Proof.
  assert (Hstart : forall existing, exists social props c1 g1,
            mapCrmEventForUpdate crmEvent existing w
            = bind (get existing "pageBlocks")
                (fun existingBlocks =>
                   perform pageBlocks :=
                     (if truthy existingBlocks
                      then updatePageBlocks existingBlocks crmEvent
                      else perform fresh := lift_rand (buildPageBlocks crmEvent)
                           in build fresh) in
                   new_object (Obj (props ++ [("pageBlocks", pageBlocks)])))
                (mkWorld (objects w ++ c1) g1)
            /\ social = fst (buildSocialNetworksBlockList
                               (socialMedia crmEvent) (rng w))).
  { intros existing. unfold mapCrmEventForUpdate.
    erewrite bind_Return; [|apply lift_rand_Return].
    set (social := fst (buildSocialNetworksBlockList _ (rng w))).
    set (g1 := snd (buildSocialNetworksBlockList _ (rng w))).
    destruct (build_fields_returns
                (("name", localized (title crmEvent))
                 :: localized_fields crmEvent
                 ++ invariant_fields crmEvent social)
                (mkWorld (objects w) g1))
      as (props & c1 & Hfields & _ & _).
    cbn [objects rng] in Hfields.
    erewrite bind_Return; [|exact Hfields].
    by exists social, props, c1, g1. }
  split; [|split].
  - destruct (Hstart VNull) as (social & props & c1 & g1 & -> & _).
    eexists. reflexivity.
  - destruct (Hstart VUndefined) as (social & props & c1 & g1 & -> & _).
    eexists. reflexivity.
  - intros existing x Hget Htruthy Hprim.
    destruct (Hstart existing) as (social & props & c1 & g1 & -> & _).
    erewrite bind_Return; [|by apply get_mono]. rewrite Htruthy.
    unfold updatePageBlocks.
    set (w1 := mkWorld (objects w ++ c1) g1).
    destruct (build_builds
                (fst (buildSocialNetworksBlockList (socialMedia crmEvent)
                        (rng w1)))
                (mkWorld (objects w1)
                   (snd (buildSocialNetworksBlockList (socialMedia crmEvent)
                           (rng w1)))))
      as (sv & c2 & Hsocial & _).
    eexists. erewrite bind_Throw; [reflexivity|].
    erewrite bind_Return; [|apply lift_rand_Return].
    erewrite bind_Return; [|exact Hsocial].
    destruct x as [| | | | |l]; try done; by destruct (Hprim l).
Qed.

(** X20. The fields of an update payload: whenever [mapCrmEventForUpdate]
    returns, it returns an object with the fields of a create payload in
    their order, without [contentTypeAlias] and without [parentId];
    [organiserWebsite] is there exactly when the event has a non-empty
    website address. *)
Theorem mapCrmEventForUpdate_keys (crmEvent : CrmEvent) (existing : value)
    (w : World) (v : value) (w' : World) :
  mapCrmEventForUpdate crmEvent existing w = Return v w' ->
  exists l props,
    v = VRef l /\ objects w' !! l = Some (Obj props)
    /\ fst <$> props
       = ["name"; "title"; "description"; "metadataTitle";
          "metadataDescription"; "metadataKeywords"; "date"; "category";
          "endDate"; "organiserName"]
         ++ match truthy_text (websiteURL crmEvent) with
            | Some _ => ["organiserWebsite"]
            | None => []
            end
         ++ ["organiserSocialNetworks"; "eventId"; "lastUpdatedDate";
             "location"; "eventVenue"; "newEventVenue"; "audience";
             "industry"; "pageBlocks"].
Proof.
  unfold mapCrmEventForUpdate.
  erewrite bind_Return; [|apply lift_rand_Return].
  set (social := fst (buildSocialNetworksBlockList _ (rng w))).
  set (g1 := snd (buildSocialNetworksBlockList _ (rng w))).
  destruct (build_fields_returns
              (("name", localized (title crmEvent))
               :: localized_fields crmEvent
               ++ invariant_fields crmEvent social)
              (mkWorld (objects w) g1))
    as (props & c1 & Hfields & Hk & _).
  cbn [objects rng] in Hfields.
  erewrite bind_Return; [|exact Hfields].
  unfold bind at 1.
  destruct (get existing "pageBlocks" _) as [x w2|]; [|done].
  unfold bind at 1.
  match goal with
  | |- context [match ?m with Return _ _ => _ | Throw _ _ => _ end] =>
    destruct m as [pb w3|]
  end; [|done].
  unfold new_object. intros [= <- <-].
  exists (length (objects w3)), (props ++ [("pageBlocks", pb)]).
  split; [done|]. split; [by apply list_lookup_middle|].
  rewrite fmap_app, Hk.
  unfold invariant_fields, localized_fields, document_website_field.
  by destruct (truthy_text (websiteURL crmEvent)).
Qed.

Lemma mapCrmEventForUpdate_keys_witness :
  exists v w',
    mapCrmEventForUpdate crm_plain (VRef 0)
      (mkWorld [Obj [("id", VStr "node-1")]] counting_source) = Return v w'
    /\ exists l props,
         v = VRef l /\ objects w' !! l = Some (Obj props)
         /\ fst <$> props
            = ["name"; "title"; "description"; "metadataTitle";
               "metadataDescription"; "metadataKeywords"; "date"; "category";
               "endDate"; "organiserName"; "organiserSocialNetworks";
               "eventId"; "lastUpdatedDate"; "location"; "eventVenue";
               "newEventVenue"; "audience"; "industry"; "pageBlocks"].
Proof.
  eexists _, _. split; [vm_compute; reflexivity|].
  eapply (mapCrmEventForUpdate_keys crm_plain (VRef 0)
            (mkWorld [Obj [("id", VStr "node-1")]] counting_source)).
  vm_compute. reflexivity.
Defined.

Lemma built_fresh h lo hi v t : built h lo hi [v] [t] -> fresh_value lo v.
Proof.
  inversion 1 as [|? ? ? ? ? ? Hp|? l ? ? ? ? ? ? Hl Hb Hnil
                  |? l ? ? ? ? ? Hl Hk Hb Hnil]; subst.
  - by destruct v.
  - simpl. by eapply built_le.
  - simpl. by eapply built_le.
Qed.

(** X21. The clone of the update path: parsing the JSON text of a value
    returns a value that has the same JSON text and is made of newly
    created objects only (the value returned is a created object or a
    primitive, and every created object holds created objects and
    primitives only, so that no object of the clone is an object that
    existed before); the value that was cloned keeps its text. *)
Theorem clone_round_trip (v : value) (w : World) (text : json) :
  JSON_stringify v w = Return (Some text) w ->
  exists v' created,
    let w' := mkWorld (objects w ++ created) (rng w) in
    (perform t := JSON_stringify v in JSON_parse t) w = Return v' w'
    /\ JSON_stringify v' w' = Return (Some text) w'
    /\ JSON_stringify v w' = Return (Some text) w'
    /\ fresh_value (length (objects w)) v'
    /\ Forall (closed_object (length (objects w))) created.
Proof.
  intros Hs.
  destruct (build_builds text w) as (v' & created & Hbuild & Hbuilt).
  exists v', created. cbn zeta.
  split; [erewrite bind_Return; [|exact Hs]; exact Hbuild|].
  split; [eapply built_stringify; [exact Hbuilt|by rewrite length_app]|].
  split; [by apply JSON_stringify_mono|].
  split; [by eapply built_fresh|].
  pose proof (keeps_build (objects w) text w (extends_refl (objects w)))
    as Hkeeps.
  rewrite Hbuild in Hkeeps. destruct Hkeeps as [(created' & Heq & Hclosed) _].
  cbn [objects] in Heq. apply app_inv_head in Heq. by subst.
Qed.

Lemma clone_round_trip_witness :
  exists v' created,
    let w' := mkWorld (objects prior_world ++ created) (rng prior_world) in
    (perform t := JSON_stringify prior_value in JSON_parse t) prior_world
    = Return v' w'
    /\ JSON_stringify v' w' = Return (Some prior) w'
    /\ JSON_stringify prior_value w' = Return (Some prior) w'
    /\ fresh_value (length (objects prior_world)) v'
    /\ Forall (closed_object (length (objects prior_world))) created.
Proof.
  apply (clone_round_trip prior_value prior_world prior).
  vm_compute. reflexivity.
Defined.

(** X22. Update of an event with page blocks: when the page blocks of the
    existing event have two locales that are block lists,
    [mapCrmEventForUpdate] returns, and the JSON text of its result is the
    create payload for the event without a parent, less its
    [contentTypeAlias], with the updated prior page blocks as [pageBlocks];
    the social-networks list of the page blocks is built from the draws
    that follow those of the list of the payload. *)
Theorem mapCrmEventForUpdate_with_pageBlocks (crmEvent : CrmEvent)
    (existing : value) (w : World) (x en_v ar_v : value)
    (english arabic : json) :
  get existing "pageBlocks" w = Return x w ->
  truthy x = true ->
  get x "en-US" w = Return en_v w ->
  get x "ar" w = Return ar_v w ->
  JSON_stringify en_v w = Return (Some english) w ->
  JSON_stringify ar_v w = Return (Some arabic) w ->
  mergeable english -> mergeable arabic ->
  let g1 := snd (buildSocialNetworksBlockList (socialMedia crmEvent) (rng w)) in
  let social := fst (buildSocialNetworksBlockList (socialMedia crmEvent) g1) in
  let updated :=
    JObj [("en-US", merge_locale crmEvent social JNull english);
          ("ar", merge_locale crmEvent social (JStr "_blank") arabic)] in
  exists v w' fuel,
    mapCrmEventForUpdate crmEvent existing w = Return v w'
    /\ serialize fuel (objects w') v
       = Some (with_field "pageBlocks" updated
                 (without_field "contentTypeAlias"
                    (fst (mapCrmEventToUmbraco crmEvent None (rng w))))).
Proof.
  intros Hget Htruthy Hgen Hgar Hten Htar Hmen Hmar g1 social updated.
  assert (Hcreate :
    with_field "pageBlocks" updated
      (without_field "contentTypeAlias"
         (fst (mapCrmEventToUmbraco crmEvent None (rng w))))
    = JObj ((("name", localized (title crmEvent))
             :: localized_fields crmEvent
             ++ invariant_fields crmEvent
                  (fst (buildSocialNetworksBlockList (socialMedia crmEvent)
                          (rng w))))
            ++ [("pageBlocks", updated)])).
  { clearbody updated. clear.
    unfold mapCrmEventToUmbraco, baseData, rbind, rret.
    destruct (buildSocialNetworksBlockList (socialMedia crmEvent) (rng w))
      as [sn g1].
    destruct (buildPageBlocks crmEvent g1) as [pb g2].
    unfold invariant_fields, localized_fields, document_website_field.
    by destruct (truthy_text (websiteURL crmEvent)). }
  rewrite Hcreate. clear Hcreate.
  unfold mapCrmEventForUpdate.
  erewrite bind_Return; [|apply lift_rand_Return]. fold g1.
  set (fields := ("name", localized (title crmEvent))
                 :: localized_fields crmEvent
                 ++ invariant_fields crmEvent _).
  destruct (build_fields_returns fields (mkWorld (objects w) g1))
    as (props & c1 & Hfields & Hk & Hb1).
  cbn [objects rng] in Hfields, Hb1.
  erewrite bind_Return; [|exact Hfields].
  erewrite bind_Return; [|by apply get_mono]. rewrite Htruthy.
  set (w1 := mkWorld (objects w ++ c1) g1).
  destruct (updatePageBlocks_merges crmEvent x w1 en_v ar_v english arabic)
    as (pb & w3 & fuel1 & Hrun & Hser); try done;
    try (by apply get_mono); try (by apply JSON_stringify_mono).
  cbn [rng w1] in Hser. fold social in Hser. fold updated in Hser.
  erewrite bind_Return; [|exact Hrun]. unfold new_object.
  pose proof (keeps_updatePageBlocks (objects w1) x crmEvent w1
                (extends_refl (objects w1))) as Hkeeps.
  rewrite Hrun in Hkeeps. destruct Hkeeps as [(created & Hw3 & _) _].
  cbn [objects w1] in Hw3.
  set (o := Obj (props ++ [("pageBlocks", pb)])).
  set (h' := objects w3 ++ [o]).
  assert (Hb : built h' (length (objects w))
                 (length (objects w) + length c1)
                 (snd <$> props) (snd <$> fields)).
  { unfold h'. rewrite Hw3. by do 2 apply built_mono. }
  apply built_serialize in Hb as Hs1.
  set (fuel := S (length (objects w) + length c1 - length (objects w))
               `max` fuel1).
  assert (Hall : mapM (serialize fuel h')
                   (snd <$> (props ++ [("pageBlocks", pb)]))
                 = Some (snd <$> (fields ++ [("pageBlocks", updated)]))).
  { rewrite !fmap_app. apply mapM_Some, Forall2_app.
    - apply mapM_Some. eapply serialize_all_fuel; [exact Hs1|]. unfold fuel. lia.
    - repeat constructor. simpl. unfold h'.
      eapply serialize_mono; [exact Hser|]. unfold fuel. lia. }
  assert (Hdefined : Forall (fun v => v <> VUndefined)
                       (snd <$> (props ++ [("pageBlocks", pb)]))).
  { rewrite fmap_app. apply Forall_app. split.
    - eapply represents_defined.
      eapply (built_represents _ _ _ _ _ (fun _ => True)); [exact Hb|done].
    - repeat constructor. simpl. intros ->.
      destruct fuel1; discriminate Hser. }
  exists (VRef (length (objects w3))), (mkWorld h' (rng w3)), (S fuel).
  split; [reflexivity|]. cbn [objects].
  rewrite serialize_ref. unfold h' at 1.
  rewrite list_lookup_middle by done. fold h'. unfold o.
  rewrite filter_defined by exact Hdefined.
  erewrite serialize_props; [done| |exact Hall].
  rewrite !fmap_app. by rewrite Hk.
Qed.

Lemma mapCrmEventForUpdate_with_pageBlocks_witness :
  exists existing w,
    prior_event_outcome = Return existing w
    /\ exists v w' fuel,
         mapCrmEventForUpdate crm_plain existing w = Return v w'
         /\ serialize fuel (objects w') v
            = Some (with_field "pageBlocks"
                      (JObj [("en-US", merge_locale crm_plain (block_list [] [])
                                         JNull prior_english);
                             ("ar", merge_locale crm_plain (block_list [] [])
                                      (JStr "_blank") prior_english)])
                      (without_field "contentTypeAlias"
                         (fst (mapCrmEventToUmbraco crm_plain None
                                 counting_source)))).
Proof.
  eexists _, _. split; [vm_compute; reflexivity|].
  eapply (mapCrmEventForUpdate_with_pageBlocks crm_plain).
  - vm_compute. reflexivity.
  - reflexivity.
  - vm_compute. reflexivity.
  - vm_compute. reflexivity.
  - vm_compute. reflexivity.
  - vm_compute. reflexivity.
  - vm_compute. exact I.
  - vm_compute. exact I.
Defined.

End UpdatePathMore.
